(** * Financial knowledge-graph builder: cleaning, graph import and
      question translation, embedded from the Python sources

    The development follows the three core modules of the repository:
    - [src/clean.py]         ([DataCleaner]),
    - [src/graph_builder.py] ([Neo4jGraphBuilder]),
    - [src/query_nl.py]      ([NaturalLanguageQuery]),
    and, after them, the statistics of the graph ([GraphStats]) and
    [src/preprocess.py] ([TextPreprocessor]).

    Python text is modelled by [string]; the case, whitespace and digit
    classes used by [str.lower], [str.strip], [str.title] and by the
    regular expressions are the ASCII ones, so the model agrees with
    Python on ASCII text (other bytes are uncased and belong to no class).
    Python floats are the primitive binary64 floats, and a missing cell of
    a data frame (pandas' NaN) is [None].  Properties that rest on the
    letter cases are stated for ASCII text.  The sort by confidence is
    modelled by a stable sort, and nothing is stated about the order of
    rows of equal confidence; the store refuses an import for a label that
    is not text, and the properties of the graph are stated for the batches
    it accepts.

    The file has three parts: the embedding of the code, module by module;
    the predicates and abstractions the properties are stated with; the
    properties and their proofs. *)

From Stdlib Require Import List String Ascii Bool Arith Lia Floats.
From Stdlib Require Import DecimalString.
Import ListNotations.

Set Warnings "-inexact-float".

(** ** Python string operations *)

Module PyStr.

Definition code (c : ascii) : nat := nat_of_ascii c.

Definition between (lo hi : nat) (c : ascii) : bool :=
  (lo <=? code c) && (code c <=? hi).

Definition is_upper : ascii -> bool := between 65 90.
Definition is_lower : ascii -> bool := between 97 122.
Definition is_digit : ascii -> bool := between 48 57.
Definition is_cased (c : ascii) : bool := is_upper c || is_lower c.

(** [str.isspace] on ASCII: TAB, LF, VT, FF, CR, FS, GS, RS, US, SPACE.
    The class [\s] of the [re] module is the same set. *)
Definition is_space (c : ascii) : bool := between 9 13 c || between 28 32 c.

(** The class [\w] of the [re] module. *)
Definition is_word (c : ascii) : bool :=
  is_cased c || is_digit c || (code c =? 95).

Definition LF : ascii := ascii_of_nat 10.
Definition SPACE : ascii := ascii_of_nat 32.
Definition DQUOTE : ascii := ascii_of_nat 34.
Definition SQUOTE : ascii := ascii_of_nat 39.

Definition to_lower (c : ascii) : ascii :=
  if is_upper c then ascii_of_nat (code c + 32) else c.
Definition to_upper (c : ascii) : ascii :=
  if is_lower c then ascii_of_nat (code c - 32) else c.

Fixpoint smap (f : ascii -> ascii) (s : string) : string :=
  match s with
  | EmptyString => EmptyString
  | String c r => String (f c) (smap f r)
  end.

Fixpoint sexists (p : ascii -> bool) (s : string) : bool :=
  match s with
  | EmptyString => false
  | String c r => p c || sexists p r
  end.

(** [s.lower()] and [s.upper()] *)
Definition lower : string -> string := smap to_lower.
Definition upper : string -> string := smap to_upper.

(** [s.startswith(p)] *)
Fixpoint startswith (p s : string) : bool :=
  match p, s with
  | EmptyString, _ => true
  | String a p', String b s' => Ascii.eqb a b && startswith p' s'
  | String _ _, EmptyString => false
  end.

(** [needle in hay] *)
Fixpoint contains (needle hay : string) : bool :=
  startswith needle hay ||
  match hay with
  | EmptyString => false
  | String _ r => contains needle r
  end.

(** [s[n:]] *)
Fixpoint drop (n : nat) (s : string) : string :=
  match n, s with
  | O, _ => s
  | S n', String _ r => drop n' r
  | S _, EmptyString => EmptyString
  end.

(** [s.lstrip(chars)], [s.rstrip(chars)] and [s.strip(chars)] for the
    character class [p] *)
Fixpoint lstrip_by (p : ascii -> bool) (s : string) : string :=
  match s with
  | EmptyString => EmptyString
  | String c r => if p c then lstrip_by p r else s
  end.

Fixpoint rstrip_by (p : ascii -> bool) (s : string) : string :=
  match s with
  | EmptyString => EmptyString
  | String c r =>
      match rstrip_by p r with
      | EmptyString => if p c then EmptyString else String c EmptyString
      | r' => String c r'
      end
  end.

Definition strip_by (p : ascii -> bool) (s : string) : string :=
  rstrip_by p (lstrip_by p s).

(** [s.strip()] *)
Definition strip : string -> string := strip_by is_space.

(** [s.isupper()], [s.islower()]: at least one cased character and no
    cased character of the other case *)
Definition isupper (s : string) : bool :=
  sexists is_upper s && negb (sexists is_lower s).
Definition islower (s : string) : bool :=
  sexists is_lower s && negb (sexists is_upper s).

(** [s.title()]: a cased character is upper-cased when the character
    before it is uncased (or there is none), lower-cased otherwise *)
Fixpoint title_from (previous_is_cased : bool) (s : string) : string :=
  match s with
  | EmptyString => EmptyString
  | String c r =>
      String (if previous_is_cased then to_lower c else to_upper c)
             (title_from (is_cased c) r)
  end.
Definition title : string -> string := title_from false.

(** [s.replace(old, new)] for a non-empty [old]: occurrences are
    replaced from left to right, without overlap; [skip] counts the
    characters of a replaced occurrence still to be passed over *)
Fixpoint replace_from (skip : nat) (old new s : string) : string :=
  match s with
  | EmptyString => EmptyString
  | String c r =>
      match skip with
      | S k => replace_from k old new r
      | O =>
          if startswith old s
          then (new ++ replace_from (String.length old - 1) old new r)%string
          else String c (replace_from 0 old new r)
      end
  end.
Definition replace : string -> string -> string -> string := replace_from 0.

End PyStr.

(** ** The regular expressions of the sources

    Each pattern used with [re.match] / [re.search] is written out as a
    matcher.  Where a greedy repetition is followed by a character outside
    its class, backtracking cannot find a match that the greedy choice
    misses, so the matcher consumes the whole run. *)

Module Re.
Import PyStr.

(** [[A-Z][a-z]+] at the start of [s]; the text after it *)
Definition capitalized_word (s : string) : option string :=
  match s with
  | String c1 (String c2 r) =>
      if is_upper c1 && is_lower c2 then Some (lstrip_by is_lower r) else None
  | _ => None
  end.

(** [$]: at the end of the text, or just before a final line feed *)
Definition at_end (s : string) : bool :=
  match s with
  | EmptyString => true
  | String c EmptyString => Ascii.eqb c LF
  | _ => false
  end.

(** [re.match(r'^[A-Z][a-z]+ [A-Z][a-z]+$', s)] *)
Definition match_person (s : string) : bool :=
  match capitalized_word s with
  | Some (String sp r) =>
      Ascii.eqb sp SPACE &&
      match capitalized_word r with
      | Some e => at_end e
      | None => false
      end
  | _ => false
  end.

(** [\d{4}] at the start of [s]; the text after it *)
Definition digits4_at (s : string) : option string :=
  match s with
  | String a (String b (String c (String d r))) =>
      if is_digit a && is_digit b && is_digit c && is_digit d
      then Some r else None
  | _ => None
  end.

(** [re.search(r'\d{4}', s)] *)
Fixpoint search_digits4 (s : string) : bool :=
  match digits4_at s with
  | Some _ => true
  | None =>
      match s with
      | EmptyString => false
      | String _ r => search_digits4 r
      end
  end.

Definition months : list string :=
  ["Jan"; "Feb"; "Mar"; "Apr"; "May"; "Jun";
   "Jul"; "Aug"; "Sep"; "Oct"; "Nov"; "Dec"]%string.

(** [\b] between a previous character (a word character or not; none
    counts as not) and the text [s] that follows *)
Definition word_boundary (previous_is_word : bool) (s : string) : bool :=
  xorb previous_is_word
       match s with
       | EmptyString => false
       | String c _ => is_word c
       end.

(** [(Jan|...|Dec)[a-z]* \d{4}\b] at the start of [s] *)
Definition month_year_at (s : string) : bool :=
  existsb (fun m => startswith m s) months &&
  match lstrip_by is_lower (drop 3 s) with
  | String sp r =>
      Ascii.eqb sp SPACE &&
      match digits4_at r with
      | Some e => word_boundary true e
      | None => false
      end
  | EmptyString => false
  end.

(** [re.search(r'\b(Jan|...|Dec)[a-z]* \d{4}\b', s)] *)
Fixpoint search_month_year (previous_is_word : bool) (s : string) : bool :=
  (word_boundary previous_is_word s && month_year_at s) ||
  match s with
  | EmptyString => false
  | String c r => search_month_year (is_word c) r
  end.

(** [re.search(r'\$\d+', s, re.IGNORECASE)] *)
Fixpoint search_dollar_amount (s : string) : bool :=
  match s with
  | EmptyString => false
  | String c r =>
      (Ascii.eqb c (ascii_of_nat 36) &&
       match r with
       | String d _ => is_digit d
       | EmptyString => false
       end) || search_dollar_amount r
  end.

Definition scale_words : list string := ["million"; "billion"; "trillion"]%string.

(** [re.search(r'\d+\s*(million|billion|trillion)', s, re.IGNORECASE)]:
    the last digit of the run, any whitespace, then the word *)
Fixpoint search_scaled_amount (s : string) : bool :=
  match s with
  | EmptyString => false
  | String c r =>
      (is_digit c &&
       existsb (fun w => startswith w (lower (lstrip_by is_space r))) scale_words)
      || search_scaled_amount r
  end.

(** [re.search(word, s, re.IGNORECASE)] for a literal [word] *)
Definition search_ignorecase (word s : string) : bool :=
  contains (lower word) (lower s).

(** [(.+?)] at the start of [s], followed by the literal [suffix]: the
    shortest non-empty run of characters other than the line feed *)
Fixpoint lazy_group (suffix s : string) : option string :=
  match s with
  | EmptyString => None
  | String c r =>
      if Ascii.eqb c LF then None
      else if startswith suffix r then Some (String c EmptyString)
      else option_map (String c) (lazy_group suffix r)
  end.

(** [re.search(prefix + '(.+?)' + suffix, s)] for literal [prefix] and
    [suffix]: [group(1)] of the leftmost match *)
Fixpoint search_group (prefix suffix s : string) : option string :=
  match (if startswith prefix s
         then lazy_group suffix (drop (String.length prefix) s)
         else None) with
  | Some g => Some g
  | None =>
      match s with
      | EmptyString => None
      | String _ r => search_group prefix suffix r
      end
  end.

End Re.

(** ** [src/clean.py]: the Normalizer *)

Module DataCleaner.
Import PyStr.
Local Open Scope string_scope.

(** A triplet record.  [T] is the type of the [head], [relation] and
    [tail] cells: [option string] for extractor output (text or a null),
    [string] once cleaned.  An optional cell is [None] when the key is
    missing (pandas stores NaN there when the column exists). *)
Record Triplet (T : Type) : Type := {
  head : T;
  relation : T;
  tail : T;
  confidence : option float;
  head_type : option string;
  tail_type : option string
}.
Arguments head {T} _.
Arguments relation {T} _.
Arguments tail {T} _.
Arguments confidence {T} _.
Arguments head_type {T} _.
Arguments tail_type {T} _.

Record DataFrame (T : Type) : Type := {
  columns : list string;
  rows : list (Triplet T)
}.
Arguments columns {T} _.
Arguments rows {T} _.

Definition in_columns {T} (name : string) (df : DataFrame T) : bool :=
  existsb (String.eqb name) (columns df).

Definition is_some {A} (o : option A) : bool :=
  match o with Some _ => true | None => false end.

(** [pd.DataFrame(triplets)]: a column exists as soon as one record has
    the key *)
Definition DataFrame_of (triplets : list (Triplet (option string)))
  : DataFrame (option string) :=
  {| columns :=
       ["head"; "relation"; "tail"]
       ++ (if existsb (fun t => is_some (confidence t)) triplets
           then ["confidence"] else [])
       ++ (if existsb (fun t => is_some (head_type t)) triplets
           then ["head_type"] else [])
       ++ (if existsb (fun t => is_some (tail_type t)) triplets
           then ["tail_type"] else []);
     rows := triplets |}.

(** [pd.DataFrame()] *)
Definition empty_frame {T} : DataFrame T := {| columns := []; rows := [] |}.

(** [df.empty] *)
Definition empty {T} (df : DataFrame T) : bool :=
  match rows df with [] => true | _ => false end.

Record Config := {
  confidence_threshold : float;
  relation_types : list string
}.

(** The synonym dictionary, in insertion order *)
Definition relation_standardization : list (string * string) :=
  [ ("acquired", "ACQUIRED");
    ("acquisition", "ACQUIRED");
    ("bought", "ACQUIRED");
    ("purchased", "ACQUIRED");
    ("invested in", "INVESTED_IN");
    ("investment in", "INVESTED_IN");
    ("funded", "INVESTED_IN");
    ("launched", "LAUNCHED");
    ("released", "LAUNCHED");
    ("introduced", "LAUNCHED");
    ("partnered with", "PARTNERED_WITH");
    ("collaborated with", "PARTNERED_WITH");
    ("ceo of", "CEO_OF");
    ("chief executive officer of", "CEO_OF");
    ("founded", "FOUNDED");
    ("established", "FOUNDED");
    ("created", "FOUNDED") ].

(** [d[k]] when [k in d] *)
Fixpoint dict_get (k : string) (d : list (string * string)) : option string :=
  match d with
  | [] => None
  | (k', v) :: d' => if String.eqb k k' then Some v else dict_get k d'
  end.

(** The loop [for key, value in d.items(): if key in s: return value] *)
Fixpoint first_contained (s : string) (d : list (string * string))
  : option string :=
  match d with
  | [] => None
  | (key, value) :: d' =>
      if contains key s then Some value else first_contained s d'
  end.

Definition _standardize_relation (relation : option string) : string :=
  match relation with
  | None => "UNKNOWN"
  | Some relation =>
      let relation_str := lower (strip relation) in
      match dict_get relation_str relation_standardization with
      | Some value => value
      | None =>
          match first_contained relation_str relation_standardization with
          | Some value => value
          | None => upper relation_str
          end
      end
  end.

(** [re.sub(r'\s+', ' ', s)] *)
Fixpoint collapse_whitespace (in_run : bool) (s : string) : string :=
  match s with
  | EmptyString => EmptyString
  | String c r =>
      if is_space c
      then if in_run then collapse_whitespace true r
           else String SPACE (collapse_whitespace true r)
      else String c (collapse_whitespace false r)
  end.

Definition is_quote (c : ascii) : bool :=
  Ascii.eqb c DQUOTE || Ascii.eqb c SQUOTE.

Definition _clean_entity_name (entity : option string) : string :=
  match entity with
  | None => EmptyString
  | Some entity =>
      let entity_str := strip entity in
      let entity_str := collapse_whitespace false entity_str in
      let entity_str := strip_by is_quote entity_str in
      if isupper entity_str || islower entity_str
      then title entity_str
      else entity_str
  end.

Definition company_patterns : list string :=
  ["Inc"; "Corp"; "Ltd"; "LLC"; "Co."; "Company"; "Group"].

Definition is_company (entity_str : string) : bool :=
  existsb (fun pattern => contains pattern entity_str) company_patterns.

Definition is_person (entity_str : string) : bool :=
  Re.match_person entity_str.

Definition is_date (entity_str : string) : bool :=
  Re.search_digits4 entity_str || Re.search_month_year false entity_str.

Definition is_currency (entity_str : string) : bool :=
  Re.search_dollar_amount entity_str
  || Re.search_scaled_amount entity_str
  || Re.search_ignorecase "USD" entity_str
  || Re.search_ignorecase "EUR" entity_str.

Definition _infer_entity_type (entity : option string) : string :=
  match entity with
  | None => "UNKNOWN"
  | Some entity_str =>
      if is_company entity_str then "COMPANY"
      else if is_person entity_str then "PERSON"
      else if is_date entity_str then "DATE"
      else if is_currency entity_str then "CURRENCY"
      else "ENTITY"
  end.

(** Equality of two cells; two missing values count as equal, as in
    [DataFrame.duplicated] *)
Definition cell_eqb (a b : option string) : bool :=
  match a, b with
  | Some x, Some y => String.eqb x y
  | None, None => true
  | _, _ => false
  end.

Definition same_key (a b : Triplet (option string)) : bool :=
  cell_eqb (head a) (head b)
  && cell_eqb (relation a) (relation b)
  && cell_eqb (tail a) (tail b).

(** [drop_duplicates(subset=['head', 'relation', 'tail'])], which keeps
    the first record of every key; [seen] holds the records kept so far *)
Fixpoint drop_duplicates_from (seen l : list (Triplet (option string)))
  : list (Triplet (option string)) :=
  match l with
  | [] => []
  | t :: l' =>
      if existsb (same_key t) seen
      then drop_duplicates_from seen l'
      else t :: drop_duplicates_from (t :: seen) l'
  end.

Definition drop_duplicates (df : DataFrame (option string))
  : DataFrame (option string) :=
  {| columns := columns df; rows := drop_duplicates_from [] (rows df) |}.

(** [df[mask]]: the rows selected by a boolean mask *)
Definition select {T} (mask : Triplet T -> bool) (df : DataFrame T)
  : DataFrame T :=
  {| columns := columns df; rows := filter mask (rows df) |}.

(** One entry of [df['confidence'] >= threshold]; a missing value (NaN)
    compares false *)
Definition confidence_ge (threshold : float) (c : option float) : bool :=
  match c with
  | Some x => PrimFloat.leb threshold x
  | None => false
  end.

(** Step 2 *)
Definition filter_confidence (cfg : Config) (df : DataFrame (option string))
  : DataFrame (option string) :=
  if in_columns "confidence" df
  then select (fun t => confidence_ge (confidence_threshold cfg) (confidence t)) df
  else df.

(** Steps 3 and 4: the three [apply] calls on the columns [relation],
    [head] and [tail] *)
Definition standardize_row (t : Triplet (option string)) : Triplet string :=
  {| head := _clean_entity_name (head t);
     relation := _standardize_relation (relation t);
     tail := _clean_entity_name (tail t);
     confidence := confidence t;
     head_type := head_type t;
     tail_type := tail_type t |}.

Definition standardize (df : DataFrame (option string)) : DataFrame string :=
  {| columns := columns df; rows := map standardize_row (rows df) |}.

(** Step 5: [df['relation'].isin(valid_relations)] *)
Definition filter_valid_relations (cfg : Config) (df : DataFrame string)
  : DataFrame string :=
  select (fun t => existsb (String.eqb (relation t)) (relation_types cfg)) df.

(** Step 6: [df['head'] != df['tail']] *)
Definition filter_self_references (df : DataFrame string) : DataFrame string :=
  select (fun t => negb (String.eqb (head t) (tail t))) df.

(** Step 7 *)
Definition set_head_type (t : Triplet string) : Triplet string :=
  {| head := head t; relation := relation t; tail := tail t;
     confidence := confidence t;
     head_type := Some (_infer_entity_type (Some (head t)));
     tail_type := tail_type t |}.

Definition set_tail_type (t : Triplet string) : Triplet string :=
  {| head := head t; relation := relation t; tail := tail t;
     confidence := confidence t;
     head_type := head_type t;
     tail_type := Some (_infer_entity_type (Some (tail t))) |}.

Definition add_head_type (df : DataFrame string) : DataFrame string :=
  if in_columns "head_type" df then df
  else {| columns := columns df ++ ["head_type"];
          rows := map set_head_type (rows df) |}.

Definition add_tail_type (df : DataFrame string) : DataFrame string :=
  if in_columns "tail_type" df then df
  else {| columns := columns df ++ ["tail_type"];
          rows := map set_tail_type (rows df) |}.

(** Step 8: [sort_values('confidence', ascending=False)].  [a] goes
    before [b] when it is the larger number; missing values go last.
    The insertion keeps the input order of records that compare equal. *)
Definition sorts_before (a b : option float) : bool :=
  match a, b with
  | Some x, Some y => PrimFloat.ltb y x
  | Some _, None => true
  | None, _ => false
  end.

Fixpoint insert_descending {T} (t : Triplet T) (l : list (Triplet T))
  : list (Triplet T) :=
  match l with
  | [] => [t]
  | u :: l' =>
      if sorts_before (confidence u) (confidence t)
      then u :: insert_descending t l'
      else t :: l
  end.

Definition sort_by_confidence (df : DataFrame string) : DataFrame string :=
  if in_columns "confidence" df
  then {| columns := columns df;
          rows := fold_right insert_descending [] (rows df) |}
  else df.

Definition clean_triplets (cfg : Config) (triplets : list (Triplet (option string)))
  : DataFrame string :=
  match triplets with
  | [] => empty_frame
  | _ :: _ =>
      let df := DataFrame_of triplets in
      if empty df then standardize df
      else
        let df := drop_duplicates df in
        let df := filter_confidence cfg df in
        let df := standardize df in
        let df := filter_valid_relations cfg df in
        let df := filter_self_references df in
        let df := add_head_type df in
        let df := add_tail_type df in
        sort_by_confidence df
  end.

End DataCleaner.

(** ** The graph database

    The store behind the Neo4j driver, for the statements that
    [graph_builder.py] sends.  Nodes and relationships are kept in creation
    order; a node is identified by its position.  Every statement is one
    auto-commit transaction: it advances [clock], and a failing statement
    leaves nodes and relationships as they were.  A statement fails for
    what it contains; a lost connection is outside the model. *)

Module Neo4j.
Import DataCleaner.
Local Open Scope string_scope.

Record Node := {
  n_name : string;
  n_type : option string;
  n_labels : list string
}.

Record Relationship := {
  r_start : nat;
  r_end : nat;
  r_type : string;
  r_confidence : option float;
  r_source : option string;
  r_created : option nat
}.

Record Graph := {
  nodes : list Node;
  relationships : list Relationship;
  constraints : list string;
  indexes : list string;
  clock : nat
}.

Definition empty_graph : Graph :=
  {| nodes := []; relationships := []; constraints := []; indexes := [];
     clock := 0 |}.

Record Exception := { exc_type : string; exc_message : string }.

Definition with_nodes (ns : list Node) (g : Graph) : Graph :=
  {| nodes := ns; relationships := relationships g;
     constraints := constraints g; indexes := indexes g; clock := clock g |}.

Definition with_relationships (rs : list Relationship) (g : Graph) : Graph :=
  {| nodes := nodes g; relationships := rs;
     constraints := constraints g; indexes := indexes g; clock := clock g |}.

(** The transaction clock moves on with every statement received *)
Definition tick (g : Graph) : Graph :=
  {| nodes := nodes g; relationships := relationships g;
     constraints := constraints g; indexes := indexes g;
     clock := S (clock g) |}.

Definition has_label (l : string) (n : Node) : bool :=
  existsb (String.eqb l) (n_labels n).

Fixpoint find_index {A} (p : A -> bool) (l : list A) : option nat :=
  match l with
  | [] => None
  | x :: l' => if p x then Some 0 else option_map S (find_index p l')
  end.

Fixpoint update_at {A} (i : nat) (f : A -> A) (l : list A) : list A :=
  match l, i with
  | [], _ => []
  | x :: l', O => f x :: l'
  | x :: l', S i' => x :: update_at i' f l'
  end.

(** The pattern [(:Entity {name: nm})] *)
Definition is_entity (nm : string) (n : Node) : bool :=
  has_label "Entity" n && String.eqb (n_name n) nm.

Definition find_entity (nm : string) (g : Graph) : option nat :=
  find_index (is_entity nm) (nodes g).

(** [MERGE (v:Entity {name: nm})] for one incoming record: the node bound
    to [v], created when no node matches *)
Definition merge_entity (nm : string) (g : Graph) : nat * Graph :=
  match find_entity nm g with
  | Some i => (i, g)
  | None =>
      (List.length (nodes g),
       with_nodes (nodes g ++ [{| n_name := nm; n_type := None;
                                  n_labels := ["Entity"] |}]) g)
  end.

(** A [MERGE] clause over all incoming records, in order; a record sees
    the nodes created for the records before it *)
Fixpoint merge_entities (names : list string) (g : Graph) : list nat * Graph :=
  match names with
  | [] => ([], g)
  | nm :: rest =>
      let (i, g1) := merge_entity nm g in
      let (ids, g2) := merge_entities rest g1 in
      (i :: ids, g2)
  end.

(** [SET v.type = ty]; setting a null removes the property *)
Definition set_type (ty : option string) (n : Node) : Node :=
  {| n_name := n_name n; n_type := ty; n_labels := n_labels n |}.

Fixpoint set_types (bound : list (nat * option string)) (g : Graph) : Graph :=
  match bound with
  | [] => g
  | (i, ty) :: rest => set_types rest (with_nodes (update_at i (set_type ty) (nodes g)) g)
  end.

(** [CALL apoc.create.addLabels(v, [v.type])] *)
Definition add_type_label (n : Node) : Node :=
  match n_type n with
  | Some ty =>
      if has_label ty n then n
      else {| n_name := n_name n; n_type := n_type n;
              n_labels := n_labels n ++ [ty] |}
  | None => n
  end.

Fixpoint add_type_labels (bound : list nat) (g : Graph) : Graph :=
  match bound with
  | [] => g
  | i :: rest => add_type_labels rest (with_nodes (update_at i add_type_label (nodes g)) g)
  end.

(** The pattern [(h)-[:RELATION {type: rel}]->(t)] for bound [h], [t] *)
Definition is_relation (h t : nat) (rel : string) (r : Relationship) : bool :=
  Nat.eqb (r_start r) h && Nat.eqb (r_end r) t && String.eqb (r_type r) rel.

Definition find_relation (h t : nat) (rel : string) (g : Graph) : option nat :=
  find_index (is_relation h t rel) (relationships g).

(** [MERGE (h)-[r:RELATION {type: rel}]->(t)] for one incoming record *)
Definition merge_relation (h t : nat) (rel : string) (g : Graph) : nat * Graph :=
  match find_relation h t rel g with
  | Some i => (i, g)
  | None =>
      (List.length (relationships g),
       with_relationships
         (relationships g ++ [{| r_start := h; r_end := t; r_type := rel;
                                 r_confidence := None; r_source := None;
                                 r_created := None |}]) g)
  end.

Fixpoint merge_relations (bound : list (nat * nat * string)) (g : Graph)
  : list nat * Graph :=
  match bound with
  | [] => ([], g)
  | (h, t, rel) :: rest =>
      let (i, g1) := merge_relation h t rel g in
      let (ids, g2) := merge_relations rest g1 in
      (i :: ids, g2)
  end.

(** [SET r.confidence = c, r.source = 'extracted', r.created = datetime()] *)
Definition set_properties (c : option float) (now : nat) (r : Relationship)
  : Relationship :=
  {| r_start := r_start r; r_end := r_end r; r_type := r_type r;
     r_confidence := c; r_source := Some "extracted";
     r_created := Some now |}.

Fixpoint set_relation_properties (bound : list (nat * option float)) (g : Graph)
  : Graph :=
  match bound with
  | [] => g
  | (i, c) :: rest =>
      set_relation_properties rest
        (with_relationships
           (update_at i (set_properties c (clock g)) (relationships g)) g)
  end.

(** The import statement of [_import_batch], clause after clause, each
    clause consuming the records bound by the one before it *)
Definition import_clauses (triplets : list (Triplet string)) (g : Graph) : Graph :=
  let (heads, g) := merge_entities (map head triplets) g in
  let g := set_types (combine heads (map head_type triplets)) g in
  let (tails, g) := merge_entities (map tail triplets) g in
  let g := set_types (combine tails (map tail_type triplets)) g in
  let g := add_type_labels heads g in
  let g := add_type_labels tails g in
  let (rels, g) :=
    merge_relations (combine (combine heads tails) (map relation triplets)) g in
  set_relation_properties (combine rels (map confidence triplets)) g.

(** A record whose [head_type] or [tail_type] is a missing value (NaN)
    cannot be labelled: [addLabels] takes text *)
Definition labels_are_text (t : Triplet string) : bool :=
  is_some (head_type t) && is_some (tail_type t).

(** [session.run(query, triplets=...)] for the import statement *)
Definition run_import (triplets : list (Triplet string)) (g : Graph)
  : Exception + Graph :=
  if forallb labels_are_text triplets
  then inr (import_clauses triplets (tick g))
  else inl {| exc_type := "ClientError";
              exc_message := "Type mismatch: expected String" |}.

(** [MATCH (n) DETACH DELETE n] *)
Definition run_clear (g : Graph) : Graph :=
  with_relationships [] (with_nodes [] (tick g)).

Definition add_if_absent (x : string) (l : list string) : list string :=
  if existsb (String.eqb x) l then l else l ++ [x].

(** [CREATE CONSTRAINT IF NOT EXISTS ...] *)
Definition run_create_constraint (c : string) (g : Graph) : Graph :=
  let g := tick g in
  {| nodes := nodes g; relationships := relationships g;
     constraints := add_if_absent c (constraints g);
     indexes := indexes g; clock := clock g |}.

(** [CREATE INDEX IF NOT EXISTS ...] *)
Definition run_create_index (i : string) (g : Graph) : Graph :=
  let g := tick g in
  {| nodes := nodes g; relationships := relationships g;
     constraints := constraints g;
     indexes := add_if_absent i (indexes g); clock := clock g |}.

End Neo4j.

(** ** Effects of the Python code

    A computation runs in a world made of the database and the log, and
    either returns a value or raises an exception. *)

Module Py.
Import Neo4j.
Local Open Scope string_scope.

Inductive LogRecord :=
| INFO (msg : string)
| WARNING (msg : string)
| ERROR (msg : string).

Record World := { db : Graph; log : list LogRecord }.

Inductive Outcome (A : Type) : Type :=
| Returns (a : A)
| Raises (e : Exception).
Arguments Returns {A} _.
Arguments Raises {A} _.

Definition Py (A : Type) : Type := World -> Outcome A * World.

Definition ret {A} (a : A) : Py A := fun w => (Returns a, w).

Definition bind {A B} (m : Py A) (k : A -> Py B) : Py B :=
  fun w =>
    match m w with
    | (Returns a, w') => k a w'
    | (Raises e, w') => (Raises e, w')
    end.

Definition raise {A} (e : Exception) : Py A := fun w => (Raises e, w).

(** [try: body / except Exception as e: handler(e)] *)
Definition try_except {A} (body : Py A) (handler : Exception -> Py A) : Py A :=
  fun w =>
    match body w with
    | (Returns a, w') => (Returns a, w')
    | (Raises e, w') => handler e w'
    end.

Definition emit (r : LogRecord) : Py unit :=
  fun w => (Returns tt, {| db := db w; log := log w ++ [r] |}).

Definition logger_info (msg : string) : Py unit := emit (INFO msg).
Definition logger_warning (msg : string) : Py unit := emit (WARNING msg).
Definition logger_error (msg : string) : Py unit := emit (ERROR msg).

(** A statement that cannot fail *)
Definition session_update (stmt : Graph -> Graph) : Py unit :=
  fun w => (Returns tt, {| db := stmt (db w); log := log w |}).

(** A statement that may fail; the failed transaction only moves the
    clock *)
Definition session_try (stmt : Graph -> Exception + Graph) : Py unit :=
  fun w =>
    match stmt (db w) with
    | inr g => (Returns tt, {| db := g; log := log w |})
    | inl e => (Raises e, {| db := tick (db w); log := log w |})
    end.

(** [for x in xs: body(x)] *)
Fixpoint for_each {A} (xs : list A) (body : A -> Py unit) : Py unit :=
  match xs with
  | [] => ret tt
  | x :: xs' => bind (body x) (fun _ => for_each xs' body)
  end.

(** [str(n)] for a natural number *)
Definition str (n : nat) : string := NilEmpty.string_of_uint (Nat.to_uint n).

End Py.

Declare Scope py_scope.
Delimit Scope py_scope with py.
Notation "x <- m ;; k" := (Py.bind m (fun x => k))
  (at level 61, m at next level, right associativity) : py_scope.
Notation "m ;; k" := (Py.bind m (fun _ => k))
  (at level 61, right associativity) : py_scope.

(** ** [src/graph_builder.py]: the GraphStore *)

Module Neo4jGraphBuilder.
Import DataCleaner Neo4j Py.
Local Open Scope string_scope.
Local Open Scope py_scope.

Definition clear_database : Py unit :=
  logger_info "Clearing existing database..." ;;
  session_update run_clear ;;
  logger_info "Database cleared".

Definition _create_constraints : Py unit :=
  session_update (run_create_constraint "Entity.name IS UNIQUE") ;;
  session_update (run_create_index "Company.name") ;;
  session_update (run_create_index "Person.name") ;;
  session_update (run_create_index "Product.name") ;;
  logger_info "Database constraints and indexes created".

(** The dictionary built for one row of the batch: [row.get] falls back
    on its default when the frame lacks the column, and [float] of a
    missing value is NaN *)
Definition triplet_data (cols : DataFrame string) (row : Triplet string)
  : Triplet string :=
  {| head := head row;
     tail := tail row;
     relation := relation row;
     head_type := if in_columns "head_type" cols then head_type row
                  else Some "ENTITY";
     tail_type := if in_columns "tail_type" cols then tail_type row
                  else Some "ENTITY";
     confidence := if in_columns "confidence" cols
                   then match confidence row with
                        | Some c => Some c
                        | None => Some nan
                        end
                   else Some 0.8%float |}.

Definition _import_batch (batch : DataFrame string) : Py unit :=
  let triplets_data := map (triplet_data batch) (rows batch) in
  try_except
    (session_try (run_import triplets_data))
    (fun e => logger_error ("Error importing batch: " ++ exc_message e)).

(** [range(0, stop, step)] *)
Definition range_step (stop step : nat) : list nat :=
  map (fun k => k * step) (seq 0 ((stop + step - 1) / step)).

(** [df.iloc[i:j]] *)
Definition iloc (i j : nat) (df : DataFrame string) : DataFrame string :=
  {| columns := columns df; rows := firstn (j - i) (skipn i (rows df)) |}.

Definition build_graph (df : DataFrame string) (clear_existing : bool) : Py unit :=
  if empty df then
    logger_warning "Empty DataFrame, nothing to build"
  else
    logger_info ("Building graph from " ++ str (List.length (rows df)) ++ " triplets") ;;
    (if clear_existing then clear_database else ret tt) ;;
    _create_constraints ;;
    let batch_size := 100 in
    let total_batches := List.length (rows df) / batch_size + 1 in
    for_each (range_step (List.length (rows df)) batch_size)
      (fun i =>
         let batch := iloc i (i + batch_size) df in
         _import_batch batch ;;
         let batch_num := i / batch_size + 1 in
         logger_info ("Imported batch " ++ str batch_num ++ "/" ++ str total_batches
                      ++ " (" ++ str (List.length (rows batch)) ++ " triplets)")) ;;
    logger_info "Graph construction complete".

End Neo4jGraphBuilder.

(** ** [src/query_nl.py]: the QueryTranslator *)

Module NaturalLanguageQuery.
Import PyStr Neo4j Py.
Local Open Scope string_scope.
Local Open Scope py_scope.

Inductive Value :=
| Text (s : string)
| Number (x : float)
| Null.

(** One result row, [dict(record)]: field names and values in order *)
Definition Row : Type := list (string * Value).
Definition Params : Type := list (string * Value).

(** What the database does with a statement and its parameters *)
Definition Cypher : Type :=
  string -> Params -> Graph -> Exception + (list Row * Graph).

(** [session.run(query, params)], results read to the end *)
Definition session_run (cypher : Cypher) (query : string) (params : Params)
  : Py (list Row) :=
  fun w =>
    match cypher query params (db w) with
    | inr (result, g) => (Returns result, {| db := g; log := log w |})
    | inl e => (Raises e, w)
    end.

Record Config := { llm_mode : string; llm_api_model : string }.

Definition NL : string := String LF EmptyString.

Definition query_templates : list (string * string) :=
  [ ("company acquisitions",
     NL ++ "                MATCH (c:Company)-[r:ACQUIRED]->(target)"
     ++ NL ++ "                RETURN c.name as acquirer, target.name as acquired_company, "
     ++ NL ++ "                       r.confidence as confidence"
     ++ NL ++ "                ORDER BY r.confidence DESC"
     ++ NL ++ "                LIMIT 10"
     ++ NL ++ "            ");
    ("company investments",
     NL ++ "                MATCH (c:Company)-[r:INVESTED_IN]->(target)"
     ++ NL ++ "                RETURN c.name as investor, target.name as investment, "
     ++ NL ++ "                       r.confidence as confidence"
     ++ NL ++ "                ORDER BY r.confidence DESC"
     ++ NL ++ "                LIMIT 10"
     ++ NL ++ "            ");
    ("person companies",
     NL ++ "                MATCH (p:Person)-[r:CEO_OF]->(c:Company)"
     ++ NL ++ "                RETURN p.name as person, c.name as company, "
     ++ NL ++ "                       r.confidence as confidence"
     ++ NL ++ "                ORDER BY r.confidence DESC"
     ++ NL ++ "                LIMIT 10"
     ++ NL ++ "            ");
    ("product launches",
     NL ++ "                MATCH (c:Company)-[r:LAUNCHED]->(p:Product)"
     ++ NL ++ "                RETURN c.name as company, p.name as product, "
     ++ NL ++ "                       r.confidence as confidence"
     ++ NL ++ "                ORDER BY r.confidence DESC"
     ++ NL ++ "                LIMIT 10"
     ++ NL ++ "            ") ].

(** The rules of [_rule_based_conversion]: the text before and after the
    group [(.+?)] of the pattern, and the query skeleton *)
Definition patterns : list (string * string * string) :=
  [ ("what companies did ", " acquire",
     "MATCH (c:Company {name: $company})-[:ACQUIRED]->(target) RETURN target.name");
    ("who invested in ", EmptyString,
     "MATCH (investor)-[:INVESTED_IN]->(c:Company {name: $company}) RETURN investor.name");
    ("what products did ", " launch",
     "MATCH (c:Company {name: $company})-[:LAUNCHED]->(p:Product) RETURN p.name");
    ("who is the ceo of ", EmptyString,
     "MATCH (p:Person)-[:CEO_OF]->(c:Company {name: $company}) RETURN p.name");
    ("what companies partnered with ", EmptyString,
     "MATCH (c:Company)-[:PARTNERED_WITH]->(target:Company {name: $company}) RETURN c.name") ].

(** The default query *)
Definition default_query : string :=
  NL ++ "            MATCH (n)-[r]->(m)"
  ++ NL ++ "            WHERE n.name CONTAINS $term OR m.name CONTAINS $term"
  ++ NL ++ "            RETURN n.name as source, type(r) as relationship, m.name as target"
  ++ NL ++ "            LIMIT 10"
  ++ NL ++ "        ".

Definition quote (s : string) : string :=
  String SQUOTE EmptyString ++ s ++ String SQUOTE EmptyString.

(** The loop over [patterns]: the query of the first rule that matches *)
Fixpoint first_rule (question_lower : string)
                    (rules : list (string * string * string)) : option string :=
  match rules with
  | [] => None
  | (before, after, template) :: rules' =>
      match Re.search_group before after question_lower with
      | Some group1 =>
          let entity := strip group1 in
          Some (replace "$company" (quote (title entity)) template)
      | None => first_rule question_lower rules'
      end
  end.

Definition _rule_based_conversion (question : string) : option string :=
  let question_lower := lower question in
  match first_rule question_lower patterns with
  | Some query => Some query
  | None => Some default_query
  end.

(** The loop over [query_templates]: the first phrase contained in the
    question, with its query *)
Fixpoint first_template (question_lower : string)
                        (templates : list (string * string))
  : option (string * string) :=
  match templates with
  | [] => None
  | (pattern, template) :: templates' =>
      if contains pattern question_lower then Some (pattern, template)
      else first_template question_lower templates'
  end.

Section Translator.

(** The chat-completion service: the reply to the prompt built from a
    question, or the failure of the call *)
Variable chat : string -> Exception + string.

Definition _llm_to_cypher (question : string) : Py (option string) :=
  try_except
    (match chat question with
     | inr content =>
         let cypher := strip content in
         let cypher :=
           strip (replace "```" EmptyString
                    (replace "```cypher" EmptyString cypher)) in
         logger_info ("LLM generated Cypher: " ++ cypher) ;;
         ret (Some cypher)
     | inl e => raise e
     end)
    (fun e =>
       logger_error ("LLM query conversion failed: " ++ exc_message e) ;;
       ret None).

(** [query_to_cypher] with the two methods it calls on [self] as
    parameters *)
Definition query_to_cypher_with
    (llm_to_cypher : string -> Py (option string))
    (rule_based_conversion : string -> option string)
    (cfg : Config) (question : string) (use_llm : bool)
  : Py (option string) :=
  let question_lower := strip (lower question) in
  match first_template question_lower query_templates with
  | Some (pattern, template) =>
      logger_info ("Using predefined template for: " ++ pattern) ;;
      ret (Some template)
  | None =>
      if use_llm && String.eqb (llm_mode cfg) "api"
      then llm_to_cypher question
      else ret (rule_based_conversion question)
  end.

Definition query_to_cypher : Config -> string -> bool -> Py (option string) :=
  query_to_cypher_with _llm_to_cypher _rule_based_conversion.

Variable cypher : Cypher.

Definition execute_query (cypher_query : string) (params : option Params)
  : Py (list Row) :=
  let params := match params with
                | None => []
                | Some params => params
                end in
  try_except
    (result <- session_run cypher cypher_query params ;;
     let records := result in
     logger_info ("Query executed, returned " ++ str (List.length records)
                  ++ " records") ;;
     ret records)
    (fun e =>
       logger_error ("Query execution failed: " ++ exc_message e) ;;
       ret []).

Definition ask_question (cfg : Config) (question : string) : Py (list Row) :=
  logger_info ("Processing question: " ++ question) ;;
  translated <- query_to_cypher cfg question false ;;
  match translated with
  | None | Some EmptyString =>
      logger_warning "Could not convert question to Cypher" ;;
      ret []
  | Some query =>
      logger_info ("Generated Cypher: " ++ query) ;;
      results <- execute_query query None ;;
      ret results
  end.

End Translator.

(** *** The database's answer to the default query

    [MATCH (n)-[r]->(m) WHERE n.name CONTAINS $term OR m.name CONTAINS
    $term RETURN ... LIMIT 10]: one row per relationship with an end
    point whose name contains the text bound to [$term]; every
    relationship of the graph has the type [RELATION]. *)

Definition lookup (k : string) (params : Params) : option Value :=
  match find (fun kv => String.eqb (fst kv) k) params with
  | Some kv => Some (snd kv)
  | None => None
  end.

Definition contains_search (term : string) (g : Graph) : list Row :=
  firstn 10
    (flat_map
       (fun r =>
          match nth_error (nodes g) (r_start r), nth_error (nodes g) (r_end r) with
          | Some n, Some m =>
              if contains term (n_name n) || contains term (n_name m)
              then [[("source", Text (n_name n));
                     ("relationship", Text "RELATION");
                     ("target", Text (n_name m))]]
              else []
          | _, _ => []
          end)
       (relationships g)).

(** A statement that mentions [$term] needs the parameter [term]; the
    default query is answered as above, any other statement is only
    known to return no row here *)
Definition neo4j : Cypher :=
  fun query params g =>
    if contains "$term" query then
      match lookup "term" params with
      | Some (Text term) =>
          if String.eqb query default_query
          then inr (contains_search term g, tick g)
          else inr ([], tick g)
      | Some _ =>
          inl {| exc_type := "ClientError";
                 exc_message := "Type mismatch: expected String" |}
      | None =>
          inl {| exc_type := "ClientError";
                 exc_message := "Expected parameter(s): term" |}
      end
    else inr ([], tick g).

End NaturalLanguageQuery.

From Stdlib Require Import ZArith Permutation Sorted.

(** ** [src/graph_builder.py]: the statistics of the graph *)

Module GraphStats.
Import Neo4j Py NaturalLanguageQuery.
Local Open Scope string_scope.
Local Open Scope py_scope.

Definition stats_query : string :=
  NL ++ "        MATCH (n)"
  ++ NL ++ "        RETURN "
  ++ NL ++ "            count(DISTINCT n) as total_nodes,"
  ++ NL ++ "            count(DISTINCT labels(n)[0]) as unique_labels"
  ++ NL
  ++ NL ++ "        UNION ALL"
  ++ NL
  ++ NL ++ "        MATCH ()-[r]->()"
  ++ NL ++ "        RETURN "
  ++ NL ++ "            count(DISTINCT r) as total_relationships,"
  ++ NL ++ "            count(DISTINCT type(r)) as unique_relationship_types"
  ++ NL ++ "        ".

(** [stats[key] = value]: a key that is present keeps its place *)
Fixpoint dict_set (key : string) (value : Value) (stats : Row) : Row :=
  match stats with
  | [] => [(key, value)]
  | (k, v) :: rest =>
      if String.eqb k key then (k, value) :: rest
      else (k, v) :: dict_set key value rest
  end.

(** The loop [for key, value in record.items(): stats[key] = value] *)
Definition update (stats : Row) (record : Row) : Row :=
  fold_left (fun stats kv => dict_set (fst kv) (snd kv) stats) record stats.

Section Stats.

Variable cypher : Cypher.

Definition get_graph_stats : Py Row :=
  result <- session_run cypher stats_query [] ;;
  let stats := fold_left update result [] in
  ret stats.

End Stats.

End GraphStats.

(** ** [src/preprocess.py]: the text before extraction *)

Module TextPreprocessor.
Import PyStr Neo4j Py.
Local Open Scope string_scope.
Local Open Scope py_scope.

Record Config := {
  max_sentences : Z;
  batch_size : Z
}.

(** A character other than whitespace stands at place [n] of [s] *)
Definition nonspace_at (n : nat) (s : string) : bool :=
  match drop n s with
  | String c _ => negb (is_space c)
  | EmptyString => false
  end.

(** [http\S+|www\S+|https\S+] matches at the start of [s]; the third
    alternative begins like the first, which is tried before it *)
Definition url_start (s : string) : bool :=
  (startswith "http" s && nonspace_at 4 s)
  || (startswith "www" s && nonspace_at 3 s).

(** [re.sub(r'http\S+|www\S+|https\S+', '', text)]: a match runs to the
    next whitespace; [in_url] tells that the text begins inside one *)
Fixpoint remove_urls (in_url : bool) (s : string) : string :=
  match s with
  | EmptyString => EmptyString
  | String c r =>
      if in_url
      then if is_space c then String c (remove_urls false r)
           else remove_urls true r
      else if url_start s then remove_urls true r
           else String c (remove_urls false r)
  end.

(** The class [[\w\s.,!?-]] *)
Definition is_kept (c : ascii) : bool :=
  is_word c || is_space c
  || existsb (Ascii.eqb c) ["."; ","; "!"; "?"; "-"]%char.

(** [re.sub(r'[^\w\s.,!?-]', ' ', text)] *)
Definition blank_special : string -> string :=
  smap (fun c => if is_kept c then c else SPACE).

Definition _clean_text (text : string) : string :=
  let text := remove_urls false text in
  let text := blank_special text in
  let text := DataCleaner.collapse_whitespace false text in
  let text := strip text in
  text.

(** [l[:n]] *)
Definition slice_to {A} (n : Z) (l : list A) : list A :=
  if (n <? 0)%Z then firstn (List.length l - Z.to_nat (- n)) l
  else firstn (Z.to_nat n) l.

Section Tokenizer.

(** The sentence tokenizer of NLTK, which may fail, and the reading of a
    file *)
Variable sent_tokenize : string -> Exception + list string.
Variable read_file : string -> Exception + string.

Definition preprocess_text (cfg : Config) (text : string) : Py (list string) :=
  let text := _clean_text text in
  match sent_tokenize text with
  | inl e => raise e
  | inr sentences =>
      let sentences :=
        map strip (filter (fun s => (20 <? String.length (strip s))%nat) sentences) in
      let sentences := slice_to (max_sentences cfg) sentences in
      logger_info ("Preprocessed text into " ++ str (List.length sentences)
                   ++ " sentences") ;;
      ret sentences
  end.

Definition preprocess_file (cfg : Config) (file_path : string)
  : Py (list string) :=
  try_except
    (match read_file file_path with
     | inl e => raise e
     | inr text =>
         logger_info ("Loaded text from " ++ file_path ++ ", length: "
                      ++ str (String.length text) ++ " chars") ;;
         preprocess_text cfg text
     end)
    (fun e =>
       logger_error ("Error reading file " ++ file_path ++ ": " ++ exc_message e) ;;
       ret []).

End Tokenizer.

(** [batch_sentences]: [range] refuses a step of zero, and is empty for a
    negative step *)
Definition batch_sentences (cfg : Config) (sentences : list string)
                           (size : option Z)
  : Exception + list (list string) :=
  let size := match size with
              | None => batch_size cfg
              | Some size => size
              end in
  if (size =? 0)%Z then
    inl {| exc_type := "ValueError";
           exc_message := "range() arg 3 must not be zero" |}
  else if (size <? 0)%Z then inr []
  else
    inr (map (fun i => firstn (Z.to_nat size) (skipn i sentences))
             (Neo4jGraphBuilder.range_step (List.length sentences) (Z.to_nat size))).

End TextPreprocessor.

(** * Specifications

    Predicates that say, without running the code, what a text looks
    like; the properties below relate the code to them. *)

Module Spec.
Import PyStr DataCleaner.
Local Open Scope string_scope.

(** [sub] occurs in [s] *)
Definition Substring (sub s : string) : Prop :=
  exists before after, s = before ++ sub ++ after.

Fixpoint sforall (p : ascii -> bool) (s : string) : bool :=
  match s with
  | EmptyString => true
  | String c r => p c && sforall p r
  end.

(** [s] does not begin with a character of the class [p] *)
Definition stops (p : ascii -> bool) (s : string) : Prop :=
  match s with
  | EmptyString => True
  | String c _ => p c = false
  end.

(** A company name: one of the suffix tokens occurs in it *)
Definition CompanyName (e : string) : Prop :=
  exists token, In token company_patterns /\ Substring token e.

(** A capitalized word: an upper-case letter, then one or more lower-case
    letters *)
Definition CapitalizedWord (w : string) : Prop :=
  exists c rest,
    w = String c rest /\ is_upper c = true
    /\ rest <> EmptyString /\ sforall is_lower rest = true.

(** A person name: two capitalized words with one space between them
    (a final line feed is tolerated by [$]) *)
Definition PersonName (e : string) : Prop :=
  exists w1 w2 final,
    CapitalizedWord w1 /\ CapitalizedWord w2
    /\ (final = EmptyString \/ final = String LF EmptyString)
    /\ e = w1 ++ String SPACE (w2 ++ final).

(** Four decimal digits in a row occur in [e] *)
Definition FourDigits (e : string) : Prop :=
  exists before a b c d after,
    e = before ++ String a (String b (String c (String d after)))
    /\ is_digit a = true /\ is_digit b = true
    /\ is_digit c = true /\ is_digit d = true.

(** A dollar sign followed by a digit occurs in [e] *)
Definition DollarAmount (e : string) : Prop :=
  exists before d after,
    e = before ++ String (ascii_of_nat 36) (String d after)
    /\ is_digit d = true.

(** A digit, any whitespace, then million, billion or trillion in any
    letter case occurs in [e] *)
Definition ScaledAmount (e : string) : Prop :=
  exists before d spaces word after rest,
    e = before ++ String d (spaces ++ after)
    /\ is_digit d = true /\ sforall is_space spaces = true
    /\ In word Re.scale_words /\ lower after = word ++ rest.

(** A currency text: a dollar amount, a scaled amount, or one of the codes
    USD and EUR in any letter case *)
Definition CurrencyText (e : string) : Prop :=
  DollarAmount e \/ ScaledAmount e
  \/ Substring "usd" (lower e) \/ Substring "eur" (lower e).

(** The identity of an extracted record under [drop_duplicates] *)
Definition key (t : Triplet (option string))
  : option string * option string * option string :=
  (head t, relation t, tail t).

(** [t] stands in [batch] at a place before which no record has its key *)
Definition FirstOccurrence (batch : list (Triplet (option string)))
                           (t : Triplet (option string)) : Prop :=
  exists before after,
    batch = (before ++ t :: after)%list
    /\ forall u, In u before -> key u <> key t.

(** [r] is the cleaned form of the extracted record [t] *)
Definition CleanedFrom (t : Triplet (option string)) (r : Triplet string) : Prop :=
  head r = _clean_entity_name (head t)
  /\ relation r = _standardize_relation (relation t)
  /\ tail r = _clean_entity_name (tail t)
  /\ confidence r = confidence t.

(** Two cleaned records agree on the cells other than the types, which
    step 7 may fill in *)
Definition same_facts (r r' : Triplet string) : Prop :=
  head r = head r' /\ relation r = relation r'
  /\ tail r = tail r' /\ confidence r = confidence r'.

End Spec.

(** * The graph seen through its identities

    What merge-by-identity looks at: the names of the nodes, and for each
    relationship its end points and its [type] property.  A [MERGE] over
    the incoming records is, on these lists, find-or-append. *)

Module Shape.
Import DataCleaner Neo4j.

Section Merge.

Context {K : Type}.
Variable eqb : K -> K -> bool.

Definition index_of (x : K) (l : list K) : option nat :=
  find_index (fun y => eqb y x) l.

Definition merge_one (x : K) (l : list K) : nat * list K :=
  match index_of x l with
  | Some i => (i, l)
  | None => (List.length l, l ++ [x])
  end.

Fixpoint merge_all (xs : list K) (l : list K) : list nat * list K :=
  match xs with
  | [] => ([], l)
  | x :: rest =>
      let (i, l1) := merge_one x l in
      let (ids, l2) := merge_all rest l1 in
      (i :: ids, l2)
  end.

End Merge.

Definition rel_key (r : Relationship) : nat * nat * string :=
  (r_start r, r_end r, r_type r).

Definition key_eqb (a b : nat * nat * string) : bool :=
  Nat.eqb (fst (fst a)) (fst (fst b))
  && Nat.eqb (snd (fst a)) (snd (fst b))
  && String.eqb (snd a) (snd b).

Definition names (g : Graph) : list string := map n_name (nodes g).
Definition rel_keys (g : Graph) : list (nat * nat * string) :=
  map rel_key (relationships g).

Definition shape (g : Graph) : list string * list (nat * nat * string) :=
  (names g, rel_keys g).

(** Every node carries the label [Entity] *)
Definition AllEntities (g : Graph) : Prop :=
  Forall (fun n => has_label "Entity" n = true) (nodes g).

(** The import statement on the identities *)
Definition import_shape (triplets : list (Triplet string))
                        (s : list string * list (nat * nat * string))
  : list string * list (nat * nat * string) :=
  let (heads, names1) := merge_all String.eqb (map head triplets) (fst s) in
  let (tails, names2) := merge_all String.eqb (map tail triplets) names1 in
  let (_, keys1) :=
    merge_all key_eqb (combine (combine heads tails) (map relation triplets))
              (snd s) in
  (names2, keys1).

(** A batch the store rejects leaves the identities alone *)
Definition import_step (s : list string * list (nat * nat * string))
                       (triplets : list (Triplet string))
  : list string * list (nat * nat * string) :=
  if forallb labels_are_text triplets then import_shape triplets s else s.

(** The record [t] is in the graph: both end points and the relationship *)
Definition covers (s : list string * list (nat * nat * string))
                  (t : Triplet string) : Prop :=
  exists h tl,
    index_of String.eqb (head t) (fst s) = Some h
    /\ index_of String.eqb (tail t) (fst s) = Some tl
    /\ index_of key_eqb (h, tl, relation t) (snd s) <> None.

(** The payloads [build_graph] sends, batch after batch *)
Definition payloads (df : DataFrame string) : list (list (Triplet string)) :=
  map (fun i =>
         let batch := Neo4jGraphBuilder.iloc i (i + 100) df in
         map (Neo4jGraphBuilder.triplet_data batch) (rows batch))
      (Neo4jGraphBuilder.range_step (List.length (rows df)) 100).

(** The computation [m] returns, and acts on the database as [f] *)
Definition runs (m : Py.Py unit) (f : Graph -> Graph) : Prop :=
  forall w, fst (m w) = Py.Returns tt /\ Py.db (snd (m w)) = f (Py.db w).

(** What [_import_batch] does to the database *)
Definition import_batch_db (triplets : list (Triplet string)) (g : Graph) : Graph :=
  match run_import triplets g with
  | inr g' => g'
  | inl _ => tick g
  end.

(** What [_create_constraints] does to the database *)
Definition create_constraints_db (g : Graph) : Graph :=
  run_create_index "Product.name"
    (run_create_index "Person.name"
       (run_create_index "Company.name"
          (run_create_constraint "Entity.name IS UNIQUE" g))).

(** What [build_graph] does to the database *)
Definition build_db (df : DataFrame string) (clear_existing : bool) (g : Graph)
  : Graph :=
  if empty df then g
  else fold_left (fun g payload => import_batch_db payload g) (payloads df)
         (create_constraints_db (if clear_existing then run_clear g else g)).

End Shape.

(** * Keyed stores

    Nodes and relationships are both kept as a list of items found by a
    key: the import statement merges keys (find, or append a fresh item)
    and updates the item of a key.  A program of such instructions can be
    read key by key. *)

Module Keyed.
Import Neo4j.

Section Store.

Context {A K Op : Type}.
Variable key : A -> K.
Variable eqb : K -> K -> bool.
Variable fresh : K -> A.
Variable interp : Op -> A -> A.

Inductive Instr : Type :=
| Merge (k : K)
| Update (k : K) (op : Op).

Definition position (k : K) (l : list A) : option nat :=
  find_index (fun a => eqb (key a) k) l.

Definition step (l : list A) (i : Instr) : list A :=
  match i with
  | Merge k =>
      match position k l with
      | Some _ => l
      | None => l ++ [fresh k]
      end
  | Update k op =>
      match position k l with
      | Some j => update_at j (interp op) l
      | None => l
      end
  end.

Definition run (prog : list Instr) (l : list A) : list A :=
  fold_left step prog l.

(** The item of key [k] *)
Definition item (k : K) (l : list A) : option A :=
  find (fun a => eqb (key a) k) l.

(** What an instruction does to the item of key [y] *)
Definition effect (y : K) (a : option A) (i : Instr) : option A :=
  match i with
  | Merge k =>
      if eqb k y
      then match a with
           | Some _ => a
           | None => Some (fresh y)
           end
      else a
  | Update k op => if eqb k y then option_map (interp op) a else a
  end.

Definition effects (y : K) (prog : list Instr) (a : option A) : option A :=
  fold_left (effect y) prog a.

(** The operations a program applies to the item of key [y], in order *)
Definition ops_of (y : K) (prog : list Instr) : list Op :=
  flat_map (fun i => match i with
                     | Update k op => if eqb k y then [op] else []
                     | Merge _ => []
                     end) prog.

Definition run_ops (ops : list Op) (a : A) : A :=
  fold_left (fun a op => interp op a) ops a.

(** The instruction concerns the key [y] *)
Definition touches_key (y : K) (i : Instr) : bool :=
  match i with
  | Merge k => eqb k y
  | Update k _ => eqb k y
  end.

Definition touches (y : K) (prog : list Instr) : bool :=
  existsb (touches_key y) prog.

(** The first instruction of the program that concerns [y], if any, is a
    merge *)
Fixpoint merge_first (y : K) (prog : list Instr) : bool :=
  match prog with
  | [] => true
  | Merge k :: rest => if eqb k y then true else merge_first y rest
  | Update k _ :: rest => if eqb k y then false else merge_first y rest
  end.

Definition or_fresh (y : K) (a : option A) : A :=
  match a with
  | Some x => x
  | None => fresh y
  end.

End Store.

End Keyed.

(** * The import statement as programs on keyed stores *)

Module Programs.
Import DataCleaner Neo4j Shape Keyed.
Local Open Scope string_scope.

Inductive NodeOp : Type :=
| SetType (ty : option string)
| AddTypeLabel.

Definition node_interp (op : NodeOp) : Node -> Node :=
  match op with
  | SetType ty => set_type ty
  | AddTypeLabel => add_type_label
  end.

Definition fresh_node (nm : string) : Node :=
  {| n_name := nm; n_type := None; n_labels := ["Entity"] |}.

Definition run_nodes : list (@Instr string NodeOp) -> list Node -> list Node :=
  run n_name String.eqb fresh_node node_interp.

(** The node clauses of the import statement, for one payload *)
Definition node_prog (p : list (Triplet string)) : list (@Instr string NodeOp) :=
  (map (fun t => Merge (head t)) p
   ++ map (fun t => Update (head t) (SetType (head_type t))) p
   ++ map (fun t => Merge (tail t)) p
   ++ map (fun t => Update (tail t) (SetType (tail_type t))) p
   ++ map (fun t => Update (head t) AddTypeLabel) p
   ++ map (fun t => Update (tail t) AddTypeLabel) p)%list.

Definition node_progs (batches : list (list (Triplet string)))
  : list (@Instr string NodeOp) :=
  flat_map (fun p => if forallb labels_are_text p then node_prog p else [])
           batches.

(** The operations on a node begin with a [SetType], if there are any *)
Definition set_first (ops : list NodeOp) : bool :=
  match ops with
  | [] => true
  | SetType _ :: _ => true
  | AddTypeLabel :: _ => false
  end.

(** The type of a node after the operations, from its current type *)
Fixpoint final_type (cur : option string) (ops : list NodeOp) : option string :=
  match ops with
  | [] => cur
  | SetType ty :: rest => final_type ty rest
  | AddTypeLabel :: rest => final_type cur rest
  end.

Definition label_of (cur : option string) : list string :=
  match cur with
  | Some ty => [ty]
  | None => []
  end.

(** The labels the operations ask for, in order *)
Fixpoint added (cur : option string) (ops : list NodeOp) : list string :=
  match ops with
  | [] => []
  | SetType ty :: rest => added ty rest
  | AddTypeLabel :: rest => (label_of cur ++ added cur rest)%list
  end.

Definition add_all (ls : list string) (labels : list string) : list string :=
  fold_left (fun labels l => add_if_absent l labels) ls labels.

(** A relationship operation: the confidence to store and the time of the
    transaction *)
Definition RelOp : Type := (option float * nat)%type.

Definition rel_interp (op : RelOp) : Relationship -> Relationship :=
  set_properties (fst op) (snd op).

Definition fresh_rel (k : nat * nat * string) : Relationship :=
  {| r_start := fst (fst k); r_end := snd (fst k); r_type := snd k;
     r_confidence := None; r_source := None; r_created := None |}.

Definition run_rels
  : list (@Instr (nat * nat * string) RelOp) -> list Relationship
    -> list Relationship :=
  run rel_key key_eqb fresh_rel rel_interp.

(** The position of a name in the list of node names [N] *)
Definition ix (N : list string) (x : string) : nat :=
  match index_of String.eqb x N with
  | Some i => i
  | None => 0
  end.

Definition key_in (N : list string) (t : Triplet string) : nat * nat * string :=
  (ix N (head t), ix N (tail t), relation t).

(** The relationship clauses of the import statement, for one payload *)
Definition rel_prog (N : list string) (now : nat) (p : list (Triplet string))
  : list (@Instr (nat * nat * string) RelOp) :=
  (map (fun t => Merge (key_in N t)) p
   ++ map (fun t => Update (key_in N t) (confidence t, now)) p)%list.

Fixpoint rel_progs (N : list string) (batches : list (list (Triplet string)))
                   (g : Graph) : list (@Instr (nat * nat * string) RelOp) :=
  match batches with
  | [] => []
  | p :: rest =>
      ((if forallb labels_are_text p then rel_prog N (S (clock g)) p else [])
       ++ rel_progs N rest (import_batch_db p g))%list
  end.

(** A relationship without its creation time *)
Definition rel_facts (r : Relationship)
  : nat * nat * string * option float * option string :=
  (rel_key r, r_confidence r, r_source r).

(** The names of [l] keep their positions in [l'] *)
Definition stable_into (l l' : list string) : Prop :=
  forall x i, index_of String.eqb x l = Some i ->
              index_of String.eqb x l' = Some i.

End Programs.

(** * Sample data *)

Module Samples.
Import DataCleaner.
Local Open Scope string_scope.

(** The configuration of the test block of [clean.py] *)
Definition config : Config :=
  {| confidence_threshold := 0.7%float;
     relation_types := ["ACQUIRED"; "INVESTED_IN"; "LAUNCHED"; "PARTNERED_WITH"] |}.

(** An extracted record without type keys *)
Definition extracted (h r t : string) (c : option float)
  : Triplet (option string) :=
  {| head := Some h; relation := Some r; tail := Some t;
     confidence := c; head_type := None; tail_type := None |}.

Definition apple_darwin (c : option float) : Triplet (option string) :=
  extracted "Apple" "acquired" "DarwinAI" c.

Definition microsoft_openai (c : option float) : Triplet (option string) :=
  extracted "Microsoft" "invested in" "OpenAI" c.

(** The configuration of the test block of [query_nl.py] *)
Definition query_config : NaturalLanguageQuery.Config :=
  {| NaturalLanguageQuery.llm_mode := "local";
     NaturalLanguageQuery.llm_api_model := EmptyString |}.

(** A chat service that cannot be reached *)
Definition no_chat (question : string) : Neo4j.Exception + string :=
  inl {| Neo4j.exc_type := "APIConnectionError";
         Neo4j.exc_message := "Connection error." |}.

(** A store holding the one fact Apple -[ACQUIRED]-> DarwinAI *)
Definition apple_graph : Neo4j.Graph :=
  Py.db (snd (Neo4jGraphBuilder.build_graph
                (clean_triplets config [apple_darwin (Some 0.9%float)])
                false
                {| Py.db := Neo4j.empty_graph; Py.log := [] |})).

End Samples.

(** * The order of the floating-point numbers

    A number (not NaN) is placed by its class, then its exponent, then its
    mantissa; comparing two numbers is comparing their places. *)

Module FloatOrder.

Definition number (f : spec_float) : Prop := f <> S754_nan.

Definition rank (f : spec_float) : Z * Z * Z :=
  match f with
  | S754_nan => (0, 0, 0)%Z
  | S754_zero _ => (0, 0, 0)%Z
  | S754_infinity true => (-2, 0, 0)%Z
  | S754_infinity false => (2, 0, 0)%Z
  | S754_finite true m e => (-1, - e, - Z.pos m)%Z
  | S754_finite false m e => (1, e, Z.pos m)%Z
  end.

Definition lex_le (a b : Z * Z * Z) : Prop :=
  (fst (fst a) < fst (fst b)
   \/ (fst (fst a) = fst (fst b)
       /\ (snd (fst a) < snd (fst b)
           \/ (snd (fst a) = snd (fst b) /\ snd a <= snd b))))%Z.

End FloatOrder.

(** * The Normalizer's output, record by record *)

Module Output.
Import PyStr DataCleaner Spec.
Local Open Scope string_scope.

(** Some record of the batch carries the key: the column exists *)
Definition has_confidence (batch : list (Triplet (option string))) : bool :=
  existsb (fun t => is_some (confidence t)) batch.
Definition has_head_type (batch : list (Triplet (option string))) : bool :=
  existsb (fun t => is_some (head_type t)) batch.
Definition has_tail_type (batch : list (Triplet (option string))) : bool :=
  existsb (fun t => is_some (tail_type t)) batch.

(** The output record made from the extracted record [t] of [batch]:
    names cleaned, relation standardized, and the types inferred from the
    cleaned names when the batch has no column for them *)
Definition cleaned (batch : list (Triplet (option string)))
                   (t : Triplet (option string)) : Triplet string :=
  {| head := _clean_entity_name (head t);
     relation := _standardize_relation (relation t);
     tail := _clean_entity_name (tail t);
     confidence := confidence t;
     head_type := if has_head_type batch then head_type t
                  else Some (_infer_entity_type (Some (_clean_entity_name (head t))));
     tail_type := if has_tail_type batch then tail_type t
                  else Some (_infer_entity_type (Some (_clean_entity_name (tail t)))) |}.

(** The record [t] passes steps 2, 5 and 6 *)
Definition passes (cfg : Config) (batch : list (Triplet (option string)))
                  (t : Triplet (option string)) : bool :=
  (negb (has_confidence batch)
   || confidence_ge (confidence_threshold cfg) (confidence t))
  && existsb (String.eqb (_standardize_relation (relation t))) (relation_types cfg)
  && negb (String.eqb (_clean_entity_name (head t)) (_clean_entity_name (tail t))).

(** The records of the output, in the order of the batch: the first
    record of every key that passes, in its output form *)
Definition survivors (cfg : Config) (batch : list (Triplet (option string)))
  : list (Triplet string) :=
  map (cleaned batch) (filter (passes cfg batch) (drop_duplicates_from [] batch)).

(** The identity of a cleaned record *)
Definition triple (r : Triplet string) : string * string * string :=
  (head r, relation r, tail r).

(** [a] stands before [b] in a table sorted by falling confidence: both
    carry a number, and that of [b] is at most that of [a] *)
Definition not_below (a b : Triplet string) : Prop :=
  exists x y, confidence a = Some x /\ confidence b = Some y
              /\ PrimFloat.leb y x = true.

(** The record carries a confidence that is a number *)
Definition numeric (r : Triplet string) : Prop :=
  exists x, confidence r = Some x /\ FloatOrder.number (Prim2SF x).

(** Every whitespace character of the text is a space that does not
    follow another whitespace character; [after_space] tells whether the
    character before the text is one *)
Fixpoint single_spaced (after_space : bool) (s : string) : bool :=
  match s with
  | EmptyString => true
  | String c r =>
      if is_space c
      then Ascii.eqb c SPACE && negb after_space && single_spaced true r
      else single_spaced false r
  end.

(** The steps of [_clean_entity_name] before the letter case is looked
    at: outer whitespace off, runs of whitespace to one space, outer
    quotes off *)
Definition trimmed (entity : string) : string :=
  strip_by is_quote (collapse_whitespace false (strip entity)).

(** The text is not written in mixed case: it has no upper-case letter, or
    no lower-case letter *)
Definition one_case (s : string) : bool :=
  negb (sexists is_upper s && sexists is_lower s).

(** The text is written in ASCII characters.  On such a text the letter
    cases, the whitespace and the digits of [PyStr] are those of Python's
    [str] methods *)
Definition is_ascii (c : ascii) : bool := (code c <? 128)%nat.
Definition ascii_text (s : string) : bool := sforall is_ascii s.

(** A cell that is missing, or holds a text written in ASCII characters *)
Definition ascii_cell (cell : option string) : bool :=
  match cell with
  | Some s => ascii_text s
  | None => true
  end.

(** The sample batch of the test block of [clean.py] *)
Definition test_triplets : list (Triplet (option string)) :=
  [ Samples.extracted "Apple" "acquired" "DarwinAI" (Some 0.95%float);
    Samples.extracted "Apple" "bought" "DarwinAI" (Some 0.85%float);
    Samples.extracted "apple" "ACQUIRED" "darwinai" (Some 0.6%float) ].

End Output.

(** * What the graph holds *)

Module GraphSpec.
Import DataCleaner Neo4j Shape.
Local Open Scope string_scope.





(** The graph [g'] has everything [g] has: every node of [g] is at its
    place in [g'] with its name and at least its labels, and every
    relationship of [g] is at its place with its end points and type *)
Definition grows (g g' : Graph) : Prop :=
  (forall i n, nth_error (nodes g) i = Some n ->
     exists n', nth_error (nodes g') i = Some n'
                /\ n_name n' = n_name n
                /\ incl (n_labels n) (n_labels n'))
  /\ (forall j r, nth_error (relationships g) j = Some r ->
        exists r', nth_error (relationships g') j = Some r'
                   /\ rel_key r' = rel_key r).

(** No two nodes share a name, no two relationships share end points and
    type, and every node is an [Entity] *)
Definition unique (g : Graph) : Prop :=
  AllEntities g /\ NoDup (names g) /\ NoDup (rel_keys g).

End GraphSpec.

(** * Statistics and text *)

Module TextSpec.
Import PyStr NaturalLanguageQuery TextPreprocessor.
Local Open Scope string_scope.

(** The value bound to [key] by the last pair of [pairs] that has the
    key, [previous] when there is none *)
Definition bound_last (key : string) (pairs : Row) (previous : option Value)
  : option Value :=
  fold_left (fun found kv => if String.eqb (fst kv) key then Some (snd kv) else found)
            pairs previous.

(** No web address begins anywhere in the text *)
Fixpoint url_free (s : string) : bool :=
  negb (url_start s)
  && match s with
     | EmptyString => true
     | String _ r => url_free r
     end.

(** A character of a cleaned text: a word character, one of [.,!?-], or
    a space *)
Definition is_clean (c : ascii) : bool :=
  (is_kept c && negb (is_space c)) || Ascii.eqb c SPACE.

End TextSpec.

(** * Properties *)

(** ** GraphStore: an empty table *)

Module BuildEmpty.
Import DataCleaner Neo4j Py Neo4jGraphBuilder.
Local Open Scope string_scope.

(** C10: when the canonical table is empty, [build_graph] only logs a
    warning and returns: whatever the [clear_existing] flag, the database
    (nodes, relationships, constraints, indexes and the transaction clock)
    is the one it started from, so no statement was sent to the store. *)
Theorem build_graph_empty_table :
  forall (df : DataFrame string) (clear_existing : bool) (w : World),
    empty df = true ->
    build_graph df clear_existing w
    = (Returns tt,
       {| db := db w;
          log := log w ++ [WARNING "Empty DataFrame, nothing to build"] |})
    /\ db (snd (build_graph df clear_existing w)) = db w.
Proof.
  intros df clear_existing w Hempty.
  unfold build_graph. rewrite Hempty.
  split; reflexivity.
Qed.

Lemma build_graph_empty_table_witness :
  empty (@empty_frame string) = true
  /\ db (snd (build_graph empty_frame true
                {| db := run_create_index "Company.name" empty_graph;
                   log := [] |}))
     = run_create_index "Company.name" empty_graph.
Proof.
  split; [reflexivity |].
  apply (build_graph_empty_table empty_frame true
           {| db := run_create_index "Company.name" empty_graph; log := [] |}).
  reflexivity.
Defined.

End BuildEmpty.

(** ** Text: containment *)

Module PyStrFacts.
Import PyStr Spec.
Local Open Scope string_scope.


Lemma startswith_app : forall p r, startswith p (p ++ r) = true.
Proof.
  induction p as [|a p IH]; intros r; simpl.
  - reflexivity.
  - rewrite Ascii.eqb_refl. apply IH.
Qed.

Lemma startswith_inv :
  forall p s, startswith p s = true -> exists r, s = p ++ r.
Proof.
  induction p as [|a p IH]; intros s H.
  - exists s. reflexivity.
  - destruct s as [|b s]; simpl in H; [discriminate |].
    apply andb_true_iff in H. destruct H as [Hab Hrest].
    apply Ascii.eqb_eq in Hab. subst b.
    destruct (IH s Hrest) as [r ->].
    exists r. reflexivity.
Qed.

Lemma contains_unfold :
  forall needle hay,
    contains needle hay
    = startswith needle hay
      || match hay with
         | EmptyString => false
         | String _ r => contains needle r
         end.
Proof. intros needle [|c r]; reflexivity. Qed.

Lemma contains_Substring :
  forall needle hay, contains needle hay = true <-> Substring needle hay.
Proof.
  intros needle hay. split.
  - induction hay as [|c hay IH]; intros H; rewrite contains_unfold in H;
      apply orb_true_iff in H; destruct H as [H | H].
    + apply startswith_inv in H. destruct H as [r Hr].
      exists EmptyString, r. exact Hr.
    + discriminate.
    + apply startswith_inv in H. destruct H as [r Hr].
      exists EmptyString, r. exact Hr.
    + destruct (IH H) as (before & after & ->).
      exists (String c before), after. reflexivity.
  - intros (before & after & ->).
    induction before as [|c before IH]; rewrite contains_unfold.
    + simpl. rewrite startswith_app. reflexivity.
    + simpl. rewrite IH. apply orb_true_r.
Qed.

Lemma contains_false_iff :
  forall needle hay, contains needle hay = false <-> ~ Substring needle hay.
Proof.
  intros needle hay. rewrite <- contains_Substring.
  destruct (contains needle hay); split; intros H;
    try reflexivity; try discriminate; try (intros H'; discriminate).
  exfalso. apply H. reflexivity.
Qed.

End PyStrFacts.

(** ** Normalizer: relation standardization *)

Module RelationFacts.
Import PyStr Spec PyStrFacts DataCleaner.
Local Open Scope string_scope.

Lemma dict_get_In :
  forall k v d, dict_get k d = Some v -> In (k, v) d.
Proof.
  induction d as [|[k' v'] d IH]; simpl; intros H; [discriminate |].
  destruct (String.eqb k k') eqn:E.
  - apply String.eqb_eq in E. inversion H. subst. left. reflexivity.
  - right. apply IH. exact H.
Qed.

Lemma dict_get_None :
  forall k d, (forall v, ~ In (k, v) d) -> dict_get k d = None.
Proof.
  intros k d H. destruct (dict_get k d) as [v|] eqn:E; [| reflexivity].
  exfalso. exact (H v (dict_get_In _ _ _ E)).
Qed.

Lemma first_contained_at :
  forall s before key value after,
    (forall k v, In (k, v) before -> ~ Substring k s) ->
    Substring key s ->
    first_contained s (before ++ (key, value) :: after)%list = Some value.
Proof.
  induction before as [|[k v] before IH]; intros key value after Hnot Hin; simpl.
  - apply contains_Substring in Hin. rewrite Hin. reflexivity.
  - assert (Hk : contains k s = false).
    { apply contains_false_iff. apply (Hnot k v). left. reflexivity. }
    rewrite Hk. apply IH; [| exact Hin].
    intros k' v' H'. apply (Hnot k' v'). right. exact H'.
Qed.

Lemma first_contained_None :
  forall s d,
    (forall k v, In (k, v) d -> ~ Substring k s) ->
    first_contained s d = None.
Proof.
  induction d as [|[k v] d IH]; intros Hnot; simpl; [reflexivity |].
  assert (Hk : contains k s = false).
  { apply contains_false_iff. apply (Hnot k v). left. reflexivity. }
  rewrite Hk. apply IH. intros k' v' H'. apply (Hnot k' v'). right. exact H'.
Qed.

(** The keys of the synonym dictionary are pairwise distinct, so a key
    belongs to one entry only *)
Lemma relation_standardization_exact :
  forall k v, In (k, v) relation_standardization ->
    dict_get k relation_standardization = Some v.
Proof.
  intros k v H. unfold relation_standardization in H. simpl in H.
  repeat (destruct H as [H | H]; [inversion H; subst; reflexivity |]).
  contradiction.
Qed.

(** C4: [_standardize_relation] works on the trimmed, lower-cased text
    [s].  (1) When [s] is a key of the synonym dictionary the result is the
    canonical name of that key.  (2) Otherwise, when a key occurs in [s] and
    no key listed before it does, the result is that key's canonical name.
    (3) When no key occurs in [s] the result is [s] in upper case.
    (4) "acquired", "bought" and "ACQUISITION" all give "ACQUIRED". *)
Theorem standardize_relation_spec :
  (forall relation canonical,
      In (lower (strip relation), canonical) relation_standardization ->
      _standardize_relation (Some relation) = canonical)
  /\ (forall relation before key canonical after,
         (forall v, ~ In (lower (strip relation), v) relation_standardization) ->
         relation_standardization = (before ++ (key, canonical) :: after)%list ->
         Substring key (lower (strip relation)) ->
         (forall k v, In (k, v) before -> ~ Substring k (lower (strip relation))) ->
         _standardize_relation (Some relation) = canonical)
  /\ (forall relation,
         (forall k v, In (k, v) relation_standardization ->
                      ~ Substring k (lower (strip relation))) ->
         _standardize_relation (Some relation) = upper (lower (strip relation)))
  /\ _standardize_relation (Some "acquired") = "ACQUIRED"
  /\ _standardize_relation (Some "bought") = "ACQUIRED"
  /\ _standardize_relation (Some "ACQUISITION") = "ACQUIRED".
Proof.
  split; [| split; [| split; [| repeat split; reflexivity]]].
  - intros relation canonical Hin.
    unfold _standardize_relation.
    rewrite (relation_standardization_exact _ _ Hin). reflexivity.
  - intros relation before key canonical after Hnone Hsplit Hsub Hfirst.
    unfold _standardize_relation.
    rewrite (dict_get_None _ _ Hnone).
    rewrite Hsplit at 1.
    rewrite (first_contained_at _ before key canonical after Hfirst Hsub).
    reflexivity.
  - intros relation Hnone.
    unfold _standardize_relation.
    rewrite dict_get_None.
    + rewrite (first_contained_None _ _ Hnone). reflexivity.
    + intros v Hin. apply (Hnone _ v Hin).
      exists EmptyString, EmptyString.
      simpl. clear. induction (lower (strip relation)) as [|c s IH]; simpl;
        [reflexivity | f_equal; exact IH].
Qed.

Ltac no_such_entry :=
  let H := fresh in
  intros ? H; simpl in H;
  repeat (destruct H as [H | H]; [discriminate H |]);
  exact H.

Ltac not_contained := apply contains_false_iff; reflexivity.

Lemma standardize_relation_spec_witness :
  _standardize_relation (Some " Bought ") = "ACQUIRED"
  /\ _standardize_relation (Some "has INVESTED in x") = "INVESTED_IN"
  /\ _standardize_relation (Some " owns ") = "OWNS".
Proof.
  destruct standardize_relation_spec as (Hexact & Hfirst & Hupper & _).
  split; [| split].
  - apply (Hexact " Bought " "ACQUIRED"). simpl. tauto.
  - apply (Hfirst "has INVESTED in x"
             (firstn 4 relation_standardization)
             "invested in" "INVESTED_IN"
             (skipn 5 relation_standardization)).
    + no_such_entry.
    + reflexivity.
    + exists "has ", " x". reflexivity.
    + intros k v H. simpl in H.
      repeat (destruct H as [H | H]; [inversion H; subst; not_contained |]).
      contradiction.
  - apply (Hupper " owns ").
    intros k v H. unfold relation_standardization in H. simpl in H.
    repeat (destruct H as [H | H]; [inversion H; subst; not_contained |]).
    contradiction.
Defined.

End RelationFacts.

(** ** Normalizer: entity type inference *)

Module EntityTypeFacts.
Import PyStr Spec PyStrFacts DataCleaner.
Local Open Scope string_scope.


Lemma lstrip_by_run :
  forall p run rest,
    sforall p run = true -> stops p rest -> lstrip_by p (run ++ rest) = rest.
Proof.
  induction run as [|c run IH]; intros rest Hrun Hstop; simpl.
  - destruct rest as [|d rest]; [reflexivity |].
    simpl in Hstop. simpl. rewrite Hstop. reflexivity.
  - simpl in Hrun. apply andb_true_iff in Hrun. destruct Hrun as [Hc Hrun].
    rewrite Hc. apply IH; assumption.
Qed.

Lemma lstrip_by_split :
  forall p s,
    exists run,
      s = run ++ lstrip_by p s /\ sforall p run = true
      /\ stops p (lstrip_by p s).
Proof.
  induction s as [|c s IH]; simpl.
  - exists EmptyString. repeat split.
  - destruct (p c) eqn:Hc.
    + destruct IH as (run & Hs & Hrun & Hstop).
      exists (String c run). simpl. rewrite Hc, Hrun.
      repeat split; [f_equal; exact Hs | exact Hstop].
    + exists EmptyString. simpl. repeat split. exact Hc.
Qed.

Lemma capitalized_word_inv :
  forall s rest,
    Re.capitalized_word s = Some rest ->
    exists w, CapitalizedWord w /\ s = w ++ rest /\ stops is_lower rest.
Proof.
  intros s rest H. unfold Re.capitalized_word in H.
  destruct s as [|c1 [|c2 r]]; try discriminate.
  destruct (is_upper c1 && is_lower c2) eqn:E; [| discriminate].
  apply andb_true_iff in E. destruct E as [Hu Hl].
  inversion H; subst rest; clear H.
  destruct (lstrip_by_split is_lower r) as (run & Hr & Hrun & Hstop).
  exists (String c1 (String c2 run)). split; [| split].
  - exists c1, (String c2 run). repeat split; try assumption.
    + discriminate.
    + simpl. rewrite Hl. exact Hrun.
  - simpl. do 2 f_equal. exact Hr.
  - exact Hstop.
Qed.

Lemma capitalized_word_app :
  forall w rest,
    CapitalizedWord w -> stops is_lower rest ->
    Re.capitalized_word (w ++ rest) = Some rest.
Proof.
  intros w rest (c & r & -> & Hu & Hne & Hlow) Hstop.
  destruct r as [|c2 r]; [contradiction Hne; reflexivity |].
  simpl in Hlow. apply andb_true_iff in Hlow. destruct Hlow as [Hc2 Hr].
  simpl. rewrite Hu, Hc2. simpl.
  rewrite (lstrip_by_run is_lower r rest Hr Hstop). reflexivity.
Qed.

Lemma is_company_spec :
  forall e, is_company e = true <-> CompanyName e.
Proof.
  intros e. unfold is_company, CompanyName. rewrite existsb_exists.
  split; intros (token & Hin & H); exists token; split; try assumption;
    apply contains_Substring; exact H.
Qed.

Lemma at_end_spec :
  forall s, Re.at_end s = true
            <-> s = EmptyString \/ s = String LF EmptyString.
Proof.
  intros s. split.
  - destruct s as [|c [|d s]]; simpl; intros H; try discriminate.
    + left. reflexivity.
    + right. apply Ascii.eqb_eq in H. subst c. reflexivity.
  - intros [-> | ->]; reflexivity.
Qed.

Lemma is_person_spec :
  forall e, is_person e = true <-> PersonName e.
Proof.
  intros e. unfold is_person, Re.match_person. split.
  - destruct (Re.capitalized_word e) as [[|sp r]|] eqn:E1; try discriminate.
    intros H. apply andb_true_iff in H. destruct H as [Hsp H].
    apply Ascii.eqb_eq in Hsp. subst sp.
    destruct (Re.capitalized_word r) as [final|] eqn:E2; [| discriminate].
    apply at_end_spec in H.
    destruct (capitalized_word_inv _ _ E1) as (w1 & Hw1 & He & _).
    destruct (capitalized_word_inv _ _ E2) as (w2 & Hw2 & Hr & _).
    exists w1, w2, final. repeat split; try assumption.
    rewrite He, Hr. reflexivity.
  - intros (w1 & w2 & final & Hw1 & Hw2 & Hfinal & ->).
    rewrite (capitalized_word_app w1 (String SPACE (w2 ++ final)) Hw1);
      [| reflexivity].
    rewrite Ascii.eqb_refl. simpl.
    rewrite (capitalized_word_app w2 final Hw2).
    + apply at_end_spec. exact Hfinal.
    + destruct Hfinal as [-> | ->]; simpl; [exact I | reflexivity].
Qed.

Lemma digits4_at_inv :
  forall s rest,
    Re.digits4_at s = Some rest ->
    exists a b c d,
      s = String a (String b (String c (String d rest)))
      /\ is_digit a = true /\ is_digit b = true
      /\ is_digit c = true /\ is_digit d = true.
Proof.
  intros s rest H. unfold Re.digits4_at in H.
  destruct s as [|a [|b [|c [|d r]]]]; try discriminate.
  destruct (is_digit a) eqn:Ha; [| discriminate].
  destruct (is_digit b) eqn:Hb; [| discriminate].
  destruct (is_digit c) eqn:Hc; [| discriminate].
  destruct (is_digit d) eqn:Hd; [| discriminate].
  simpl in H. inversion H; subst.
  exists a, b, c, d. auto.
Qed.

Lemma search_digits4_unfold :
  forall s,
    Re.search_digits4 s
    = match Re.digits4_at s with
      | Some _ => true
      | None => match s with
                | EmptyString => false
                | String _ r => Re.search_digits4 r
                end
      end.
Proof. intros [|c r]; reflexivity. Qed.

Lemma search_digits4_app :
  forall before s,
    Re.search_digits4 s = true -> Re.search_digits4 (before ++ s) = true.
Proof.
  induction before as [|c before IH]; intros s H; [exact H |].
  simpl append. rewrite search_digits4_unfold.
  destruct (Re.digits4_at (String c (before ++ s))); [reflexivity |].
  apply IH. exact H.
Qed.

(** [re.search(r'\d{4}', e)] succeeds exactly on a text with four digits
    in a row *)
Lemma search_digits4_spec :
  forall e, Re.search_digits4 e = true <-> FourDigits e.
Proof.
  intros e. split.
  - induction e as [|x e IH]; intros H; rewrite search_digits4_unfold in H.
    + simpl in H. discriminate.
    + destruct (Re.digits4_at (String x e)) as [rest|] eqn:E.
      * destruct (digits4_at_inv _ _ E) as (a & b & c & d & Hs & Hd).
        exists EmptyString, a, b, c, d, rest. split; [exact Hs | exact Hd].
      * destruct (IH H) as (before & a & b & c & d & after & -> & Hd).
        exists (String x before), a, b, c, d, after. split; [reflexivity | exact Hd].
  - intros (before & a & b & c & d & after & -> & Ha & Hb & Hc & Hd).
    apply search_digits4_app. rewrite search_digits4_unfold.
    unfold Re.digits4_at. rewrite Ha, Hb, Hc, Hd. reflexivity.
Qed.

Lemma drop_suffix :
  forall n s, exists before, s = before ++ drop n s.
Proof.
  induction n as [|n IH]; intros s.
  - exists EmptyString. reflexivity.
  - destruct s as [|c s]; [exists EmptyString; reflexivity |].
    destruct (IH s) as [before Hb].
    exists (String c before). simpl. f_equal. exact Hb.
Qed.

Lemma append_assoc :
  forall a b c : string, (a ++ b) ++ c = a ++ (b ++ c).
Proof.
  induction a as [|x a IH]; intros b c; simpl; [reflexivity |].
  rewrite IH. reflexivity.
Qed.

Lemma month_year_at_digits :
  forall s, Re.month_year_at s = true -> Re.search_digits4 s = true.
Proof.
  intros s H. unfold Re.month_year_at in H.
  apply andb_true_iff in H. destruct H as [_ H].
  destruct (lstrip_by_split is_lower (drop 3 s)) as (run & Hrun & _ & _).
  destruct (lstrip_by is_lower (drop 3 s)) as [|sp r]; [discriminate |].
  apply andb_true_iff in H. destruct H as [_ H].
  destruct (Re.digits4_at r) as [rest|] eqn:E; [| discriminate].
  destruct (drop_suffix 3 s) as [before Hb].
  rewrite Hb, Hrun.
  apply search_digits4_app. apply search_digits4_app.
  apply (search_digits4_app (String sp EmptyString) r).
  rewrite search_digits4_unfold, E. reflexivity.
Qed.

Lemma search_month_year_digits :
  forall s previous_is_word,
    Re.search_month_year previous_is_word s = true ->
    Re.search_digits4 s = true.
Proof.
  induction s as [|c s IH]; intros w H; simpl in H.
  - apply orb_true_iff in H. destruct H as [H | H]; [| discriminate].
    apply andb_true_iff in H. destruct H as [_ H]. discriminate.
  - apply orb_true_iff in H. destruct H as [H | H].
    + apply andb_true_iff in H. destruct H as [_ H].
      apply month_year_at_digits. exact H.
    + rewrite search_digits4_unfold.
      destruct (Re.digits4_at (String c s)); [reflexivity |].
      apply (IH _ H).
Qed.

(** The month-and-year pattern ends with four digits, so the first date
    pattern alone decides: a text is a date exactly when it has four
    digits in a row *)
Lemma is_date_spec :
  forall e, is_date e = true <-> FourDigits e.
Proof.
  intros e. rewrite <- search_digits4_spec. unfold is_date. split.
  - intros H. apply orb_true_iff in H. destruct H as [H | H]; [exact H |].
    apply (search_month_year_digits e false H).
  - intros H. rewrite H. reflexivity.
Qed.

Lemma search_dollar_amount_spec :
  forall e, Re.search_dollar_amount e = true <-> DollarAmount e.
Proof.
  intros e. split.
  - induction e as [|c e IH]; simpl; intros H; [discriminate |].
    apply orb_true_iff in H. destruct H as [H | H].
    + apply andb_true_iff in H. destruct H as [Hc Hd].
      apply Ascii.eqb_eq in Hc. subst c.
      destruct e as [|d e]; [discriminate |].
      exists EmptyString, d, e. split; [reflexivity | exact Hd].
    + destruct (IH H) as (before & d & after & -> & Hd).
      exists (String c before), d, after. split; [reflexivity | exact Hd].
  - intros (before & d & after & -> & Hd).
    induction before as [|c before IH]; simpl.
    + rewrite Hd. reflexivity.
    + rewrite IH. apply orb_true_r.
Qed.

Lemma space_is_not_upper :
  forall c, is_space c = true -> to_lower c = c.
Proof.
  intros c H. unfold to_lower.
  destruct (is_upper c) eqn:E; [| reflexivity].
  exfalso. revert H E.
  destruct c as [b0 b1 b2 b3 b4 b5 b6 b7].
  destruct b0, b1, b2, b3, b4, b5, b6, b7; vm_compute; intros; discriminate.
Qed.

Lemma scale_word_stops :
  forall word after rest,
    In word Re.scale_words -> lower after = word ++ rest ->
    stops is_space after.
Proof.
  intros word after rest Hw Hl.
  destruct after as [|c after]; [exact I |].
  simpl. destruct (is_space c) eqn:E; [| reflexivity].
  exfalso.
  change (lower (String c after)) with (String (to_lower c) (lower after)) in Hl.
  rewrite (space_is_not_upper c E) in Hl.
  simpl in Hw.
  destruct Hw as [<- | [<- | [<- | []]]]; inversion Hl; subst; discriminate E.
Qed.

Lemma search_scaled_amount_unfold :
  forall c r,
    Re.search_scaled_amount (String c r)
    = (is_digit c
       && existsb (fun w => startswith w (lower (lstrip_by is_space r)))
                  Re.scale_words)
      || Re.search_scaled_amount r.
Proof. reflexivity. Qed.

Lemma search_scaled_amount_spec :
  forall e, Re.search_scaled_amount e = true <-> ScaledAmount e.
Proof.
  intros e. split.
  - induction e as [|c e IH]; intros H; [discriminate H |].
    rewrite search_scaled_amount_unfold in H.
    apply orb_true_iff in H. destruct H as [H | H].
    + apply andb_true_iff in H. destruct H as [Hc Hw].
      apply existsb_exists in Hw. destruct Hw as (word & Hin & Hs).
      apply startswith_inv in Hs. destruct Hs as [rest Hrest].
      destruct (lstrip_by_split is_space e) as (run & He & Hrun & _).
      exists EmptyString, c, run, word, (lstrip_by is_space e), rest.
      split; [| auto].
      change (EmptyString ++ String c (run ++ lstrip_by is_space e))
        with (String c (run ++ lstrip_by is_space e)).
      rewrite <- He. reflexivity.
    + destruct (IH H) as (before & d & spaces & word & after & rest & -> & Hrest).
      exists (String c before), d, spaces, word, after, rest.
      split; [reflexivity | exact Hrest].
  - intros (before & d & spaces & word & after & rest & -> & Hd & Hsp & Hin & Hl).
    induction before as [|c before IH].
    + change (EmptyString ++ String d (spaces ++ after))
        with (String d (spaces ++ after)).
      rewrite search_scaled_amount_unfold. rewrite Hd.
      rewrite (lstrip_by_run is_space spaces after Hsp
                 (scale_word_stops word after rest Hin Hl)).
      rewrite Hl.
      assert (E : existsb (fun w => startswith w (word ++ rest)) Re.scale_words = true).
      { apply existsb_exists. exists word. split; [exact Hin | apply startswith_app]. }
      rewrite E. reflexivity.
    + change (String c before ++ String d (spaces ++ after))
        with (String c (before ++ String d (spaces ++ after))).
      rewrite search_scaled_amount_unfold, IH. apply orb_true_r.
Qed.

Lemma is_currency_spec :
  forall e, is_currency e = true <-> CurrencyText e.
Proof.
  intros e. unfold is_currency, CurrencyText, Re.search_ignorecase.
  rewrite !orb_true_iff.
  rewrite search_dollar_amount_spec, search_scaled_amount_spec.
  change (lower "USD") with "usd". change (lower "EUR") with "eur".
  rewrite !contains_Substring. tauto.
Qed.

(** C5: [_infer_entity_type] runs its checks in a fixed order and the
    first one that succeeds decides: a company name (one of the suffix
    tokens Inc, Corp, Ltd, LLC, Co., Company, Group occurs) is COMPANY;
    otherwise a person name (two capitalized words) is PERSON; otherwise a
    text matching a date pattern (which comes down to four digits in a row)
    is DATE; otherwise a currency text (a dollar amount, an amount in
    millions, billions or trillions, or the code USD or EUR) is CURRENCY;
    anything else is ENTITY.  "Tim Cook" is PERSON, "Apple Inc" COMPANY,
    "$100 million" CURRENCY, "January 2024" DATE and "DarwinAI" ENTITY. *)
Theorem infer_entity_type_first_match :
  (forall e, CompanyName e -> _infer_entity_type (Some e) = "COMPANY")
  /\ (forall e, ~ CompanyName e -> PersonName e ->
                _infer_entity_type (Some e) = "PERSON")
  /\ (forall e, ~ CompanyName e -> ~ PersonName e -> FourDigits e ->
                _infer_entity_type (Some e) = "DATE")
  /\ (forall e, ~ CompanyName e -> ~ PersonName e -> ~ FourDigits e ->
                CurrencyText e ->
                _infer_entity_type (Some e) = "CURRENCY")
  /\ (forall e, ~ CompanyName e -> ~ PersonName e -> ~ FourDigits e ->
                ~ CurrencyText e ->
                _infer_entity_type (Some e) = "ENTITY")
  /\ _infer_entity_type (Some "Tim Cook") = "PERSON"
  /\ _infer_entity_type (Some "Apple Inc") = "COMPANY"
  /\ _infer_entity_type (Some "$100 million") = "CURRENCY"
  /\ _infer_entity_type (Some "January 2024") = "DATE"
  /\ _infer_entity_type (Some "DarwinAI") = "ENTITY".
Proof.
  assert (Hc : forall e, ~ CompanyName e -> is_company e = false).
  { intros e H. destruct (is_company e) eqn:E; [| reflexivity].
    exfalso. apply H. apply is_company_spec. exact E. }
  assert (Hp : forall e, ~ PersonName e -> is_person e = false).
  { intros e H. destruct (is_person e) eqn:E; [| reflexivity].
    exfalso. apply H. apply is_person_spec. exact E. }
  assert (Hd : forall e, ~ FourDigits e -> is_date e = false).
  { intros e H. destruct (is_date e) eqn:E; [| reflexivity].
    exfalso. apply H. apply is_date_spec. exact E. }
  assert (Hm : forall e, ~ CurrencyText e -> is_currency e = false).
  { intros e H. destruct (is_currency e) eqn:E; [| reflexivity].
    exfalso. apply H. apply is_currency_spec. exact E. }
  repeat split; try reflexivity.
  - intros e H. apply is_company_spec in H.
    unfold _infer_entity_type. rewrite H. reflexivity.
  - intros e H1 H2. apply is_person_spec in H2.
    unfold _infer_entity_type. rewrite (Hc e H1), H2. reflexivity.
  - intros e H1 H2 H3. apply is_date_spec in H3.
    unfold _infer_entity_type. rewrite (Hc e H1), (Hp e H2), H3. reflexivity.
  - intros e H1 H2 H3 H4. apply is_currency_spec in H4.
    unfold _infer_entity_type.
    rewrite (Hc e H1), (Hp e H2), (Hd e H3), H4. reflexivity.
  - intros e H1 H2 H3 H4.
    unfold _infer_entity_type.
    rewrite (Hc e H1), (Hp e H2), (Hd e H3), (Hm e H4). reflexivity.
Qed.

Ltac by_evaluation spec :=
  let H := fresh in
  intros H; apply spec in H; vm_compute in H; discriminate H.

Lemma infer_entity_type_first_match_witness :
  _infer_entity_type (Some "Apple Group") = "COMPANY"
  /\ _infer_entity_type (Some "Satya Nadella") = "PERSON"
  /\ _infer_entity_type (Some "March 2023") = "DATE"
  /\ _infer_entity_type (Some "5 billion") = "CURRENCY"
  /\ _infer_entity_type (Some "OpenAI") = "ENTITY".
Proof.
  destruct infer_entity_type_first_match
    as (Hcompany & Hperson & Hdate & Hcurrency & Hentity & _).
  split; [| split; [| split; [| split]]].
  - apply Hcompany. exists "Group". split.
    + simpl. tauto.
    + exists "Apple ", EmptyString. reflexivity.
  - apply Hperson.
    + by_evaluation is_company_spec.
    + exists "Satya", "Nadella", EmptyString.
      split; [| split; [| split]].
      * exists "S"%char, "atya". repeat split. discriminate.
      * exists "N"%char, "adella". repeat split. discriminate.
      * left. reflexivity.
      * reflexivity.
  - apply Hdate.
    + by_evaluation is_company_spec.
    + by_evaluation is_person_spec.
    + exists "March ", "2"%char, "0"%char, "2"%char, "3"%char, EmptyString.
      repeat split.
  - apply Hcurrency.
    + by_evaluation is_company_spec.
    + by_evaluation is_person_spec.
    + by_evaluation is_date_spec.
    + right. left.
      exists EmptyString, "5"%char, " ", "billion", "billion", EmptyString.
      repeat split. right. left. reflexivity.
  - apply Hentity.
    + by_evaluation is_company_spec.
    + by_evaluation is_person_spec.
    + by_evaluation is_date_spec.
    + by_evaluation is_currency_spec.
Defined.

End EntityTypeFacts.

(** ** Normalizer: the cleaning pipeline *)

Module CleanerFacts.
Import PyStr Spec DataCleaner.
Local Open Scope string_scope.
Local Open Scope list_scope.

Lemma cell_eqb_eq : forall a b, cell_eqb a b = true <-> a = b.
Proof.
  intros [x|] [y|]; simpl; split; intros H;
    try discriminate; try reflexivity.
  - apply String.eqb_eq in H. subst. reflexivity.
  - inversion H. apply String.eqb_refl.
Qed.

Lemma same_key_eq : forall a b, same_key a b = true <-> key a = key b.
Proof.
  intros a b. unfold same_key, key.
  rewrite !andb_true_iff, !cell_eqb_eq. split.
  - intros [[H1 H2] H3]. rewrite H1, H2, H3. reflexivity.
  - intros H. inversion H. auto.
Qed.

Lemma not_seen :
  forall t seen,
    existsb (same_key t) seen = false <-> (forall u, In u seen -> key u <> key t).
Proof.
  intros t seen. split.
  - intros H u Hu Hk.
    assert (E : existsb (same_key t) seen = true).
    { apply existsb_exists. exists u. split; [exact Hu |].
      apply same_key_eq. symmetry. exact Hk. }
    rewrite H in E. discriminate.
  - intros H. destruct (existsb (same_key t) seen) eqn:E; [| reflexivity].
    apply existsb_exists in E. destruct E as (u & Hu & Hk).
    apply same_key_eq in Hk. exfalso. apply (H u Hu). symmetry. exact Hk.
Qed.

(** What [drop_duplicates_from] keeps: the first record of every key that
    has not been seen *)
Lemma In_drop_duplicates_from :
  forall l seen t,
    In t (drop_duplicates_from seen l)
    <-> (exists before after,
            l = before ++ t :: after
            /\ (forall u, In u before -> key u <> key t))
        /\ (forall u, In u seen -> key u <> key t).
Proof.
  induction l as [|x l IH]; intros seen t; simpl.
  - split; [contradiction |].
    intros [(before & after & H & _) _]. destruct before; discriminate.
  - destruct (existsb (same_key x) seen) eqn:E.
    + rewrite IH. split.
      * intros [(before & after & -> & Hb) Hs]. split; [| exact Hs].
        exists (x :: before), after. split; [reflexivity |].
        intros u [<- | Hu]; [| apply Hb; exact Hu].
        apply existsb_exists in E. destruct E as (s & Hin & Hk).
        apply same_key_eq in Hk. rewrite Hk. apply Hs. exact Hin.
      * intros [(before & after & Hl & Hb) Hs].
        destruct before as [|y before]; simpl in Hl; inversion Hl; subst.
        -- apply not_seen in Hs. rewrite Hs in E. discriminate.
        -- split; [| exact Hs].
           exists before, after. split; [reflexivity |].
           intros u Hu. apply Hb. right. exact Hu.
    + simpl. rewrite IH. split.
      * intros [<- | [(before & after & -> & Hb) Hs]].
        -- split; [| apply not_seen; exact E].
           exists [], l. split; [reflexivity |]. intros u [].
        -- split.
           ++ exists (x :: before), after. split; [reflexivity |].
              intros u [<- | Hu]; [apply Hs; left; reflexivity | apply Hb; exact Hu].
           ++ intros u Hu. apply Hs. right. exact Hu.
      * intros [(before & after & Hl & Hb) Hs].
        destruct before as [|y before]; simpl in Hl; inversion Hl; subst.
        -- left. reflexivity.
        -- right. split.
           ++ exists before, after. split; [reflexivity |].
              intros u Hu. apply Hb. right. exact Hu.
           ++ intros u [<- | Hu]; [apply Hb; left; reflexivity | apply Hs; exact Hu].
Qed.

Lemma In_drop_duplicates :
  forall batch t,
    In t (rows (drop_duplicates (DataFrame_of batch))) <-> FirstOccurrence batch t.
Proof.
  intros batch t. unfold drop_duplicates, FirstOccurrence. simpl.
  rewrite In_drop_duplicates_from. split.
  - intros [H _]. exact H.
  - intros H. split; [exact H |]. intros u [].
Qed.

Lemma NoDup_drop_duplicates_from :
  forall l seen, NoDup (map key (drop_duplicates_from seen l)).
Proof.
  induction l as [|x l IH]; intros seen; simpl.
  - constructor.
  - destruct (existsb (same_key x) seen) eqn:E; [apply IH |].
    simpl. constructor; [| apply IH].
    intros Hin. apply in_map_iff in Hin. destruct Hin as (u & Hk & Hu).
    apply In_drop_duplicates_from in Hu. destruct Hu as [_ Hs].
    apply (Hs x); [left; reflexivity |]. symmetry. exact Hk.
Qed.

Lemma In_filter_confidence :
  forall cfg df t,
    In t (rows (filter_confidence cfg df))
    <-> In t (rows df)
        /\ (in_columns "confidence" df = true ->
            confidence_ge (confidence_threshold cfg) (confidence t) = true).
Proof.
  intros cfg df t. unfold filter_confidence.
  destruct (in_columns "confidence" df); simpl.
  - rewrite filter_In. split; intros [H1 H2]; split; auto.
  - split; [intros H; split; [exact H | discriminate] | intros [H _]; exact H].
Qed.

(** The column [confidence] exists when some record carries the key *)
Lemma confidence_column :
  forall batch,
    in_columns "confidence" (drop_duplicates (DataFrame_of batch)) = false
    <-> (forall u, In u batch -> confidence u = None).
Proof.
  intros batch. unfold in_columns, drop_duplicates, DataFrame_of. simpl.
  destruct (existsb (fun t => is_some (confidence t)) batch) eqn:E.
  - split; [discriminate |].
    intros H. apply existsb_exists in E. destruct E as (u & Hu & Hs).
    rewrite (H u Hu) in Hs. discriminate.
  - split; intros H.
    + intros u Hu. destruct (confidence u) as [c|] eqn:Ec; [| reflexivity].
      assert (E' : existsb (fun t => is_some (confidence t)) batch = true).
      { apply existsb_exists. exists u. rewrite Ec. split; [exact Hu | reflexivity]. }
      rewrite E in E'. discriminate.
    + destruct (existsb (fun t => is_some (head_type t)) batch);
        destruct (existsb (fun t => is_some (tail_type t)) batch); reflexivity.
Qed.

Lemma In_insert_descending :
  forall T (t r : Triplet T) l,
    In r (insert_descending t l) <-> r = t \/ In r l.
Proof.
  intros T t r. induction l as [|u l IH]; simpl.
  - split; [intros [<- | []]; left; reflexivity | intros [-> | []]; left; reflexivity].
  - destruct (sorts_before (confidence u) (confidence t)); simpl.
    + rewrite IH. tauto.
    + split; [intros [<- | H]; [left; reflexivity | right; exact H]
             | intros [-> | H]; [left; reflexivity | right; exact H]].
Qed.

Lemma In_sort_by_confidence :
  forall df r, In r (rows (sort_by_confidence df)) <-> In r (rows df).
Proof.
  intros df r. unfold sort_by_confidence.
  destruct (in_columns "confidence" df); simpl; [| tauto].
  induction (rows df) as [|t l IH]; simpl; [tauto |].
  rewrite In_insert_descending, IH. split; intros [H | H]; auto.
Qed.

Lemma In_add_head_type :
  forall df r, In r (rows (add_head_type df)) ->
    exists r', In r' (rows df) /\ same_facts r r'.
Proof.
  intros df r. unfold add_head_type.
  destruct (in_columns "head_type" df); simpl; intros H.
  - exists r. repeat split. exact H.
  - apply in_map_iff in H. destruct H as (r' & <- & H).
    exists r'. repeat split. exact H.
Qed.

Lemma In_add_tail_type :
  forall df r, In r (rows (add_tail_type df)) ->
    exists r', In r' (rows df) /\ same_facts r r'.
Proof.
  intros df r. unfold add_tail_type.
  destruct (in_columns "tail_type" df); simpl; intros H.
  - exists r. repeat split. exact H.
  - apply in_map_iff in H. destruct H as (r' & <- & H).
    exists r'. repeat split. exact H.
Qed.

(** Where an output record comes from: a record that passed steps 1 and
    2, cleaned, with a valid relation and distinct end points *)
Lemma clean_triplets_origin :
  forall cfg batch r,
    In r (rows (clean_triplets cfg batch)) ->
    exists t,
      In t (rows (filter_confidence cfg (drop_duplicates (DataFrame_of batch))))
      /\ CleanedFrom t r
      /\ In (relation r) (relation_types cfg)
      /\ head r <> tail r.
Proof.
  intros cfg batch r H.
  destruct batch as [|t0 batch]; [contradiction |].
  unfold clean_triplets in H.
  change (empty (DataFrame_of (t0 :: batch))) with false in H.
  cbv beta iota zeta in H.
  apply (proj1 (In_sort_by_confidence _ _)) in H.
  apply In_add_tail_type in H. destruct H as (r1 & H & F1).
  apply In_add_head_type in H. destruct H as (r2 & H & F2).
  unfold filter_self_references, filter_valid_relations, select in H.
  simpl in H.
  apply filter_In in H. destruct H as [H Hloop].
  apply filter_In in H. destruct H as [H Hvalid].
  apply in_map_iff in H. destruct H as (t & <- & H).
  destruct F1 as (a1 & b1 & c1 & d1), F2 as (a2 & b2 & c2 & d2).
  exists t. split; [exact H |].
  split; [| split].
  - unfold CleanedFrom. rewrite a1, a2, b1, b2, c1, c2, d1, d2.
    repeat split.
  - rewrite b1, b2. apply existsb_exists in Hvalid.
    destruct Hvalid as (x & Hx & Heq). apply String.eqb_eq in Heq.
    rewrite Heq. exact Hx.
  - rewrite a1, a2, c1, c2. intros Heq.
    apply negb_true_iff in Hloop. apply String.eqb_neq in Hloop.
    apply Hloop. exact Heq.
Qed.

Lemma In_filter_confidence_batch :
  forall cfg batch t,
    In t (rows (filter_confidence cfg (drop_duplicates (DataFrame_of batch)))) ->
    FirstOccurrence batch t /\ In t batch.
Proof.
  intros cfg batch t H. apply In_filter_confidence in H. destruct H as [H _].
  apply In_drop_duplicates in H. split; [exact H |].
  destruct H as (before & after & -> & _).
  apply in_or_app. right. left. reflexivity.
Qed.

Lemma leb_refl_number :
  forall x : float, PrimFloat.is_nan x = false -> PrimFloat.leb x x = true.
Proof.
  intros x H. unfold PrimFloat.is_nan in H. apply negb_false_iff in H.
  rewrite eqb_spec in H. rewrite leb_spec.
  unfold SFeqb in H. unfold SFleb.
  destruct (SFcompare (Prim2SF x) (Prim2SF x)) as [[| |]|];
    try discriminate; reflexivity.
Qed.

(** C2, as the code has it: the confidence filter acts on the column.  A
    record of the deduplicated batch survives exactly when no record of the
    input batch carries a confidence (there is no column then, and the step
    is skipped) or its own confidence is present and at least the
    threshold.  A confidence equal to a numeric threshold is kept; a record
    without a confidence is dropped as soon as some record of the batch
    carries one. *)
Theorem confidence_filter_by_column :
  forall cfg batch t,
    In t (rows (drop_duplicates (DataFrame_of batch))) ->
    (In t (rows (filter_confidence cfg (drop_duplicates (DataFrame_of batch))))
     <-> (forall u, In u batch -> confidence u = None)
         \/ (exists c, confidence t = Some c
                       /\ PrimFloat.leb (confidence_threshold cfg) c = true))
    /\ (confidence t = Some (confidence_threshold cfg) ->
        PrimFloat.is_nan (confidence_threshold cfg) = false ->
        In t (rows (filter_confidence cfg (drop_duplicates (DataFrame_of batch)))))
    /\ (confidence t = None ->
        (exists u c, In u batch /\ confidence u = Some c) ->
        ~ In t (rows (filter_confidence cfg (drop_duplicates (DataFrame_of batch))))).
Proof.
  intros cfg batch t Hin.
  assert (Hiff :
    In t (rows (filter_confidence cfg (drop_duplicates (DataFrame_of batch))))
    <-> (forall u, In u batch -> confidence u = None)
        \/ (exists c, confidence t = Some c
                      /\ PrimFloat.leb (confidence_threshold cfg) c = true)).
  { rewrite In_filter_confidence. split.
    - intros [_ H].
      destruct (in_columns "confidence" (drop_duplicates (DataFrame_of batch)))
        eqn:E.
      + right. specialize (H eq_refl).
        destruct (confidence t) as [c|]; [| discriminate].
        exists c. split; [reflexivity | exact H].
      + left. apply confidence_column. exact E.
    - intros H. split; [exact Hin |]. intros Hcol.
      destruct H as [H | (c & -> & H)]; [| exact H].
      apply confidence_column in H. rewrite H in Hcol. discriminate. }
  split; [exact Hiff | split].
  - intros Hc Hnum. apply Hiff. right.
    exists (confidence_threshold cfg). split; [exact Hc |].
    apply leb_refl_number. exact Hnum.
  - intros Hnone (u & c & Hu & Hc) H. apply Hiff in H.
    destruct H as [H | (c' & H & _)].
    + rewrite (H u Hu) in Hc. discriminate.
    + rewrite Hnone in H. discriminate.
Qed.

Lemma confidence_filter_by_column_witness :
  In (Samples.apple_darwin (Some 0.7%float))
     (rows (drop_duplicates
              (DataFrame_of [Samples.apple_darwin (Some 0.7%float);
                             Samples.microsoft_openai (Some 0.6%float)])))
  /\ In (Samples.apple_darwin (Some 0.7%float))
        (rows (filter_confidence Samples.config
                 (drop_duplicates
                    (DataFrame_of [Samples.apple_darwin (Some 0.7%float);
                                   Samples.microsoft_openai (Some 0.6%float)])))).
Proof.
  assert (Hin : In (Samples.apple_darwin (Some 0.7%float))
                   (rows (drop_duplicates
                            (DataFrame_of [Samples.apple_darwin (Some 0.7%float);
                                           Samples.microsoft_openai (Some 0.6%float)])))).
  { left. reflexivity. }
  split; [exact Hin |].
  apply (proj1 (proj2 (confidence_filter_by_column Samples.config _ _ Hin)));
    reflexivity.
Defined.

(** A record without a confidence does not pass the filter when another
    record of the batch carries one: on this batch it is not accepted *)
Lemma lacking_confidence_is_dropped :
  In (Samples.microsoft_openai None)
     (rows (drop_duplicates
              (DataFrame_of [Samples.apple_darwin (Some 0.9%float);
                             Samples.microsoft_openai None])))
  /\ confidence (Samples.microsoft_openai None) = None
  /\ ~ In (Samples.microsoft_openai None)
          (rows (filter_confidence Samples.config
                   (drop_duplicates
                      (DataFrame_of [Samples.apple_darwin (Some 0.9%float);
                                     Samples.microsoft_openai None])))).
Proof.
  split; [right; left; reflexivity | split; [reflexivity |]].
  intros H. vm_compute in H.
  destruct H as [H | H]; [discriminate H | exact H].
Qed.

(** C7: every record of the Normalizer's output has a head different from
    its tail; a record cleaned from a triplet whose cleaned head equals its
    cleaned tail is therefore never in the output, and the single triplet
    (Apple, FOUNDED, Apple) yields an empty output whatever its confidence,
    its type cells and the configuration. *)
Theorem clean_triplets_no_self_reference :
  (forall cfg batch r,
      In r (rows (clean_triplets cfg batch)) -> head r <> tail r)
  /\ (forall cfg batch t r,
         In r (rows (clean_triplets cfg batch)) -> CleanedFrom t r ->
         _clean_entity_name (head t) <> _clean_entity_name (tail t))
  /\ (forall cfg c ht tt,
         rows (clean_triplets cfg
                 [{| head := Some "Apple"; relation := Some "FOUNDED";
                     tail := Some "Apple"; confidence := c;
                     head_type := ht; tail_type := tt |}]) = []).
Proof.
  assert (Hloop : forall cfg batch r,
             In r (rows (clean_triplets cfg batch)) -> head r <> tail r).
  { intros cfg batch r H.
    destruct (clean_triplets_origin cfg batch r H) as (t & _ & _ & _ & Hne).
    exact Hne. }
  split; [exact Hloop | split].
  - intros cfg batch t r H (Hh & _ & Ht & _).
    rewrite <- Hh, <- Ht. exact (Hloop cfg batch r H).
  - intros cfg c ht tt.
    destruct (rows (clean_triplets cfg _)) as [|r l] eqn:E; [reflexivity |].
    exfalso.
    assert (H : In r (rows (clean_triplets cfg
                 [{| head := Some "Apple"; relation := Some "FOUNDED";
                     tail := Some "Apple"; confidence := c;
                     head_type := ht; tail_type := tt |}]))).
    { rewrite E. left. reflexivity. }
    destruct (clean_triplets_origin _ _ _ H) as (t & Ht & (Hh & _ & Hta & _) & _ & Hne).
    apply In_filter_confidence_batch in Ht. destruct Ht as [_ [<- | []]].
    apply Hne. rewrite Hh, Hta. reflexivity.
Qed.

Lemma clean_triplets_no_self_reference_witness :
  In {| head := "Apple"; relation := "ACQUIRED"; tail := "DarwinAI";
        confidence := Some 0.9%float;
        head_type := Some "ENTITY"; tail_type := Some "ENTITY" |}
     (rows (clean_triplets Samples.config
              [Samples.extracted "apple" "bought" "APPLE" (Some 1%float);
               Samples.apple_darwin (Some 0.9%float)]))
  /\ "Apple" <> "DarwinAI".
Proof.
  assert (Hin : In {| head := "Apple"; relation := "ACQUIRED"; tail := "DarwinAI";
                      confidence := Some 0.9%float;
                      head_type := Some "ENTITY"; tail_type := Some "ENTITY" |}
                   (rows (clean_triplets Samples.config
                            [Samples.extracted "apple" "bought" "APPLE" (Some 1%float);
                             Samples.apple_darwin (Some 0.9%float)]))).
  { vm_compute. left. reflexivity. }
  split; [exact Hin |].
  exact (proj1 clean_triplets_no_self_reference _ _ _ Hin).
Defined.

(** C8: deduplication keeps, for every (head, relation, tail) key, the
    first record of the batch with that key, other cells included, and no
    two kept records share a key; of (A,R,B,0.9) and (A,R,B,0.5) the record
    with confidence 0.9 alone remains.  The confidence filter and the later
    steps see first occurrences only: a record of the output is cleaned
    from the first record of its key, so a duplicate with a higher
    confidence never stands in for a first record that the filter drops. *)
Theorem deduplication_keeps_first :
  (forall batch t,
      In t (rows (drop_duplicates (DataFrame_of batch)))
      <-> FirstOccurrence batch t)
  /\ (forall batch,
         NoDup (map key (rows (drop_duplicates (DataFrame_of batch)))))
  /\ (forall A R B ht tt ht' tt',
         rows (drop_duplicates
                 (DataFrame_of
                    [{| head := A; relation := R; tail := B;
                        confidence := Some 0.9%float;
                        head_type := ht; tail_type := tt |};
                     {| head := A; relation := R; tail := B;
                        confidence := Some 0.5%float;
                        head_type := ht'; tail_type := tt' |}]))
         = [{| head := A; relation := R; tail := B;
               confidence := Some 0.9%float;
               head_type := ht; tail_type := tt |}])
  /\ (forall cfg batch t,
         In t (rows (filter_confidence cfg (drop_duplicates (DataFrame_of batch)))) ->
         FirstOccurrence batch t)
  /\ (forall cfg batch r,
         In r (rows (clean_triplets cfg batch)) ->
         exists t, FirstOccurrence batch t /\ CleanedFrom t r)
  /\ rows (clean_triplets Samples.config
             [Samples.apple_darwin (Some 0.9%float);
              Samples.apple_darwin (Some 0.5%float)])
     = [{| head := "Apple"; relation := "ACQUIRED"; tail := "DarwinAI";
           confidence := Some 0.9%float;
           head_type := Some "ENTITY"; tail_type := Some "ENTITY" |}]
  /\ rows (clean_triplets Samples.config
             [Samples.apple_darwin (Some 0.5%float);
              Samples.apple_darwin (Some 0.9%float)])
     = [].
Proof.
  split; [exact In_drop_duplicates |].
  split; [intros batch; apply NoDup_drop_duplicates_from |].
  split.
  { intros A R B ht tt ht' tt'. unfold drop_duplicates. simpl.
    unfold same_key. simpl.
    rewrite !(proj2 (cell_eqb_eq _ _) eq_refl). reflexivity. }
  split.
  { intros cfg batch t H. apply (In_filter_confidence_batch cfg batch t H). }
  split.
  { intros cfg batch r H.
    destruct (clean_triplets_origin cfg batch r H) as (t & Ht & Hc & _).
    exists t. split; [| exact Hc].
    apply (In_filter_confidence_batch cfg batch t Ht). }
  split; vm_compute; reflexivity.
Qed.

Lemma deduplication_keeps_first_witness :
  In (Samples.apple_darwin (Some 0.9%float))
     (rows (filter_confidence Samples.config
              (drop_duplicates
                 (DataFrame_of [Samples.apple_darwin (Some 0.9%float);
                                Samples.apple_darwin (Some 0.5%float)]))))
  /\ FirstOccurrence [Samples.apple_darwin (Some 0.9%float);
                      Samples.apple_darwin (Some 0.5%float)]
                     (Samples.apple_darwin (Some 0.9%float)).
Proof.
  assert (Hin : In (Samples.apple_darwin (Some 0.9%float))
     (rows (filter_confidence Samples.config
              (drop_duplicates
                 (DataFrame_of [Samples.apple_darwin (Some 0.9%float);
                                Samples.apple_darwin (Some 0.5%float)]))))).
  { vm_compute. left. reflexivity. }
  split; [exact Hin |].
  exact (proj1 (proj2 (proj2 (proj2 deduplication_keeps_first))) _ _ _ Hin).
Defined.

End CleanerFacts.

(** ** QueryTranslator *)

Module QueryFacts.
Import PyStr Spec PyStrFacts Neo4j Py NaturalLanguageQuery.
Local Open Scope string_scope.
Local Open Scope list_scope.

Lemma first_template_at :
  forall ql (before : list (string * string)) phrase template after,
    (forall p t, In (p, t) before -> ~ Substring p ql) ->
    Substring phrase ql ->
    first_template ql (before ++ (phrase, template) :: after)
    = Some (phrase, template).
Proof.
  induction before as [|[p t] before IH]; intros phrase template after Hnot Hin; simpl.
  - apply contains_Substring in Hin. rewrite Hin. reflexivity.
  - assert (Hp : contains p ql = false).
    { apply contains_false_iff. apply (Hnot p t). left. reflexivity. }
    rewrite Hp. apply IH; [| exact Hin].
    intros p' t' H'. apply (Hnot p' t'). right. exact H'.
Qed.

Lemma first_template_none :
  forall ql (templates : list (string * string)),
    (forall p t, In (p, t) templates -> ~ Substring p ql) ->
    first_template ql templates = None.
Proof.
  induction templates as [|[p t] templates IH]; intros Hnot; simpl; [reflexivity |].
  assert (Hp : contains p ql = false).
  { apply contains_false_iff. apply (Hnot p t). left. reflexivity. }
  rewrite Hp. apply IH. intros p' t' H'. apply (Hnot p' t'). right. exact H'.
Qed.

(** The first phrase of a table that occurs in a text, when one does *)
Lemma first_template_exists :
  forall ql (templates : list (string * string)),
    (exists p t, In (p, t) templates /\ Substring p ql) ->
    exists before phrase template after,
      templates = before ++ (phrase, template) :: after
      /\ Substring phrase ql
      /\ (forall p t, In (p, t) before -> ~ Substring p ql).
Proof.
  induction templates as [|[p t] templates IH]; intros (p0 & t0 & Hin & Hsub).
  - contradiction.
  - destruct (contains p ql) eqn:E.
    + exists [], p, t, templates. split; [reflexivity |].
      split; [apply contains_Substring; exact E | intros ? ? []].
    + destruct Hin as [Heq | Hin].
      * inversion Heq; subst. apply contains_Substring in Hsub.
        rewrite Hsub in E. discriminate.
      * destruct IH as (before & phrase & template & after & -> & Hs & Hb).
        { exists p0, t0. split; assumption. }
        exists ((p, t) :: before), phrase, template, after.
        split; [reflexivity |]. split; [exact Hs |].
        intros p' t' [Heq | H'].
        -- inversion Heq; subst. apply contains_false_iff. exact E.
        -- apply (Hb p' t' H').
Qed.

(** The phrases of the template table are pairwise distinct *)
Lemma query_templates_functional :
  forall p t t',
    In (p, t) query_templates -> In (p, t') query_templates -> t = t'.
Proof.
  intros p t t' H H'. unfold query_templates in H, H'.
  simpl in H, H'.
  destruct H as [H | [H | [H | [H | []]]]];
    destruct H' as [H' | [H' | [H' | [H' | []]]]];
    inversion H; subst; inversion H'; subst; try reflexivity;
    exfalso; match goal with E : _ = _ |- _ => discriminate E end.
Qed.

(** Every template of the table is a query without parameter: its text is
    not empty, has no [$] in it, and begins, after the line feed and the
    indentation, with [MATCH] *)
Lemma query_templates_parameter_free :
  forall p t,
    In (p, t) query_templates ->
    t <> EmptyString
    /\ contains "$" t = false
    /\ startswith "MATCH" (strip t) = true.
Proof.
  intros p t H. unfold query_templates in H. simpl in H.
  destruct H as [H | [H | [H | [H | []]]]]; inversion H; subst;
    (split; [discriminate | split; vm_compute; reflexivity]).
Qed.

(** C6: when the lower-cased, trimmed question contains a template phrase,
    [query_to_cypher] returns the fixed query of the first such phrase of
    the table and logs the choice; the result is the same whatever the
    language-model method and the rule-based method would do, whatever the
    [use_llm] flag and the configuration, so neither they nor the default
    query take part.  The query returned is fixed and free of parameters:
    it is an entry of the constant table, its text is not empty, begins
    with [MATCH] and has no [$] in it, so that it runs with the empty
    parameter mapping.  A question containing "company acquisitions" gets
    the acquisitions template, whose text is the one written in the
    source, also when the rule "what companies did (.+?) acquire" matches
    it. *)
Theorem template_takes_precedence :
  (forall chat llm_to_cypher rule_based_conversion cfg question use_llm w,
      (exists phrase template,
          In (phrase, template) query_templates
          /\ Substring phrase (strip (lower question))) ->
      exists before phrase template after,
        query_templates = before ++ (phrase, template) :: after
        /\ Substring phrase (strip (lower question))
        /\ (forall p t, In (p, t) before -> ~ Substring p (strip (lower question)))
        /\ query_to_cypher_with llm_to_cypher rule_based_conversion
             cfg question use_llm w
           = (Returns (Some template),
              {| db := db w;
                 log := log w ++ [INFO ("Using predefined template for: " ++ phrase)%string] |})
        /\ query_to_cypher chat cfg question use_llm w
           = (Returns (Some template),
              {| db := db w;
                 log := log w ++ [INFO ("Using predefined template for: " ++ phrase)%string] |})
        /\ template <> EmptyString
        /\ contains "$" template = false
        /\ startswith "MATCH" (strip template) = true)
  /\ (forall chat cfg question use_llm w phrase template,
         In (phrase, template) query_templates ->
         Substring phrase (strip (lower question)) ->
         (forall p t, In (p, t) query_templates ->
                      Substring p (strip (lower question)) -> p = phrase) ->
         fst (query_to_cypher chat cfg question use_llm w) = Returns (Some template))
  /\ (forall chat cfg question use_llm w template,
         Substring "company acquisitions" (strip (lower question)) ->
         In ("company acquisitions", template) query_templates ->
         fst (query_to_cypher chat cfg question use_llm w) = Returns (Some template))
  /\ (exists query,
         _rule_based_conversion
           "What companies did Apple acquire? List company acquisitions"
         = Some query
         /\ query <> default_query
         /\ forall chat cfg use_llm w template,
              In ("company acquisitions", template) query_templates ->
              fst (query_to_cypher chat cfg
                     "What companies did Apple acquire? List company acquisitions"
                     use_llm w)
              = Returns (Some template)
              /\ Some template <> Some query)
  /\ (forall chat cfg question use_llm w,
         Substring "company acquisitions" (strip (lower question)) ->
         fst (query_to_cypher chat cfg question use_llm w)
         = Returns
             (Some (NL ++ "                MATCH (c:Company)-[r:ACQUIRED]->(target)"
                    ++ NL ++ "                RETURN c.name as acquirer, target.name as acquired_company, "
                    ++ NL ++ "                       r.confidence as confidence"
                    ++ NL ++ "                ORDER BY r.confidence DESC"
                    ++ NL ++ "                LIMIT 10"
                    ++ NL ++ "            ")%string)).
Proof.
  assert (Hgen : forall llm_to_cypher rule_based_conversion cfg question use_llm w
                        before phrase template after,
            query_templates = before ++ (phrase, template) :: after ->
            Substring phrase (strip (lower question)) ->
            (forall p t, In (p, t) before -> ~ Substring p (strip (lower question))) ->
            query_to_cypher_with llm_to_cypher rule_based_conversion
              cfg question use_llm w
            = (Returns (Some template),
               {| db := db w;
                  log := log w ++ [INFO ("Using predefined template for: " ++ phrase)%string] |})).
  { intros llm rule cfg question use_llm w before phrase template after Hsplit Hsub Hfirst.
    unfold query_to_cypher_with. rewrite Hsplit.
    rewrite (first_template_at _ before phrase template after Hfirst Hsub).
    reflexivity. }
  assert (Hacq : forall chat cfg question use_llm w template,
             Substring "company acquisitions" (strip (lower question)) ->
             In ("company acquisitions", template) query_templates ->
             fst (query_to_cypher chat cfg question use_llm w)
             = Returns (Some template)).
  { intros chat cfg question use_llm w template Hsub Hin.
    unfold query_to_cypher.
    rewrite (Hgen (_llm_to_cypher chat) _rule_based_conversion cfg question
               use_llm w [] "company acquisitions" template (tl query_templates)).
    - reflexivity.
    - unfold query_templates in Hin. simpl in Hin.
      destruct Hin as [H | [H | [H | [H | []]]]]; try discriminate H.
      inversion H. reflexivity.
    - exact Hsub.
    - intros ? ? []. }
  split; [| split; [| split; [| split]]].
  - intros chat llm rule cfg question use_llm w Hex.
    destruct (first_template_exists _ _ Hex)
      as (before & phrase & template & after & Hsplit & Hsub & Hfirst).
    exists before, phrase, template, after.
    split; [exact Hsplit |]. split; [exact Hsub |]. split; [exact Hfirst |].
    split; [apply (Hgen _ _ _ _ _ _ _ _ _ _ Hsplit Hsub Hfirst) |].
    split; [unfold query_to_cypher;
            apply (Hgen _ _ _ _ _ _ _ _ _ _ Hsplit Hsub Hfirst) |].
    apply (query_templates_parameter_free phrase).
    rewrite Hsplit. apply in_or_app. right. left. reflexivity.
  - intros chat cfg question use_llm w phrase template Hin Hsub Honly.
    destruct (first_template_exists (strip (lower question)) query_templates)
      as (before & phrase' & template' & after & Hsplit & Hsub' & Hfirst).
    { exists phrase, template. split; assumption. }
    assert (Hin' : In (phrase', template') query_templates).
    { rewrite Hsplit. apply in_or_app. right. left. reflexivity. }
    assert (phrase' = phrase) by (apply (Honly phrase' template' Hin' Hsub')).
    subst phrase'.
    rewrite (query_templates_functional _ _ _ Hin Hin').
    unfold query_to_cypher.
    rewrite (Hgen _ _ cfg question use_llm w _ _ _ _ Hsplit Hsub' Hfirst).
    reflexivity.
  - exact Hacq.
  - eexists. split; [vm_compute; reflexivity |].
    split; [vm_compute; discriminate |].
    intros chat cfg use_llm w template Hin. split.
    + apply Hacq; [| exact Hin].
      exists "what companies did apple acquire? list ", EmptyString.
      vm_compute. reflexivity.
    + unfold query_templates in Hin. simpl in Hin.
      destruct Hin as [H | [H | [H | [H | []]]]]; try discriminate H.
      inversion H. vm_compute. discriminate.
  - intros chat cfg question use_llm w Hsub.
    apply Hacq; [exact Hsub | left; reflexivity].
Qed.

Lemma template_takes_precedence_witness :
  (exists phrase template,
      In (phrase, template) query_templates
      /\ Substring phrase (strip (lower " Show Company Investments ")))
  /\ exists before phrase template after,
       query_templates = before ++ (phrase, template) :: after
       /\ Substring phrase (strip (lower " Show Company Investments "))
       /\ (forall p t, In (p, t) before ->
                       ~ Substring p (strip (lower " Show Company Investments ")))
       /\ query_to_cypher_with (_llm_to_cypher Samples.no_chat)
            (fun _ => None) Samples.query_config
            " Show Company Investments " true
            {| db := empty_graph; log := [] |}
          = (Returns (Some template),
             {| db := empty_graph;
                log := [] ++ [INFO ("Using predefined template for: " ++ phrase)%string] |})
       /\ query_to_cypher Samples.no_chat Samples.query_config
            " Show Company Investments " true
            {| db := empty_graph; log := [] |}
          = (Returns (Some template),
             {| db := empty_graph;
                log := [] ++ [INFO ("Using predefined template for: " ++ phrase)%string] |})
       /\ template <> EmptyString
       /\ contains "$" template = false
       /\ startswith "MATCH" (strip template) = true.
Proof.
  assert (Hex : exists phrase template,
             In (phrase, template) query_templates
             /\ Substring phrase (strip (lower " Show Company Investments "))).
  { exists "company investments", (snd (nth 1 query_templates (EmptyString, EmptyString))).
    split.
    - right. left. reflexivity.
    - exists "show ", EmptyString. vm_compute. reflexivity. }
  split; [exact Hex |].
  exact (proj1 template_takes_precedence Samples.no_chat
           (_llm_to_cypher Samples.no_chat) (fun _ => None) Samples.query_config
           " Show Company Investments " true
           {| db := empty_graph; log := [] |} Hex).
Defined.

(** A question that contains no template phrase and matches no rule is
    translated, without the language model, to the default query; the
    world is left as it was *)
Lemma unmatched_question_gets_default_query :
  forall chat cfg question w,
    (forall p t, In (p, t) query_templates ->
                 ~ Substring p (strip (lower question))) ->
    first_rule (lower question) patterns = None ->
    query_to_cypher chat cfg question false w = (Returns (Some default_query), w).
Proof.
  intros chat cfg question w Hnone Hrules.
  unfold query_to_cypher, query_to_cypher_with.
  rewrite (first_template_none _ _ Hnone). simpl.
  unfold _rule_based_conversion. rewrite Hrules. reflexivity.
Qed.

Lemma default_query_not_empty :
  exists c rest, default_query = String c rest.
Proof. eexists. eexists. vm_compute. reflexivity. Qed.

(** For such a question [ask_question] runs the default query with an
    empty parameter mapping: the text of the question reaches the log
    only, never the store *)
Lemma ask_question_unmatched :
  forall chat cypher cfg question w,
    (forall p t, In (p, t) query_templates ->
                 ~ Substring p (strip (lower question))) ->
    first_rule (lower question) patterns = None ->
    ask_question chat cypher cfg question w
    = execute_query cypher default_query (Some [])
        {| db := db w;
           log := log w ++ [INFO ("Processing question: " ++ question)%string;
                            INFO ("Generated Cypher: " ++ default_query)%string] |}.
Proof.
  intros chat cypher cfg question w Hnone Hrules.
  unfold ask_question. unfold bind at 1. unfold logger_info at 1, emit.
  unfold bind at 1.
  rewrite (unmatched_question_gets_default_query chat cfg question _ Hnone Hrules).
  destruct default_query_not_empty as (c & rest & E). rewrite E.
  unfold bind at 1. unfold logger_info at 1, emit. simpl.
  rewrite <- app_assoc. simpl.
  unfold bind.
  destruct (execute_query cypher (String c rest) None _) as [[rows | e] w'] eqn:Ex;
    unfold execute_query in *; rewrite Ex; reflexivity.
Qed.

(** C3: the question "Apple" contains no template phrase and matches no
    rule, and [query_to_cypher] returns the default query for it.  On a
    store holding Apple -[ACQUIRED]-> DarwinAI, the default query with its
    parameter [term] bound to the question returns the row (Apple,
    RELATION, DarwinAI); [ask_question] runs the query with no parameter at
    all, the store rejects it for the missing [term], the error is logged
    and the answer is empty. *)
Theorem ask_question_leaves_term_unbound :
  fst (query_to_cypher Samples.no_chat Samples.query_config "Apple" false
         {| db := Samples.apple_graph; log := [] |})
  = Returns (Some default_query)
  /\ fst (execute_query neo4j default_query (Some [("term", Text "Apple")])
            {| db := Samples.apple_graph; log := [] |})
     = Returns [[("source", Text "Apple"); ("relationship", Text "RELATION");
                 ("target", Text "DarwinAI")]]
  /\ fst (ask_question Samples.no_chat neo4j Samples.query_config "Apple"
            {| db := Samples.apple_graph; log := [] |})
     = Returns []
  /\ In (ERROR "Query execution failed: Expected parameter(s): term")
        (log (snd (ask_question Samples.no_chat neo4j Samples.query_config "Apple"
                     {| db := Samples.apple_graph; log := [] |}))).
Proof.
  repeat split; try (vm_compute; reflexivity).
  vm_compute. right. right. left. reflexivity.
Qed.

(** C9: [execute_query] always returns: the outcome is never a raised
    exception.  When the store answers with no row the result is the empty
    list; when the store raises, the error is logged and the result is the
    empty list. *)
Theorem execute_query_never_raises :
  forall (cypher : Cypher) (query : string) (params : option Params) (w : World),
    (exists rows w', execute_query cypher query params w = (Returns rows, w'))
    /\ (forall g,
           cypher query (match params with None => [] | Some p => p end) (db w)
           = inr ([], g) ->
           execute_query cypher query params w
           = (Returns [],
              {| db := g;
                 log := log w ++ [INFO "Query executed, returned 0 records"] |}))
    /\ (forall e,
           cypher query (match params with None => [] | Some p => p end) (db w)
           = inl e ->
           execute_query cypher query params w
           = (Returns [],
              {| db := db w;
                 log := log w ++ [ERROR ("Query execution failed: "
                                         ++ exc_message e)%string] |})).
Proof.
  intros cypher query params w.
  unfold execute_query, try_except, bind, session_run.
  destruct (cypher query (match params with None => [] | Some p => p end) (db w))
    as [e | [result g]] eqn:E.
  - split; [| split].
    + eexists. eexists. reflexivity.
    + intros g Hg. discriminate Hg.
    + intros e' He. inversion He. subst. reflexivity.
  - split; [| split].
    + eexists. eexists. reflexivity.
    + intros g' Hg. inversion Hg. subst. reflexivity.
    + intros e He. discriminate He.
Qed.

Lemma execute_query_never_raises_witness :
  neo4j default_query [] empty_graph
  = inl {| exc_type := "ClientError";
           exc_message := "Expected parameter(s): term" |}
  /\ execute_query neo4j default_query None {| db := empty_graph; log := [] |}
     = (Returns [],
        {| db := empty_graph;
           log := [ERROR "Query execution failed: Expected parameter(s): term"] |}).
Proof.
  split; [vm_compute; reflexivity |].
  apply (proj2 (proj2 (execute_query_never_raises neo4j default_query None
                         {| db := empty_graph; log := [] |}))
           {| exc_type := "ClientError";
              exc_message := "Expected parameter(s): term" |}).
  vm_compute. reflexivity.
Defined.

End QueryFacts.

(** ** GraphStore: merge by identity *)

Module MergeFacts.
Import DataCleaner Neo4j Shape.
Local Open Scope list_scope.

Lemma find_index_app_l :
  forall A (p : A -> bool) l l' i,
    find_index p l = Some i -> find_index p (l ++ l') = Some i.
Proof.
  induction l as [|x l IH]; intros l' i H; simpl in *; [discriminate |].
  destruct (p x); [exact H |].
  destruct (find_index p l) as [j|]; [| discriminate].
  rewrite (IH l' j eq_refl). exact H.
Qed.

Lemma find_index_app_new :
  forall A (p : A -> bool) l x,
    find_index p l = None -> p x = true ->
    find_index p (l ++ [x]) = Some (List.length l).
Proof.
  induction l as [|y l IH]; intros x H Hx; simpl in *.
  - rewrite Hx. reflexivity.
  - destruct (p y); [discriminate |].
    destruct (find_index p l) as [j|] eqn:E; [discriminate |].
    rewrite (IH x eq_refl Hx). reflexivity.
Qed.

Lemma find_index_map :
  forall A B (f : A -> B) (p : B -> bool) l,
    find_index p (map f l) = find_index (fun x => p (f x)) l.
Proof.
  induction l as [|x l IH]; simpl; [reflexivity |].
  rewrite IH. reflexivity.
Qed.

Lemma find_index_ext :
  forall A (p q : A -> bool) l,
    Forall (fun x => p x = q x) l -> find_index p l = find_index q l.
Proof.
  induction 1 as [|x l Hx _ IH]; simpl; [reflexivity |].
  rewrite Hx, IH. reflexivity.
Qed.

Lemma map_update_at :
  forall A B (f : A -> B) (u : A -> A) i l,
    (forall x, f (u x) = f x) -> map f (update_at i u l) = map f l.
Proof.
  intros A B f u i l H. revert i.
  induction l as [|x l IH]; intros [|i]; simpl; try reflexivity.
  - rewrite H. reflexivity.
  - rewrite IH. reflexivity.
Qed.

Lemma Forall_update_at :
  forall A (P : A -> Prop) (u : A -> A) i l,
    (forall x, P x -> P (u x)) -> Forall P l -> Forall P (update_at i u l).
Proof.
  intros A P u i l H Hl. revert i.
  induction Hl as [|x l Hx Hl IH]; intros [|i]; simpl; constructor; auto.
Qed.

Section MergeLists.

Context {K : Type}.
Variable eqb : K -> K -> bool.
Hypothesis eqb_refl : forall x, eqb x x = true.

Lemma index_of_app_l :
  forall x (l l' : list K) i,
    index_of eqb x l = Some i -> index_of eqb x (l ++ l') = Some i.
Proof. intros x l l' i. apply find_index_app_l. Qed.

Lemma merge_one_found :
  forall x (l : list K),
    index_of eqb x (snd (merge_one eqb x l)) = Some (fst (merge_one eqb x l)).
Proof.
  intros x l. unfold merge_one.
  destruct (index_of eqb x l) as [i|] eqn:E; simpl.
  - exact E.
  - apply find_index_app_new; [exact E | apply eqb_refl].
Qed.

Lemma merge_one_stable :
  forall x y (l : list K) j,
    index_of eqb y l = Some j ->
    index_of eqb y (snd (merge_one eqb x l)) = Some j.
Proof.
  intros x y l j H. unfold merge_one.
  destruct (index_of eqb x l); simpl; [exact H |].
  apply index_of_app_l. exact H.
Qed.

Lemma merge_all_stable :
  forall xs y (l : list K) j,
    index_of eqb y l = Some j ->
    index_of eqb y (snd (merge_all eqb xs l)) = Some j.
Proof.
  induction xs as [|x xs IH]; intros y l j H; simpl; [exact H |].
  pose proof (merge_one_stable x y l j H) as H1.
  destruct (merge_one eqb x l) as [i l1]. simpl in H1.
  specialize (IH y l1 j H1).
  destruct (merge_all eqb xs l1) as [ids l2]. exact IH.
Qed.

Lemma merge_all_found :
  forall xs (l : list K),
    Forall2 (fun x i => index_of eqb x (snd (merge_all eqb xs l)) = Some i)
            xs (fst (merge_all eqb xs l)).
Proof.
  induction xs as [|x xs IH]; intros l; simpl; [constructor |].
  pose proof (merge_one_found x l) as H1.
  destruct (merge_one eqb x l) as [i l1]. simpl in H1.
  specialize (IH l1).
  pose proof (merge_all_stable xs x l1 i H1) as H2.
  destruct (merge_all eqb xs l1) as [ids l2]. simpl in *.
  constructor; assumption.
Qed.

Lemma merge_all_present :
  forall xs (l : list K),
    (forall x, In x xs -> index_of eqb x l <> None) ->
    snd (merge_all eqb xs l) = l.
Proof.
  induction xs as [|x xs IH]; intros l H; simpl; [reflexivity |].
  unfold merge_one.
  destruct (index_of eqb x l) as [i|] eqn:E.
  - specialize (IH l (fun y Hy => H y (or_intror Hy))).
    destruct (merge_all eqb xs l) as [ids l2]. exact IH.
  - exfalso. apply (H x); [left; reflexivity | exact E].
Qed.

End MergeLists.

Lemma key_eqb_refl : forall k, key_eqb k k = true.
Proof.
  intros [[h t] rel]. unfold key_eqb. simpl.
  rewrite !Nat.eqb_refl, String.eqb_refl. reflexivity.
Qed.

Lemma Forall2_stable :
  forall (xs : list string) ids (l l' : list string),
    (forall y j, index_of String.eqb y l = Some j ->
                 index_of String.eqb y l' = Some j) ->
    Forall2 (fun x i => index_of String.eqb x l = Some i) xs ids ->
    Forall2 (fun x i => index_of String.eqb x l' = Some i) xs ids.
Proof.
  intros xs ids l l' H F. induction F; constructor; auto.
Qed.

(** The three passes of the statement bind, for every record, its two end
    points and its relationship *)
Lemma bound_per_record :
  forall (payload : list (Triplet string)) hs ts
         (P Q : string -> nat -> Prop) (R : nat * nat * string -> Prop),
    Forall2 P (map head payload) hs ->
    Forall2 Q (map tail payload) ts ->
    Forall R (combine (combine hs ts) (map relation payload)) ->
    forall t, In t payload ->
      exists h tl, P (head t) h /\ Q (tail t) tl /\ R (h, tl, relation t).
Proof.
  induction payload as [|u payload IH]; intros hs ts P Q R FP FQ FR t Hin.
  - contradiction.
  - simpl in FP, FQ. inversion FP as [|? h ? hs' Ph FP']; subst.
    inversion FQ as [|? tl ? ts' Qt FQ']; subst.
    simpl in FR. inversion FR as [|? ? Rk FR']; subst.
    destruct Hin as [<- | Hin].
    + exists h, tl. auto.
    + apply (IH hs' ts' P Q R FP' FQ' FR' t Hin).
Qed.

Lemma keys_per_record :
  forall (payload : list (Triplet string)) hs ts
         (P Q : string -> nat -> Prop) (R : nat * nat * string -> Prop),
    Forall2 P (map head payload) hs ->
    Forall2 Q (map tail payload) ts ->
    (forall t h tl, In t payload -> P (head t) h -> Q (tail t) tl ->
                    R (h, tl, relation t)) ->
    forall k, In k (combine (combine hs ts) (map relation payload)) -> R k.
Proof.
  induction payload as [|u payload IH]; intros hs ts P Q R FP FQ H k Hin.
  - simpl in FP. inversion FP; subst. contradiction.
  - simpl in FP, FQ. inversion FP as [|? h ? hs' Ph FP']; subst.
    inversion FQ as [|? tl ? ts' Qt FQ']; subst.
    simpl in Hin. destruct Hin as [<- | Hin].
    + apply (H u h tl); auto. left. reflexivity.
    + apply (IH hs' ts' P Q R FP' FQ'); [| exact Hin].
      intros t h' tl' Ht. apply H. right. exact Ht.
Qed.

Lemma Forall2_found :
  forall (ks : list (nat * nat * string)) ids l,
    Forall2 (fun k i => index_of key_eqb k l = Some i) ks ids ->
    Forall (fun k => index_of key_eqb k l <> None) ks.
Proof.
  intros ks ids l F. induction F as [|k i ks ids H F IH]; constructor.
  - rewrite H. discriminate.
  - exact IH.
Qed.

Lemma import_shape_covers :
  forall payload s t, In t payload -> covers (import_shape payload s) t.
Proof.
  intros payload [ns ks] t Hin. unfold import_shape. simpl.
  pose proof (merge_all_found String.eqb String.eqb_refl (map head payload) ns) as F1.
  destruct (merge_all String.eqb (map head payload) ns) as [hs n1]. simpl in F1.
  pose proof (merge_all_found String.eqb String.eqb_refl (map tail payload) n1) as F2.
  pose proof (fun y j => merge_all_stable String.eqb (map tail payload) y n1 j) as St.
  destruct (merge_all String.eqb (map tail payload) n1) as [ts n2]. simpl in F2, St.
  pose proof (merge_all_found key_eqb key_eqb_refl
                (combine (combine hs ts) (map relation payload)) ks) as F3.
  destruct (merge_all key_eqb (combine (combine hs ts) (map relation payload)) ks)
    as [rs k1]. simpl in F3.
  apply Forall2_found in F3.
  apply (Forall2_stable _ _ n1 n2) in F1; [| intros y j; apply St].
  destruct (bound_per_record payload hs ts _ _ _ F1 F2 F3 t Hin)
    as (h & tl & Hh & Ht & Hr).
  exists h, tl. simpl. auto.
Qed.

Lemma import_shape_stable :
  forall payload s t, covers s t -> covers (import_shape payload s) t.
Proof.
  intros payload [ns ks] t (h & tl & Hh & Ht & Hr). simpl in *.
  unfold import_shape. simpl.
  pose proof (merge_all_stable String.eqb (map head payload) (head t) ns h Hh) as Hh1.
  pose proof (merge_all_stable String.eqb (map head payload) (tail t) ns tl Ht) as Ht1.
  destruct (merge_all String.eqb (map head payload) ns) as [hs n1]. simpl in *.
  pose proof (merge_all_stable String.eqb (map tail payload) (head t) n1 h Hh1) as Hh2.
  pose proof (merge_all_stable String.eqb (map tail payload) (tail t) n1 tl Ht1) as Ht2.
  destruct (merge_all String.eqb (map tail payload) n1) as [ts n2]. simpl in *.
  destruct (index_of key_eqb (h, tl, relation t) ks) as [r|] eqn:Er;
    [| contradiction Hr; reflexivity].
  pose proof (merge_all_stable key_eqb
                (combine (combine hs ts) (map relation payload)) _ ks r Er) as Hr3.
  destruct (merge_all key_eqb (combine (combine hs ts) (map relation payload)) ks)
    as [rs k1]. simpl in *.
  exists h, tl. simpl. rewrite Hh2, Ht2, Hr3. repeat split. discriminate.
Qed.

Lemma import_shape_fixed :
  forall payload s,
    (forall t, In t payload -> covers s t) -> import_shape payload s = s.
Proof.
  intros payload [ns ks] Hcov. unfold import_shape. simpl.
  assert (Hheads : forall x, In x (map head payload) ->
                             index_of String.eqb x ns <> None).
  { intros x Hx. apply in_map_iff in Hx. destruct Hx as (t & <- & Ht).
    destruct (Hcov t Ht) as (h & _ & Hh & _). simpl in Hh. rewrite Hh. discriminate. }
  assert (Htails : forall x, In x (map tail payload) ->
                             index_of String.eqb x ns <> None).
  { intros x Hx. apply in_map_iff in Hx. destruct Hx as (t & <- & Ht).
    destruct (Hcov t Ht) as (_ & tl & _ & Htl & _). simpl in Htl. rewrite Htl. discriminate. }
  pose proof (merge_all_found String.eqb String.eqb_refl (map head payload) ns) as F1.
  pose proof (merge_all_present String.eqb (map head payload) ns Hheads) as E1.
  destruct (merge_all String.eqb (map head payload) ns) as [hs n1].
  simpl in F1, E1. subst n1.
  pose proof (merge_all_found String.eqb String.eqb_refl (map tail payload) ns) as F2.
  pose proof (merge_all_present String.eqb (map tail payload) ns Htails) as E2.
  destruct (merge_all String.eqb (map tail payload) ns) as [ts n2].
  simpl in F2, E2. subst n2.
  assert (Hkeys : forall k, In k (combine (combine hs ts) (map relation payload)) ->
                            index_of key_eqb k ks <> None).
  { apply (keys_per_record payload hs ts _ _ _ F1 F2).
    intros t h tl Ht Hh Htl.
    destruct (Hcov t Ht) as (h' & tl' & Hh' & Htl' & Hr). simpl in *.
    rewrite Hh in Hh'. rewrite Htl in Htl'.
    inversion Hh'. inversion Htl'. subst. exact Hr. }
  pose proof (merge_all_present key_eqb _ ks Hkeys) as E3.
  destruct (merge_all key_eqb (combine (combine hs ts) (map relation payload)) ks)
    as [rs k1]. simpl in E3. subst k1. reflexivity.
Qed.

Lemma import_step_stable :
  forall payload s t, covers s t -> covers (import_step s payload) t.
Proof.
  intros payload s t H. unfold import_step.
  destruct (forallb labels_are_text payload); [| exact H].
  apply import_shape_stable. exact H.
Qed.

Lemma fold_import_stable :
  forall batches s t,
    covers s t -> covers (fold_left import_step batches s) t.
Proof.
  induction batches as [|b batches IH]; intros s t H; simpl; [exact H |].
  apply IH. apply import_step_stable. exact H.
Qed.

Lemma fold_import_covers :
  forall batches s b t,
    In b batches -> forallb labels_are_text b = true -> In t b ->
    covers (fold_left import_step batches s) t.
Proof.
  induction batches as [|b0 batches IH]; intros s b t Hb Hok Ht; [contradiction |].
  simpl. destruct Hb as [-> | Hb].
  - apply fold_import_stable. unfold import_step. rewrite Hok.
    apply import_shape_covers. exact Ht.
  - apply (IH _ b t Hb Hok Ht).
Qed.

Lemma fold_import_fixed :
  forall batches s,
    (forall b t, In b batches -> forallb labels_are_text b = true -> In t b ->
                 covers s t) ->
    fold_left import_step batches s = s.
Proof.
  induction batches as [|b batches IH]; intros s H; simpl; [reflexivity |].
  assert (E : import_step s b = s).
  { unfold import_step. destruct (forallb labels_are_text b) eqn:Hok; [| reflexivity].
    apply import_shape_fixed. intros t Ht. apply (H b t); auto. left. reflexivity. }
  rewrite E. apply IH. intros b' t Hb'. apply H. right. exact Hb'.
Qed.

(** Importing the same batches again changes no identity *)
Lemma fold_import_idempotent :
  forall batches s,
    fold_left import_step batches (fold_left import_step batches s)
    = fold_left import_step batches s.
Proof.
  intros batches s. apply fold_import_fixed.
  intros b t Hb Hok Ht. apply (fold_import_covers batches s b t Hb Hok Ht).
Qed.

End MergeFacts.

(** ** GraphStore: the statements on the identities *)

Module GraphFacts.
Import DataCleaner Neo4j Shape MergeFacts.
Local Open Scope string_scope.
Local Open Scope list_scope.

Lemma find_entity_index_of :
  forall nm g,
    AllEntities g -> find_entity nm g = index_of String.eqb nm (names g).
Proof.
  intros nm g H. unfold find_entity, index_of, names.
  rewrite find_index_map. apply find_index_ext.
  unfold AllEntities in H. induction H as [|n l Hn _ IH]; constructor.
  - unfold is_entity. rewrite Hn. reflexivity.
  - exact IH.
Qed.

Lemma find_relation_index_of :
  forall h t rel g,
    find_relation h t rel g = index_of key_eqb (h, t, rel) (rel_keys g).
Proof.
  intros h t rel g. unfold find_relation, index_of, rel_keys.
  rewrite find_index_map. reflexivity.
Qed.

Lemma merge_entity_shape :
  forall nm g,
    AllEntities g ->
    AllEntities (snd (merge_entity nm g))
    /\ (fst (merge_entity nm g), names (snd (merge_entity nm g)))
       = merge_one String.eqb nm (names g)
    /\ rel_keys (snd (merge_entity nm g)) = rel_keys g.
Proof.
  intros nm g H. unfold merge_entity, merge_one.
  rewrite (find_entity_index_of nm g H).
  destruct (index_of String.eqb nm (names g)) as [i|]; simpl.
  - auto.
  - split; [| split].
    + unfold AllEntities. simpl. apply Forall_app. split; [exact H |].
      constructor; [reflexivity | constructor].
    + unfold names. simpl. rewrite length_map, map_app. reflexivity.
    + reflexivity.
Qed.

Lemma merge_entities_shape :
  forall xs g,
    AllEntities g ->
    AllEntities (snd (merge_entities xs g))
    /\ (fst (merge_entities xs g), names (snd (merge_entities xs g)))
       = merge_all String.eqb xs (names g)
    /\ rel_keys (snd (merge_entities xs g)) = rel_keys g.
Proof.
  induction xs as [|x xs IH]; intros g H; simpl.
  - auto.
  - destruct (merge_entity_shape x g H) as (H1 & E1 & K1).
    destruct (merge_entity x g) as [i g1]. simpl in *.
    rewrite <- E1.
    destruct (IH g1 H1) as (H2 & E2 & K2).
    destruct (merge_entities xs g1) as [ids g2]. simpl in *.
    rewrite <- E2. rewrite K2, K1. auto.
Qed.

Lemma set_types_shape :
  forall bound g,
    AllEntities g ->
    AllEntities (set_types bound g)
    /\ names (set_types bound g) = names g
    /\ rel_keys (set_types bound g) = rel_keys g.
Proof.
  induction bound as [|[i ty] bound IH]; intros g H; simpl; [auto |].
  destruct (IH (with_nodes (update_at i (set_type ty) (nodes g)) g))
    as (H1 & E1 & K1).
  - unfold AllEntities. simpl. apply Forall_update_at; [| exact H].
    intros n Hn. exact Hn.
  - split; [exact H1 |]. rewrite E1, K1. split; [| reflexivity].
    unfold names. simpl. apply map_update_at. reflexivity.
Qed.

Lemma has_label_add_type_label :
  forall l n, has_label l n = true -> has_label l (add_type_label n) = true.
Proof.
  intros l n H. unfold add_type_label.
  destruct (n_type n) as [ty|]; [| exact H].
  destruct (has_label ty n); [exact H |].
  unfold has_label in *. simpl. rewrite existsb_app, H. reflexivity.
Qed.

Lemma n_name_add_type_label :
  forall n, n_name (add_type_label n) = n_name n.
Proof.
  intros n. unfold add_type_label.
  destruct (n_type n) as [ty|]; [| reflexivity].
  destruct (has_label ty n); reflexivity.
Qed.

Lemma add_type_labels_shape :
  forall bound g,
    AllEntities g ->
    AllEntities (add_type_labels bound g)
    /\ names (add_type_labels bound g) = names g
    /\ rel_keys (add_type_labels bound g) = rel_keys g.
Proof.
  induction bound as [|i bound IH]; intros g H; simpl; [auto |].
  destruct (IH (with_nodes (update_at i add_type_label (nodes g)) g))
    as (H1 & E1 & K1).
  - unfold AllEntities. simpl. apply Forall_update_at; [| exact H].
    intros n Hn. apply has_label_add_type_label. exact Hn.
  - split; [exact H1 |]. rewrite E1, K1. split; [| reflexivity].
    unfold names. simpl. apply map_update_at. apply n_name_add_type_label.
Qed.

Lemma merge_relation_shape :
  forall h t rel g,
    nodes (snd (merge_relation h t rel g)) = nodes g
    /\ (fst (merge_relation h t rel g), rel_keys (snd (merge_relation h t rel g)))
       = merge_one key_eqb (h, t, rel) (rel_keys g).
Proof.
  intros h t rel g. unfold merge_relation, merge_one.
  rewrite find_relation_index_of.
  destruct (index_of key_eqb (h, t, rel) (rel_keys g)) as [i|]; simpl.
  - auto.
  - split; [reflexivity |].
    unfold rel_keys. simpl. rewrite length_map, map_app. reflexivity.
Qed.

Lemma merge_relations_shape :
  forall bound g,
    nodes (snd (merge_relations bound g)) = nodes g
    /\ (fst (merge_relations bound g), rel_keys (snd (merge_relations bound g)))
       = merge_all key_eqb bound (rel_keys g).
Proof.
  induction bound as [|[[h t] rel] bound IH]; intros g; simpl; [auto |].
  destruct (merge_relation_shape h t rel g) as (N1 & E1).
  destruct (merge_relation h t rel g) as [i g1]. simpl in *.
  rewrite <- E1.
  destruct (IH g1) as (N2 & E2).
  destruct (merge_relations bound g1) as [ids g2]. simpl in *.
  rewrite <- E2. rewrite N2, N1. auto.
Qed.

Lemma set_relation_properties_shape :
  forall bound g,
    nodes (set_relation_properties bound g) = nodes g
    /\ rel_keys (set_relation_properties bound g) = rel_keys g.
Proof.
  induction bound as [|[i c] bound IH]; intros g; simpl; [auto |].
  destruct (IH (with_relationships
                  (update_at i (set_properties c (clock g)) (relationships g)) g))
    as (N1 & K1).
  rewrite N1, K1. split; [reflexivity |].
  unfold rel_keys. simpl. apply map_update_at. reflexivity.
Qed.

(** The import statement acts on the identities as [import_shape] *)
Lemma import_clauses_shape :
  forall payload g,
    AllEntities g ->
    AllEntities (import_clauses payload g)
    /\ shape (import_clauses payload g) = import_shape payload (shape g).
Proof.
  intros payload g H. unfold import_clauses, import_shape, shape. simpl.
  destruct (merge_entities_shape (map head payload) g H) as (H1 & E1 & K1).
  destruct (merge_entities (map head payload) g) as [hs g1]. simpl in *.
  rewrite <- E1.
  destruct (set_types_shape (combine hs (map head_type payload)) g1 H1)
    as (H2 & E2 & K2).
  set (g2 := set_types (combine hs (map head_type payload)) g1) in *.
  destruct (merge_entities_shape (map tail payload) g2 H2) as (H3 & E3 & K3).
  destruct (merge_entities (map tail payload) g2) as [ts g3]. simpl in *.
  rewrite <- E2, <- E3.
  destruct (set_types_shape (combine ts (map tail_type payload)) g3 H3)
    as (H4 & E4 & K4).
  set (g4 := set_types (combine ts (map tail_type payload)) g3) in *.
  destruct (add_type_labels_shape hs g4 H4) as (H5 & E5 & K5).
  set (g5 := add_type_labels hs g4) in *.
  destruct (add_type_labels_shape ts g5 H5) as (H6 & E6 & K6).
  set (g6 := add_type_labels ts g5) in *.
  destruct (merge_relations_shape
              (combine (combine hs ts) (map relation payload)) g6) as (N7 & E7).
  assert (K : rel_keys g6 = rel_keys g) by congruence.
  rewrite <- K, <- E7.
  destruct (merge_relations (combine (combine hs ts) (map relation payload)) g6)
    as [rs g7]. simpl in *.
  destruct (set_relation_properties_shape
              (combine rs (map confidence payload)) g7) as (N8 & K8).
  split.
  - unfold AllEntities. rewrite N8, N7. exact H6.
  - rewrite K8. unfold names. rewrite N8, N7.
    fold (names g6). rewrite E6, E5, E4. reflexivity.
Qed.

Lemma import_batch_db_shape :
  forall payload g,
    AllEntities g ->
    AllEntities (import_batch_db payload g)
    /\ shape (import_batch_db payload g) = import_step (shape g) payload.
Proof.
  intros payload g H. unfold import_batch_db, run_import, import_step.
  destruct (forallb labels_are_text payload).
  - apply (import_clauses_shape payload (tick g)). exact H.
  - split; [exact H | reflexivity].
Qed.

End GraphFacts.

(** ** GraphStore: building twice *)

Module BuildFacts.
Import DataCleaner Neo4j Py Neo4jGraphBuilder Shape MergeFacts GraphFacts.
Local Open Scope string_scope.
Local Open Scope list_scope.

Lemma runs_ret : runs (ret tt) (fun g => g).
Proof. intros w. split; reflexivity. Qed.

Lemma runs_emit : forall r, runs (emit r) (fun g => g).
Proof. intros r w. split; reflexivity. Qed.

Lemma runs_session_update : forall stmt, runs (session_update stmt) stmt.
Proof. intros stmt w. split; reflexivity. Qed.

Lemma runs_bind :
  forall (m k : Py unit) f g,
    runs m f -> runs k g -> runs (bind m (fun _ => k)) (fun x => g (f x)).
Proof.
  intros m k f g Hm Hk w. unfold bind.
  destruct (Hm w) as [Hr Hd].
  destruct (m w) as [[[]|e] w1]; simpl in *; [| discriminate].
  destruct (Hk w1) as [Hr' Hd']. rewrite <- Hd. auto.
Qed.

Lemma runs_ext :
  forall (m : Py unit) f g, runs m f -> (forall x, f x = g x) -> runs m g.
Proof.
  intros m f g H E w. destruct (H w) as [Hr Hd]. rewrite <- E. auto.
Qed.

Lemma runs_for_each :
  forall A (body : A -> Py unit) (F : A -> Graph -> Graph) xs,
    (forall x, runs (body x) (F x)) ->
    runs (for_each xs body) (fun g => fold_left (fun g x => F x g) xs g).
Proof.
  intros A body F xs H. induction xs as [|x xs IH]; simpl.
  - apply runs_ret.
  - apply (runs_bind _ _ _ _ (H x) IH).
Qed.

Lemma runs_import_batch :
  forall batch,
    runs (_import_batch batch)
         (import_batch_db (map (triplet_data batch) (rows batch))).
Proof.
  intros batch w. unfold _import_batch, try_except, session_try, import_batch_db.
  destruct (run_import (map (triplet_data batch) (rows batch)) (db w));
    split; reflexivity.
Qed.

Lemma runs_clear_database : runs clear_database run_clear.
Proof.
  unfold clear_database.
  apply (runs_bind _ _ _ _ (runs_emit _)
           (runs_bind _ _ _ _ (runs_session_update run_clear) (runs_emit _))).
Qed.

Lemma runs_create_constraints : runs _create_constraints create_constraints_db.
Proof.
  unfold _create_constraints, create_constraints_db.
  apply (runs_bind _ _ _ _ (runs_session_update _)
          (runs_bind _ _ _ _ (runs_session_update _)
            (runs_bind _ _ _ _ (runs_session_update _)
              (runs_bind _ _ _ _ (runs_session_update _) (runs_emit _))))).
Qed.

Lemma fold_left_map :
  forall A B C (f : C -> B -> C) (h : A -> B) l c,
    fold_left f (map h l) c = fold_left (fun c x => f c (h x)) l c.
Proof.
  induction l as [|x l IH]; intros c; simpl; [reflexivity | apply IH].
Qed.

(** [build_graph] always returns, and acts on the database as [build_db] *)
Lemma runs_build_graph :
  forall df clear_existing,
    runs (build_graph df clear_existing) (build_db df clear_existing).
Proof.
  intros df clear_existing. unfold build_graph, build_db.
  destruct (empty df); [apply runs_emit |].
  eapply runs_ext.
  - eapply runs_bind; [apply runs_emit |].
    eapply runs_bind.
    + instantiate (1 := fun g => if clear_existing then run_clear g else g).
      destruct clear_existing; [apply runs_clear_database | apply runs_ret].
    + eapply runs_bind; [apply runs_create_constraints |].
      eapply runs_bind; [| apply runs_emit].
      apply runs_for_each with
        (F := fun i => import_batch_db
                         (map (triplet_data (iloc i (i + 100) df))
                              (rows (iloc i (i + 100) df)))).
      intros i. eapply runs_ext.
      * eapply runs_bind; [apply runs_import_batch | apply runs_emit].
      * reflexivity.
  - intros g. simpl. unfold payloads. rewrite fold_left_map. reflexivity.
Qed.

Lemma fold_import_batch_shape :
  forall batches g,
    AllEntities g ->
    AllEntities (fold_left (fun g p => import_batch_db p g) batches g)
    /\ shape (fold_left (fun g p => import_batch_db p g) batches g)
       = fold_left import_step batches (shape g).
Proof.
  induction batches as [|b batches IH]; intros g H; simpl; [auto |].
  destruct (import_batch_db_shape b g H) as [H1 E1].
  destruct (IH _ H1) as [H2 E2]. rewrite <- E1. auto.
Qed.

Lemma payloads_empty :
  forall df, empty df = true -> payloads df = [].
Proof.
  intros df H. unfold payloads, empty in *.
  destruct (rows df); [reflexivity | discriminate].
Qed.

(** Without clearing, [build_graph] acts on the identities as the import
    of its payloads, one after the other *)
Lemma build_db_shape :
  forall df g,
    AllEntities g ->
    AllEntities (build_db df false g)
    /\ shape (build_db df false g) = fold_left import_step (payloads df) (shape g).
Proof.
  intros df g H. unfold build_db.
  destruct (empty df) eqn:E.
  - rewrite (payloads_empty df E). auto.
  - apply (fold_import_batch_shape (payloads df) (create_constraints_db g)).
    exact H.
Qed.

End BuildFacts.

(** ** Keyed stores *)

Module KeyedFacts.
Import Neo4j Keyed MergeFacts.
Local Open Scope list_scope.

Lemma find_index_Some :
  forall A (p : A -> bool) l j,
    find_index p l = Some j ->
    exists a, nth_error l j = Some a /\ p a = true /\ find p l = Some a.
Proof.
  induction l as [|x l IH]; intros j H; simpl in *; [discriminate |].
  destruct (p x) eqn:Hx.
  - inversion H; subst. exists x. auto.
  - destruct (find_index p l) as [i|]; [| discriminate].
    inversion H; subst. simpl. apply IH. reflexivity.
Qed.

Lemma find_index_None :
  forall A (p : A -> bool) l, find_index p l = None -> find p l = None.
Proof.
  induction l as [|x l IH]; intros H; simpl in *; [reflexivity |].
  destruct (p x); [discriminate |].
  destruct (find_index p l); [discriminate | apply IH; reflexivity].
Qed.

Lemma find_index_update_at :
  forall A (p : A -> bool) (f : A -> A) j l,
    (forall a, p (f a) = p a) ->
    find_index p (update_at j f l) = find_index p l.
Proof.
  intros A p f j l H. revert j.
  induction l as [|x l IH]; intros [|j]; simpl; try reflexivity.
  - rewrite H. reflexivity.
  - rewrite IH. reflexivity.
Qed.

Lemma find_update_at_same :
  forall A (p : A -> bool) (f : A -> A) j l,
    (forall a, p (f a) = p a) ->
    find_index p l = Some j ->
    find p (update_at j f l) = option_map f (find p l).
Proof.
  intros A p f j l H. revert j.
  induction l as [|x l IH]; intros j Hj; simpl in *; [discriminate |].
  destruct (p x) eqn:Hx.
  - inversion Hj; subst. simpl. rewrite H, Hx. reflexivity.
  - destruct (find_index p l) as [i|] eqn:E; [| discriminate].
    inversion Hj; subst. simpl. rewrite Hx. apply IH. reflexivity.
Qed.

Lemma find_update_at_other :
  forall A (p q : A -> bool) (f : A -> A) j l,
    (forall a, p (f a) = p a) ->
    find_index q l = Some j ->
    (forall a, q a = true -> p a = false) ->
    find p (update_at j f l) = find p l.
Proof.
  intros A p q f j l H. revert j.
  induction l as [|x l IH]; intros j Hj Hpq; simpl in *; [discriminate |].
  destruct (q x) eqn:Hx.
  - inversion Hj; subst. simpl. rewrite H, (Hpq x Hx). reflexivity.
  - destruct (find_index q l) as [i|] eqn:E; [| discriminate].
    inversion Hj; subst. simpl.
    destruct (p x); [reflexivity |]. apply (IH i eq_refl Hpq).
Qed.

Lemma find_app_new :
  forall A (p : A -> bool) l x,
    find p (l ++ [x])
    = match find p l with
      | Some a => Some a
      | None => if p x then Some x else None
      end.
Proof.
  induction l as [|y l IH]; intros x; simpl.
  - destruct (p x); reflexivity.
  - destruct (p y); [reflexivity | apply IH].
Qed.

Section StoreFacts.

Context {A K Op : Type}.
Variable key : A -> K.
Variable eqb : K -> K -> bool.
Variable fresh : K -> A.
Variable interp : Op -> A -> A.

Hypothesis eqb_eq : forall x y, eqb x y = true <-> x = y.
Hypothesis key_fresh : forall k, key (fresh k) = k.
Hypothesis key_interp : forall op a, key (interp op a) = key a.

Lemma eqb_same : forall x, eqb x x = true.
Proof. intros x. apply eqb_eq. reflexivity. Qed.

Lemma position_item_None :
  forall k l, position key eqb k l = None -> item key eqb k l = None.
Proof. intros k l. apply find_index_None. Qed.

Lemma position_item_Some :
  forall k l j, position key eqb k l = Some j ->
    exists a, item key eqb k l = Some a /\ key a = k.
Proof.
  intros k l j H. destruct (find_index_Some _ _ _ _ H) as (a & _ & Hp & Hf).
  exists a. split; [exact Hf | apply eqb_eq; exact Hp].
Qed.

(** An instruction acts on the item of every key as [effect] says *)
Lemma item_step :
  forall y l i,
    item key eqb y (step key eqb fresh interp l i)
    = effect eqb fresh interp y (item key eqb y l) i.
Proof.
  intros y l [k | k op]; simpl.
  - destruct (position key eqb k l) as [j|] eqn:E.
    + destruct (eqb k y) eqn:Hk; [| reflexivity].
      apply eqb_eq in Hk. subst y.
      destruct (position_item_Some k l j E) as (a & Ha & _).
      rewrite Ha. reflexivity.
    + unfold item. rewrite find_app_new. fold (item key eqb y l).
      rewrite key_fresh.
      destruct (eqb k y) eqn:Hk.
      * apply eqb_eq in Hk. subst y.
        rewrite (position_item_None k l E). reflexivity.
      * destruct (item key eqb y l); reflexivity.
  - destruct (position key eqb k l) as [j|] eqn:E.
    + destruct (eqb k y) eqn:Hk.
      * apply eqb_eq in Hk. subst y.
        apply find_update_at_same; [| exact E].
        intros a. rewrite key_interp. reflexivity.
      * apply (find_update_at_other _ _ (fun a => eqb (key a) k));
          [| exact E |].
        -- intros a. rewrite key_interp. reflexivity.
        -- intros a Ha. apply eqb_eq in Ha. rewrite Ha. exact Hk.
    + destruct (eqb k y) eqn:Hk; [| reflexivity].
      apply eqb_eq in Hk. subst y.
      rewrite (position_item_None k l E). reflexivity.
Qed.

Lemma item_run :
  forall y prog l,
    item key eqb y (run key eqb fresh interp prog l)
    = effects eqb fresh interp y prog (item key eqb y l).
Proof.
  intros y prog. unfold run, effects.
  induction prog as [|i prog IH]; intros l; simpl; [reflexivity |].
  rewrite IH, item_step. reflexivity.
Qed.

Lemma keys_step :
  forall l i,
    map key (step key eqb fresh interp l i)
    = match i with
      | Merge k =>
          match position key eqb k l with
          | Some _ => map key l
          | None => map key l ++ [k]
          end
      | Update _ _ => map key l
      end.
Proof.
  intros l [k | k op]; simpl.
  - destruct (position key eqb k l); [reflexivity |].
    rewrite map_app. simpl. rewrite key_fresh. reflexivity.
  - destruct (position key eqb k l); [| reflexivity].
    apply map_update_at. intros a. apply key_interp.
Qed.

Lemma position_absent :
  forall k l, position key eqb k l = None -> ~ In k (map key l).
Proof.
  intros k l H Hin. apply in_map_iff in Hin. destruct Hin as (a & Hk & Ha).
  unfold position in H. revert H. clear - Ha Hk eqb_eq.
  induction l as [|x l IH]; simpl; [contradiction |].
  destruct Ha as [-> | Ha].
  - rewrite Hk, (proj2 (eqb_eq k k) eq_refl). discriminate.
  - destruct (eqb (key x) k); [discriminate |].
    intros H. destruct (find_index (fun a0 => eqb (key a0) k) l) eqn:E;
      [discriminate |]. apply IH; [exact Ha | reflexivity].
Qed.

Lemma NoDup_keys_run :
  forall prog l,
    NoDup (map key l) -> NoDup (map key (run key eqb fresh interp prog l)).
Proof.
  unfold run.
  induction prog as [|i prog IH]; intros l H; simpl; [exact H |].
  apply IH. rewrite keys_step.
  destruct i as [k | k op]; [| exact H].
  destruct (position key eqb k l) eqn:E; [exact H |].
  apply NoDup_app; [exact H | constructor; [intros [] | constructor] |].
  intros a Ha [<- | []]. apply (position_absent k l E Ha).
Qed.

Lemma position_step :
  forall k l i j,
    position key eqb k l = Some j ->
    position key eqb k (step key eqb fresh interp l i) = Some j.
Proof.
  intros k l [k' | k' op] j H; simpl.
  - destruct (position key eqb k' l); [exact H |].
    apply find_index_app_l. exact H.
  - destruct (position key eqb k' l); [| exact H].
    unfold position. rewrite find_index_update_at; [exact H |].
    intros a. rewrite key_interp. reflexivity.
Qed.

Lemma position_run :
  forall k prog l j,
    position key eqb k l = Some j ->
    position key eqb k (run key eqb fresh interp prog l) = Some j.
Proof.
  intros k prog. unfold run.
  induction prog as [|i prog IH]; intros l j H; simpl; [exact H |].
  apply IH. apply position_step. exact H.
Qed.

Lemma run_app :
  forall p q l,
    run key eqb fresh interp (p ++ q) l
    = run key eqb fresh interp q (run key eqb fresh interp p l).
Proof. intros p q l. unfold run. apply fold_left_app. Qed.

Lemma item_absent :
  forall k l, ~ In k (map key l) -> item key eqb k l = None.
Proof.
  intros k l H. unfold item.
  induction l as [|x l IH]; simpl; [reflexivity |].
  destruct (eqb (key x) k) eqn:E.
  - exfalso. apply H. left. apply eqb_eq. exact E.
  - apply IH. intros Hin. apply H. right. exact Hin.
Qed.

(** Two stores with the same keys, each once, whose items agree under
    [phi] key by key, agree under [phi] item by item *)
Lemma store_ext :
  forall B (phi : A -> B) l l',
    map key l = map key l' ->
    NoDup (map key l) ->
    (forall y, option_map phi (item key eqb y l)
               = option_map phi (item key eqb y l')) ->
    map phi l = map phi l'.
Proof.
  intros B phi. induction l as [|a l IH]; intros l' Hk Hnd Hit.
  - destruct l'; [reflexivity | discriminate].
  - destruct l' as [|a' l']; [discriminate |].
    simpl in Hk. inversion Hk as [[Ha Hl]].
    inversion Hnd as [|? ? Hnotin Hnd']; subst.
    simpl. f_equal.
    + specialize (Hit (key a)). unfold item in Hit. simpl in Hit.
      rewrite <- Ha in Hit. rewrite !eqb_same in Hit.
      inversion Hit. reflexivity.
    + apply IH; [exact Hl | exact Hnd' |].
      intros y. specialize (Hit y). unfold item in Hit. simpl in Hit.
      rewrite <- Ha in Hit.
      destruct (eqb (key a) y) eqn:E; [| exact Hit].
      apply eqb_eq in E. subst y.
      rewrite (item_absent (key a) l Hnotin).
      rewrite (item_absent (key a) l'); [reflexivity |].
      rewrite <- Hl. exact Hnotin.
Qed.

Lemma effects_app :
  forall y p q a,
    effects eqb fresh interp y (p ++ q) a
    = effects eqb fresh interp y q (effects eqb fresh interp y p a).
Proof. intros y p q a. unfold effects. apply fold_left_app. Qed.

Lemma ops_of_app :
  forall y (p q : list (@Instr K Op)),
    ops_of eqb y (p ++ q) = ops_of eqb y p ++ ops_of eqb y q.
Proof. intros y p q. unfold ops_of. apply flat_map_app. Qed.

Lemma run_ops_app :
  forall o1 o2 a,
    run_ops interp (o1 ++ o2) a = run_ops interp o2 (run_ops interp o1 a).
Proof. intros o1 o2 a. unfold run_ops. apply fold_left_app. Qed.

(** On an item that exists, a program runs the operations of its key *)
Lemma effects_Some :
  forall y prog a,
    effects eqb fresh interp y prog (Some a)
    = Some (run_ops interp (ops_of eqb y prog) a).
Proof.
  intros y prog. unfold effects, run_ops, ops_of.
  induction prog as [|i prog IH]; intros a; simpl; [reflexivity |].
  destruct i as [k | k op]; simpl.
  - destruct (eqb k y); apply IH.
  - destruct (eqb k y); simpl.
    + rewrite IH. reflexivity.
    + apply IH.
Qed.

(** A program that merges a key before it updates it: the item of the key
    is built from the item found, or from a fresh one *)
Lemma effects_merge_first :
  forall y prog a,
    merge_first eqb y prog = true ->
    effects eqb fresh interp y prog a
    = if touches eqb y prog
      then Some (run_ops interp (ops_of eqb y prog) (or_fresh fresh y a))
      else a.
Proof.
  intros y prog. induction prog as [|i prog IH]; intros a H; [reflexivity |].
  destruct i as [k | k op]; simpl in H.
  - change (effects eqb fresh interp y (Merge k :: prog) a)
      with (effects eqb fresh interp y prog
              (effect eqb fresh interp y a (Merge k))).
    unfold touches. simpl. unfold ops_of. simpl.
    destruct (eqb k y) eqn:E; simpl.
    + destruct a as [x|]; apply effects_Some.
    + apply (IH a H).
  - change (effects eqb fresh interp y (Update k op :: prog) a)
      with (effects eqb fresh interp y prog
              (effect eqb fresh interp y a (Update k op))).
    unfold touches. simpl. unfold ops_of. simpl.
    destruct (eqb k y) eqn:E; simpl; [discriminate |].
    apply (IH a H).
Qed.

Lemma merge_first_app :
  forall y (p q : list (@Instr K Op)),
    merge_first eqb y p = true -> merge_first eqb y q = true ->
    merge_first eqb y (p ++ q) = true.
Proof.
  induction p as [|i p IH]; intros q Hp Hq; simpl; [exact Hq |].
  destruct i as [k | k op]; simpl in Hp; destruct (eqb k y);
    try reflexivity; try discriminate; apply IH; assumption.
Qed.

End StoreFacts.

End KeyedFacts.

(** ** GraphStore: the import statement runs the programs *)

Module RefineFacts.
Import DataCleaner Neo4j Shape Keyed Programs MergeFacts GraphFacts KeyedFacts.
Local Open Scope string_scope.
Local Open Scope list_scope.

Abbreviation npos := (position n_name String.eqb).
Abbreviation rpos := (position rel_key key_eqb).

Lemma npos_names :
  forall x g, npos x (nodes g) = index_of String.eqb x (names g).
Proof.
  intros x g. unfold position, index_of, names.
  rewrite find_index_map. reflexivity.
Qed.

Lemma find_entity_npos :
  forall x g, AllEntities g -> find_entity x g = npos x (nodes g).
Proof.
  intros x g H. rewrite npos_names. apply find_entity_index_of. exact H.
Qed.

Lemma rpos_keys :
  forall k g, rpos k (relationships g) = index_of key_eqb k (rel_keys g).
Proof.
  intros k g. unfold position, index_of, rel_keys.
  rewrite find_index_map. reflexivity.
Qed.

Lemma key_eqb_eq : forall a b, key_eqb a b = true <-> a = b.
Proof.
  intros [[h t] r] [[h' t'] r']. unfold key_eqb. simpl.
  rewrite !andb_true_iff, !Nat.eqb_eq, String.eqb_eq. split.
  - intros [[-> ->] ->]. reflexivity.
  - intros H. inversion H. auto.
Qed.

Lemma n_name_interp : forall op n, n_name (node_interp op n) = n_name n.
Proof.
  intros [ty |] n; simpl; [reflexivity | apply n_name_add_type_label].
Qed.

Lemma rel_key_interp : forall op r, rel_key (rel_interp op r) = rel_key r.
Proof. intros op r. reflexivity. Qed.

Lemma Forall2_transport :
  forall A (pos pos' : A -> option nat) xs ids,
    (forall x i, pos x = Some i -> pos' x = Some i) ->
    Forall2 (fun x i => pos x = Some i) xs ids ->
    Forall2 (fun x i => pos' x = Some i) xs ids.
Proof. intros A pos pos' xs ids H F. induction F; constructor; auto. Qed.

Lemma merge_entities_run :
  forall xs g,
    AllEntities g ->
    nodes (snd (merge_entities xs g)) = run_nodes (map Merge xs) (nodes g)
    /\ relationships (snd (merge_entities xs g)) = relationships g
    /\ clock (snd (merge_entities xs g)) = clock g.
Proof.
  induction xs as [|x xs IH]; intros g H; simpl; [auto |].
  destruct (merge_entity_shape x g H) as (H1 & _ & _).
  assert (E : nodes (snd (merge_entity x g))
              = step n_name String.eqb fresh_node node_interp (nodes g) (Merge x)
              /\ relationships (snd (merge_entity x g)) = relationships g
              /\ clock (snd (merge_entity x g)) = clock g).
  { unfold merge_entity. simpl. rewrite (find_entity_npos x g H).
    destruct (npos x (nodes g)); simpl; auto. }
  destruct (merge_entity x g) as [i g1]. simpl in *.
  destruct E as (En & Er & Ec).
  destruct (IH g1 H1) as (In' & Ir & Ic).
  destruct (merge_entities xs g1) as [ids g2]. simpl in *.
  rewrite In', Ir, Ic, En, Er, Ec. auto.
Qed.

Lemma merge_entities_bound :
  forall xs g,
    AllEntities g ->
    Forall2 (fun x i => npos x (nodes (snd (merge_entities xs g))) = Some i)
            xs (fst (merge_entities xs g)).
Proof.
  intros xs g H.
  destruct (merge_entities_shape xs g H) as (_ & E & _).
  pose proof (merge_all_found String.eqb String.eqb_refl xs (names g)) as F.
  rewrite <- E in F. simpl in F.
  eapply Forall2_transport; [| exact F].
  intros x i Hx. rewrite npos_names. exact Hx.
Qed.

Lemma set_types_run :
  forall (p : list (Triplet string)) (kf : Triplet string -> string)
         (tyf : Triplet string -> option string) ids g,
    Forall2 (fun x i => npos x (nodes g) = Some i) (map kf p) ids ->
    nodes (set_types (combine ids (map tyf p)) g)
    = run_nodes (map (fun t => Update (kf t) (SetType (tyf t))) p) (nodes g)
    /\ relationships (set_types (combine ids (map tyf p)) g) = relationships g
    /\ clock (set_types (combine ids (map tyf p)) g) = clock g.
Proof.
  induction p as [|t p IH]; intros kf tyf ids g F; simpl in F.
  - inversion F; subst. simpl. auto.
  - inversion F as [|? i ? ids' Hi F']; subst. simpl.
    destruct (IH kf tyf ids'
                (with_nodes (update_at i (set_type (tyf t)) (nodes g)) g))
      as (En & Er & Ec).
    + simpl. eapply Forall2_transport; [| exact F'].
      intros x j Hx. unfold position. rewrite find_index_update_at; [exact Hx |].
      reflexivity.
    + rewrite En, Er, Ec. simpl. unfold run_nodes, run. simpl.
      rewrite Hi. auto.
Qed.

Lemma add_type_labels_run :
  forall (p : list (Triplet string)) (kf : Triplet string -> string) ids g,
    Forall2 (fun x i => npos x (nodes g) = Some i) (map kf p) ids ->
    nodes (add_type_labels ids g)
    = run_nodes (map (fun t => Update (kf t) AddTypeLabel) p) (nodes g)
    /\ relationships (add_type_labels ids g) = relationships g
    /\ clock (add_type_labels ids g) = clock g.
Proof.
  induction p as [|t p IH]; intros kf ids g F; simpl in F.
  - inversion F; subst. simpl. auto.
  - inversion F as [|? i ? ids' Hi F']; subst. simpl.
    destruct (IH kf ids' (with_nodes (update_at i add_type_label (nodes g)) g))
      as (En & Er & Ec).
    + simpl. eapply Forall2_transport; [| exact F'].
      intros x j Hx. unfold position. rewrite find_index_update_at; [exact Hx |].
      intros a. rewrite n_name_add_type_label. reflexivity.
    + rewrite En, Er, Ec. simpl. unfold run_nodes, run. simpl.
      rewrite Hi. auto.
Qed.

Lemma find_relation_rpos :
  forall h t rel g,
    find_relation h t rel g = rpos (h, t, rel) (relationships g).
Proof.
  intros h t rel g. rewrite rpos_keys. apply find_relation_index_of.
Qed.

Lemma merge_relations_run :
  forall bound g,
    relationships (snd (merge_relations bound g))
    = run_rels (map Merge bound) (relationships g)
    /\ nodes (snd (merge_relations bound g)) = nodes g
    /\ clock (snd (merge_relations bound g)) = clock g.
Proof.
  induction bound as [|[[h t] rel] bound IH]; intros g; simpl; [auto |].
  assert (E : relationships (snd (merge_relation h t rel g))
              = step rel_key key_eqb fresh_rel rel_interp (relationships g)
                     (Merge (h, t, rel))
              /\ nodes (snd (merge_relation h t rel g)) = nodes g
              /\ clock (snd (merge_relation h t rel g)) = clock g).
  { unfold merge_relation. simpl. rewrite find_relation_rpos.
    destruct (rpos (h, t, rel) (relationships g)); simpl; auto. }
  destruct (merge_relation h t rel g) as [i g1]. simpl in *.
  destruct E as (Er & En & Ec).
  destruct (IH g1) as (Ir & In' & Ic).
  destruct (merge_relations bound g1) as [ids g2]. simpl in *.
  rewrite Ir, In', Ic, Er, En, Ec. auto.
Qed.

Lemma merge_relations_bound :
  forall bound g,
    Forall2 (fun k r => rpos k (relationships (snd (merge_relations bound g)))
                        = Some r)
            bound (fst (merge_relations bound g)).
Proof.
  intros bound g.
  destruct (merge_relations_shape bound g) as (_ & E).
  pose proof (merge_all_found key_eqb key_eqb_refl bound (rel_keys g)) as F.
  rewrite <- E in F. simpl in F.
  eapply Forall2_transport; [| exact F].
  intros k i Hk. rewrite rpos_keys. exact Hk.
Qed.

Lemma set_relation_properties_run :
  forall (p : list (Triplet string))
         (kf : Triplet string -> nat * nat * string)
         (cf : Triplet string -> option float) rs g,
    Forall2 (fun k r => rpos k (relationships g) = Some r) (map kf p) rs ->
    relationships (set_relation_properties (combine rs (map cf p)) g)
    = run_rels (map (fun t => Update (kf t) (cf t, clock g)) p) (relationships g)
    /\ nodes (set_relation_properties (combine rs (map cf p)) g) = nodes g
    /\ clock (set_relation_properties (combine rs (map cf p)) g) = clock g.
Proof.
  induction p as [|t p IH]; intros kf cf rs g F; simpl in F.
  - inversion F; subst. simpl. auto.
  - inversion F as [|? r ? rs' Hr F']; subst. simpl.
    destruct (IH kf cf rs'
                (with_relationships
                   (update_at r (set_properties (cf t) (clock g)) (relationships g))
                   g))
      as (Er & En & Ec).
    + simpl. eapply Forall2_transport; [| exact F'].
      intros k j Hk. unfold position. rewrite find_index_update_at; [exact Hk |].
      reflexivity.
    + rewrite Er, En, Ec. simpl. unfold run_rels, run. simpl.
      rewrite Hr. auto.
Qed.

Lemma bound_keys :
  forall N (p : list (Triplet string)) hs ts,
    Forall2 (fun x i => ix N x = i) (map head p) hs ->
    Forall2 (fun x i => ix N x = i) (map tail p) ts ->
    combine (combine hs ts) (map relation p) = map (key_in N) p.
Proof.
  induction p as [|t p IH]; intros hs ts Fh Ft; simpl in *.
  - inversion Fh; subst. reflexivity.
  - inversion Fh as [|? h ? hs' Hh Fh']; subst.
    inversion Ft as [|? tl ? ts' Ht Ft']; subst.
    simpl. rewrite (IH hs' ts' Fh' Ft'). reflexivity.
Qed.

Lemma npos_run_nodes :
  forall x prog l i,
    npos x l = Some i -> npos x (run_nodes prog l) = Some i.
Proof.
  intros x prog l i H. unfold run_nodes.
  apply position_run; [apply n_name_interp | exact H].
Qed.

(** The import statement runs its node program on the nodes and its
    relationship program on the relationships *)
Lemma import_clauses_programs :
  forall N p g,
    AllEntities g ->
    stable_into (names (import_clauses p g)) N ->
    nodes (import_clauses p g) = run_nodes (node_prog p) (nodes g)
    /\ relationships (import_clauses p g)
       = run_rels (rel_prog N (clock g) p) (relationships g)
    /\ clock (import_clauses p g) = clock g.
Proof.
  intros N p g H. unfold import_clauses, node_prog, rel_prog.
  destruct (merge_entities_shape (map head p) g H) as (H1 & _ & _).
  destruct (merge_entities_run (map head p) g H) as (N1 & R1 & C1).
  pose proof (merge_entities_bound (map head p) g H) as Fh.
  destruct (merge_entities (map head p) g) as [hs g1]. simpl in *.
  destruct (set_types_shape (combine hs (map head_type p)) g1 H1) as (H2 & _ & _).
  destruct (set_types_run p head head_type hs g1 Fh) as (N2 & R2 & C2).
  set (g2 := set_types (combine hs (map head_type p)) g1) in *.
  destruct (merge_entities_shape (map tail p) g2 H2) as (H3 & _ & _).
  destruct (merge_entities_run (map tail p) g2 H2) as (N3 & R3 & C3).
  pose proof (merge_entities_bound (map tail p) g2 H2) as Ft.
  destruct (merge_entities (map tail p) g2) as [ts g3]. simpl in *.
  assert (Fh3 : Forall2 (fun x i => npos x (nodes g3) = Some i) (map head p) hs).
  { eapply Forall2_transport; [| exact Fh].
    intros x i Hx. rewrite N3, N2. apply npos_run_nodes. apply npos_run_nodes.
    exact Hx. }
  destruct (set_types_shape (combine ts (map tail_type p)) g3 H3) as (H4 & _ & _).
  destruct (set_types_run p tail tail_type ts g3 Ft) as (N4 & R4 & C4).
  set (g4 := set_types (combine ts (map tail_type p)) g3) in *.
  assert (Fh4 : Forall2 (fun x i => npos x (nodes g4) = Some i) (map head p) hs).
  { eapply Forall2_transport; [| exact Fh3].
    intros x i Hx. rewrite N4. apply npos_run_nodes. exact Hx. }
  assert (Ft4 : Forall2 (fun x i => npos x (nodes g4) = Some i) (map tail p) ts).
  { eapply Forall2_transport; [| exact Ft].
    intros x i Hx. rewrite N4. apply npos_run_nodes. exact Hx. }
  destruct (add_type_labels_run p head hs g4 Fh4) as (N5 & R5 & C5).
  set (g5 := add_type_labels hs g4) in *.
  assert (Ft5 : Forall2 (fun x i => npos x (nodes g5) = Some i) (map tail p) ts).
  { eapply Forall2_transport; [| exact Ft4].
    intros x i Hx. rewrite N5. apply npos_run_nodes. exact Hx. }
  assert (Fh5 : Forall2 (fun x i => npos x (nodes g5) = Some i) (map head p) hs).
  { eapply Forall2_transport; [| exact Fh4].
    intros x i Hx. rewrite N5. apply npos_run_nodes. exact Hx. }
  destruct (add_type_labels_run p tail ts g5 Ft5) as (N6 & R6 & C6).
  set (g6 := add_type_labels ts g5) in *.
  assert (Fh6 : Forall2 (fun x i => npos x (nodes g6) = Some i) (map head p) hs).
  { eapply Forall2_transport; [| exact Fh5].
    intros x i Hx. rewrite N6. apply npos_run_nodes. exact Hx. }
  assert (Ft6 : Forall2 (fun x i => npos x (nodes g6) = Some i) (map tail p) ts).
  { eapply Forall2_transport; [| exact Ft5].
    intros x i Hx. rewrite N6. apply npos_run_nodes. exact Hx. }
  destruct (merge_relations_run
              (combine (combine hs ts) (map relation p)) g6) as (R7 & N7 & C7).
  pose proof (merge_relations_bound
                (combine (combine hs ts) (map relation p)) g6) as Fr.
  destruct (merge_relations (combine (combine hs ts) (map relation p)) g6)
    as [rs g7]. simpl in *.
  intros Hstable.
  destruct (set_relation_properties_shape
              (combine rs (map confidence p)) g7) as (N8 & _).
  assert (Enames : names (set_relation_properties
                            (combine rs (map confidence p)) g7) = names g6).
  { unfold names. rewrite N8, N7. reflexivity. }
  rewrite Enames in Hstable.
  assert (Hix : forall x i, npos x (nodes g6) = Some i -> ix N x = i).
  { intros x i Hx. rewrite npos_names in Hx. unfold ix.
    rewrite (Hstable x i Hx). reflexivity. }
  assert (Ekeys : combine (combine hs ts) (map relation p) = map (key_in N) p).
  { apply bound_keys.
    - eapply Forall2_impl; [| exact Fh6]. exact Hix.
    - eapply Forall2_impl; [| exact Ft6]. exact Hix. }
  rewrite Ekeys in Fr, R7.
  destruct (set_relation_properties_run p (key_in N) confidence rs g7 Fr)
    as (R8 & _ & C8).
  split; [| split].
  - rewrite N8, N7, N6, N5, N4, N3, N2, N1.
    unfold run_nodes. rewrite !run_app, !map_map. reflexivity.
  - rewrite R8, R7, R6, R5, R4, R3, R2, R1, C7, C6, C5, C4, C3, C2, C1.
    unfold run_rels. rewrite run_app, map_map. reflexivity.
  - rewrite C8, C7, C6, C5, C4, C3, C2, C1. reflexivity.
Qed.

End RefineFacts.

(** ** GraphStore: what a second import does to an item *)

Module ProgramFacts.
Import DataCleaner Neo4j Shape Keyed Programs MergeFacts GraphFacts KeyedFacts
       RefineFacts.
Local Open Scope string_scope.
Local Open Scope list_scope.

Lemma In_add_if_absent :
  forall x y l, In y (add_if_absent x l) <-> y = x \/ In y l.
Proof.
  intros x y l. unfold add_if_absent.
  destruct (existsb (String.eqb x) l) eqn:E.
  - split; [auto |]. intros [-> | H]; [| exact H].
    apply existsb_exists in E. destruct E as (z & Hz & Hxz).
    apply String.eqb_eq in Hxz. subst z. exact Hz.
  - rewrite in_app_iff. simpl. split.
    + intros [H | [<- | []]]; auto.
    + intros [-> | H]; auto.
Qed.

Lemma add_if_absent_present :
  forall x l, In x l -> add_if_absent x l = l.
Proof.
  intros x l H. unfold add_if_absent.
  assert (E : existsb (String.eqb x) l = true).
  { apply existsb_exists. exists x. split; [exact H | apply String.eqb_refl]. }
  rewrite E. reflexivity.
Qed.

Lemma add_all_incl :
  forall ls labels y, In y labels -> In y (add_all ls labels).
Proof.
  unfold add_all. induction ls as [|x ls IH]; intros labels y H; simpl; [exact H |].
  apply IH. apply In_add_if_absent. right. exact H.
Qed.

Lemma add_all_contains :
  forall ls labels y, In y ls -> In y (add_all ls labels).
Proof.
  unfold add_all. induction ls as [|x ls IH]; intros labels y H; simpl; [contradiction |].
  destruct H as [<- | H].
  - apply (add_all_incl ls). apply In_add_if_absent. left. reflexivity.
  - apply IH. exact H.
Qed.

Lemma add_all_present :
  forall ls labels, (forall y, In y ls -> In y labels) -> add_all ls labels = labels.
Proof.
  unfold add_all. induction ls as [|x ls IH]; intros labels H; simpl; [reflexivity |].
  rewrite add_if_absent_present; [| apply H; left; reflexivity].
  apply IH. intros y Hy. apply H. right. exact Hy.
Qed.

Lemma add_all_idempotent :
  forall ls labels, add_all ls (add_all ls labels) = add_all ls labels.
Proof.
  intros ls labels. apply add_all_present.
  intros y Hy. apply add_all_contains. exact Hy.
Qed.

Lemma add_all_app :
  forall l1 l2 labels, add_all (l1 ++ l2) labels = add_all l2 (add_all l1 labels).
Proof. intros l1 l2 labels. unfold add_all. apply fold_left_app. Qed.

Lemma add_type_label_labels :
  forall n,
    add_type_label n
    = {| n_name := n_name n; n_type := n_type n;
         n_labels := add_all (label_of (n_type n)) (n_labels n) |}.
Proof.
  intros [nm ty labels]. unfold add_type_label, add_all, add_if_absent, has_label.
  simpl. destruct ty as [ty|]; simpl; [| reflexivity].
  destruct (existsb (String.eqb ty) labels); reflexivity.
Qed.

(** What a list of operations makes of a node *)
Lemma run_node_ops :
  forall ops n,
    run_ops node_interp ops n
    = {| n_name := n_name n;
         n_type := final_type (n_type n) ops;
         n_labels := add_all (added (n_type n) ops) (n_labels n) |}.
Proof.
  unfold run_ops.
  induction ops as [|[ty |] ops IH]; intros n; simpl.
  - destruct n. reflexivity.
  - rewrite IH. reflexivity.
  - rewrite IH. rewrite add_type_label_labels. simpl.
    rewrite add_all_app. reflexivity.
Qed.

Lemma run_node_ops_idempotent :
  forall ops n,
    set_first ops = true ->
    run_ops node_interp ops (run_ops node_interp ops n)
    = run_ops node_interp ops n.
Proof.
  intros ops n H. destruct ops as [|[ty |] ops]; [reflexivity | | discriminate].
  rewrite !run_node_ops. simpl. rewrite add_all_idempotent. reflexivity.
Qed.

Lemma ops_of_merges :
  forall Op y (kf : Triplet string -> string) (p : list (Triplet string)),
    ops_of (Op := Op) String.eqb y (map (fun t => Merge (kf t)) p) = [].
Proof.
  intros Op y kf p. unfold ops_of. induction p as [|t p IH]; simpl; auto.
Qed.

Lemma ops_of_updates :
  forall K Op (eqb : K -> K -> bool) y (kf : Triplet string -> K)
         (opf : Triplet string -> Op) (p : list (Triplet string)),
    ops_of eqb y (map (fun t => Update (kf t) (opf t)) p)
    = map opf (filter (fun t => eqb (kf t) y) p).
Proof.
  intros K Op eqb y kf opf p. unfold ops_of.
  induction p as [|t p IH]; simpl; [reflexivity |].
  destruct (eqb (kf t) y); simpl; rewrite IH; reflexivity.
Qed.

Lemma merge_first_merges :
  forall K Op (eqb : K -> K -> bool) y (kf : Triplet string -> K)
         (p : list (Triplet string)) (rest : list (@Instr K Op)),
    merge_first eqb y (map (fun t => Merge (kf t)) p ++ rest)
    = if existsb (fun t => eqb (kf t) y) p then true else merge_first eqb y rest.
Proof.
  intros K Op eqb y kf p rest. induction p as [|t p IH]; simpl; [reflexivity |].
  destruct (eqb (kf t) y); simpl; [reflexivity | exact IH].
Qed.

Lemma merge_first_updates :
  forall K Op (eqb : K -> K -> bool) y (kf : Triplet string -> K)
         (opf : Triplet string -> Op)
         (p : list (Triplet string)) (rest : list (@Instr K Op)),
    merge_first eqb y (map (fun t => Update (kf t) (opf t)) p ++ rest)
    = if existsb (fun t => eqb (kf t) y) p then false else merge_first eqb y rest.
Proof.
  intros K Op eqb y kf opf p rest. induction p as [|t p IH]; simpl; [reflexivity |].
  destruct (eqb (kf t) y); simpl; [reflexivity | exact IH].
Qed.

Lemma node_prog_merge_first :
  forall y p, merge_first String.eqb y (node_prog p) = true.
Proof.
  intros y p. unfold node_prog.
  rewrite merge_first_merges, merge_first_updates, merge_first_merges,
          merge_first_updates, merge_first_updates.
  rewrite <- (app_nil_r (map (fun t => Update (tail t) AddTypeLabel) p)).
  rewrite merge_first_updates.
  destruct (existsb (fun t => String.eqb (head t) y) p);
    destruct (existsb (fun t => String.eqb (tail t) y) p); reflexivity.
Qed.

Lemma node_prog_set_first :
  forall y p, set_first (ops_of String.eqb y (node_prog p)) = true.
Proof.
  intros y p. unfold node_prog.
  rewrite !ops_of_app, !ops_of_merges, !ops_of_updates. simpl.
  destruct (filter (fun t => String.eqb (head t) y) p);
    destruct (filter (fun t => String.eqb (tail t) y) p); reflexivity.
Qed.

Lemma set_first_app :
  forall o1 o2, set_first o1 = true -> set_first o2 = true ->
                set_first (o1 ++ o2) = true.
Proof. intros [|[ty |] o1] o2 H1 H2; simpl in *; auto. Qed.

Lemma node_progs_merge_first :
  forall y batches, merge_first String.eqb y (node_progs batches) = true.
Proof.
  intros y batches. unfold node_progs.
  induction batches as [|p batches IH]; simpl; [reflexivity |].
  apply merge_first_app; [| exact IH].
  destruct (forallb labels_are_text p); [apply node_prog_merge_first | reflexivity].
Qed.

Lemma node_progs_set_first :
  forall y batches, set_first (ops_of String.eqb y (node_progs batches)) = true.
Proof.
  intros y batches. unfold node_progs.
  induction batches as [|p batches IH]; simpl; [reflexivity |].
  rewrite ops_of_app. apply set_first_app; [| exact IH].
  destruct (forallb labels_are_text p); [apply node_prog_set_first | reflexivity].
Qed.

(** Running the node programs of a table again on the nodes they made
    from nothing changes no node, once the names are known to stay *)
Lemma run_nodes_again :
  forall batches,
    map n_name (run_nodes (node_progs batches)
                  (run_nodes (node_progs batches) []))
    = map n_name (run_nodes (node_progs batches) []) ->
    run_nodes (node_progs batches) (run_nodes (node_progs batches) [])
    = run_nodes (node_progs batches) [].
Proof.
  intros batches Hkeys.
  set (P := node_progs batches) in *.
  assert (Hnd : NoDup (map n_name (run_nodes P []))).
  { apply NoDup_keys_run.
    - apply String.eqb_eq.
    - reflexivity.
    - apply n_name_interp.
    - constructor. }
  assert (Hitem : forall y,
             item n_name String.eqb y (run_nodes P (run_nodes P []))
             = item n_name String.eqb y (run_nodes P [])).
  { intros y. unfold run_nodes.
    rewrite !(item_run n_name String.eqb fresh_node node_interp
                String.eqb_eq (fun k => eq_refl) n_name_interp).
    simpl item.
    rewrite (effects_merge_first String.eqb fresh_node node_interp y P None
               (node_progs_merge_first y batches)).
    destruct (touches String.eqb y P) eqn:Ht.
    - rewrite effects_Some. simpl. f_equal.
      apply run_node_ops_idempotent. apply node_progs_set_first.
    - rewrite (effects_merge_first String.eqb fresh_node node_interp y P None
                 (node_progs_merge_first y batches)).
      rewrite Ht. reflexivity. }
  pose proof (store_ext n_name String.eqb String.eqb_eq _ (fun n => n)
                (run_nodes P (run_nodes P [])) (run_nodes P [])) as E.
  rewrite !map_id in E. apply E.
  - exact Hkeys.
  - rewrite Hkeys. exact Hnd.
  - intros y. rewrite Hitem. reflexivity.
Qed.

Lemma rel_key_run_ops :
  forall ops r, rel_key (run_ops rel_interp ops r) = rel_key r.
Proof.
  unfold run_ops. induction ops as [|op ops IH]; intros r; simpl; [reflexivity |].
  rewrite IH. reflexivity.
Qed.

(** After at least one operation a relationship carries the confidence of
    the last one and the source [extracted] *)
Lemma rel_facts_run_ops :
  forall ops r,
    ops <> [] ->
    rel_facts (run_ops rel_interp ops r)
    = (rel_key r, last (map fst ops) None, Some "extracted").
Proof.
  intros ops r H.
  destruct (exists_last H) as (ops' & op & ->).
  rewrite run_ops_app. rewrite map_app.
  change (map fst [op]) with [fst op]. rewrite last_last.
  change (run_ops rel_interp [op] (run_ops rel_interp ops' r))
    with (rel_interp op (run_ops rel_interp ops' r)).
  rewrite <- (rel_key_run_ops ops' r).
  reflexivity.
Qed.

Lemma touches_app :
  forall K Op (eqb : K -> K -> bool) y (p q : list (@Instr K Op)),
    touches eqb y (p ++ q) = touches eqb y p || touches eqb y q.
Proof. intros. unfold touches. apply existsb_app. Qed.

Lemma touches_merges :
  forall K Op (eqb : K -> K -> bool) y (kf : Triplet string -> K)
         (p : list (Triplet string)),
    touches (Op := Op) eqb y (map (fun t => Merge (kf t)) p)
    = existsb (fun t => eqb (kf t) y) p.
Proof.
  intros. unfold touches. induction p as [|t p IH]; simpl; [reflexivity |].
  rewrite IH. reflexivity.
Qed.

Lemma touches_updates :
  forall K Op (eqb : K -> K -> bool) y (kf : Triplet string -> K)
         (opf : Triplet string -> Op) (p : list (Triplet string)),
    touches eqb y (map (fun t => Update (kf t) (opf t)) p)
    = existsb (fun t => eqb (kf t) y) p.
Proof.
  intros. unfold touches. induction p as [|t p IH]; simpl; [reflexivity |].
  rewrite IH. reflexivity.
Qed.

Lemma rel_prog_merge_first :
  forall N now k p, merge_first key_eqb k (rel_prog N now p) = true.
Proof.
  intros N now k p. unfold rel_prog.
  rewrite merge_first_merges.
  rewrite <- (app_nil_r (map (fun t => Update (key_in N t) (confidence t, now)) p)).
  rewrite merge_first_updates.
  destruct (existsb (fun t => key_eqb (key_in N t) k) p); reflexivity.
Qed.

Lemma ops_of_key_merges :
  forall k (kf : Triplet string -> nat * nat * string) (p : list (Triplet string)),
    ops_of (Op := RelOp) key_eqb k (map (fun t => Merge (kf t)) p) = [].
Proof.
  intros k kf p. unfold ops_of. induction p as [|t p IH]; simpl; auto.
Qed.

Lemma rel_prog_ops :
  forall N now k p,
    map fst (ops_of key_eqb k (rel_prog N now p))
    = map confidence (filter (fun t => key_eqb (key_in N t) k) p).
Proof.
  intros N now k p. unfold rel_prog.
  rewrite ops_of_app, ops_of_key_merges, ops_of_updates. simpl.
  rewrite map_map. reflexivity.
Qed.

Lemma rel_prog_touches :
  forall N now k p,
    touches key_eqb k (rel_prog N now p)
    = existsb (fun t => key_eqb (key_in N t) k) p.
Proof.
  intros N now k p. unfold rel_prog.
  rewrite touches_app, touches_merges, touches_updates.
  apply orb_diag.
Qed.

Lemma rel_progs_merge_first :
  forall N k batches g, merge_first key_eqb k (rel_progs N batches g) = true.
Proof.
  intros N k batches. induction batches as [|p batches IH]; intros g; cbn [rel_progs];
    [reflexivity |].
  apply merge_first_app; [| apply IH].
  destruct (forallb labels_are_text p); [apply rel_prog_merge_first | reflexivity].
Qed.

(** The confidences written to a key, and whether the key is written at
    all, depend on the table only, not on the state of the store *)
Lemma rel_progs_ops :
  forall N k batches g g',
    map fst (ops_of key_eqb k (rel_progs N batches g))
    = map fst (ops_of key_eqb k (rel_progs N batches g')).
Proof.
  intros N k batches. induction batches as [|p batches IH]; intros g g'; cbn [rel_progs];
    [reflexivity |].
  rewrite !ops_of_app, !map_app.
  f_equal; [| apply IH].
  destruct (forallb labels_are_text p); [| reflexivity].
  rewrite !rel_prog_ops. reflexivity.
Qed.

Lemma rel_progs_touches :
  forall N k batches g g',
    touches key_eqb k (rel_progs N batches g)
    = touches key_eqb k (rel_progs N batches g').
Proof.
  intros N k batches. induction batches as [|p batches IH]; intros g g'; cbn [rel_progs];
    [reflexivity |].
  rewrite !touches_app.
  f_equal; [| apply IH].
  destruct (forallb labels_are_text p); [| reflexivity].
  rewrite !rel_prog_touches. reflexivity.
Qed.

Lemma rel_progs_written :
  forall N k batches g,
    touches key_eqb k (rel_progs N batches g) = true ->
    ops_of key_eqb k (rel_progs N batches g) <> [].
Proof.
  intros N k batches. induction batches as [|p batches IH]; intros g H; cbn [rel_progs] in *;
    [discriminate |].
  rewrite touches_app in H. rewrite ops_of_app.
  intros E. apply app_eq_nil in E. destruct E as [E1 E2].
  apply orb_true_iff in H. destruct H as [H | H].
  - destruct (forallb labels_are_text p); [| discriminate].
    rewrite rel_prog_touches in H.
    assert (E : map fst (ops_of key_eqb k (rel_prog N (S (clock g)) p)) = [])
      by (rewrite E1; reflexivity).
    rewrite rel_prog_ops in E.
    apply existsb_exists in H. destruct H as (t & Ht & Hk).
    assert (Hin : In t (filter (fun t => key_eqb (key_in N t) k) p))
      by (apply filter_In; auto).
    destruct (filter (fun t => key_eqb (key_in N t) k) p); [contradiction | discriminate].
  - apply (IH _ H E2).
Qed.

(** Running the relationship programs of a table again on the
    relationships they made from nothing changes at most the creation
    times, once the identities are known to stay *)
Lemma run_rels_again :
  forall N batches g g',
    map rel_key (run_rels (rel_progs N batches g')
                   (run_rels (rel_progs N batches g) []))
    = map rel_key (run_rels (rel_progs N batches g) []) ->
    map rel_facts (run_rels (rel_progs N batches g')
                     (run_rels (rel_progs N batches g) []))
    = map rel_facts (run_rels (rel_progs N batches g) []).
Proof.
  intros N batches g g' Hkeys.
  set (P1 := rel_progs N batches g) in *.
  set (P2 := rel_progs N batches g') in *.
  assert (Hnd : NoDup (map rel_key (run_rels P1 []))).
  { apply NoDup_keys_run.
    - apply key_eqb_eq.
    - intros [[h t] r]. reflexivity.
    - apply rel_key_interp.
    - constructor. }
  apply (store_ext rel_key key_eqb key_eqb_eq _ rel_facts).
  - exact Hkeys.
  - rewrite Hkeys. exact Hnd.
  - intros k. unfold run_rels.
    rewrite !(item_run rel_key key_eqb fresh_rel rel_interp key_eqb_eq
                (fun k => match k with (_, _, _) => eq_refl end) rel_key_interp).
    simpl item.
    rewrite (effects_merge_first key_eqb fresh_rel rel_interp k P1 None
               (rel_progs_merge_first N k batches g)).
    destruct (touches key_eqb k P1) eqn:Ht.
    + rewrite effects_Some. simpl.
      assert (H1 : ops_of key_eqb k P1 <> [])
        by (apply rel_progs_written; exact Ht).
      assert (H2 : ops_of key_eqb k P2 <> []).
      { apply rel_progs_written. unfold P2.
        rewrite (rel_progs_touches N k batches g' g). exact Ht. }
      rewrite (rel_facts_run_ops _ _ H2), (rel_facts_run_ops _ _ H1).
      rewrite rel_key_run_ops.
      unfold P1, P2. rewrite (rel_progs_ops N k batches g' g). reflexivity.
    + rewrite (effects_merge_first key_eqb fresh_rel rel_interp k P2 None
                 (rel_progs_merge_first N k batches g')).
      unfold P2. rewrite (rel_progs_touches N k batches g' g).
      fold P1. rewrite Ht. reflexivity.
Qed.

End ProgramFacts.

(** ** GraphStore: building twice, item by item *)

Module Idempotence.
Import DataCleaner Neo4j Py Neo4jGraphBuilder Shape Keyed Programs.
Import MergeFacts GraphFacts BuildFacts KeyedFacts RefineFacts ProgramFacts.
Local Open Scope string_scope.
Local Open Scope list_scope.

Lemma import_shape_names_stable :
  forall p s, stable_into (fst s) (fst (import_shape p s)).
Proof.
  intros p [ns ks] x i H. unfold import_shape. simpl in *.
  pose proof (merge_all_stable String.eqb (map head p) x ns i H) as H1.
  destruct (merge_all String.eqb (map head p) ns) as [hs n1]. simpl in H1.
  pose proof (merge_all_stable String.eqb (map tail p) x n1 i H1) as H2.
  destruct (merge_all String.eqb (map tail p) n1) as [ts n2]. simpl in H2.
  destruct (merge_all key_eqb (combine (combine hs ts) (map relation p)) ks).
  exact H2.
Qed.

Lemma fold_import_names_stable :
  forall batches s,
    stable_into (fst s) (fst (fold_left import_step batches s)).
Proof.
  induction batches as [|p batches IH]; intros s x i H; simpl; [exact H |].
  apply IH. unfold import_step.
  destruct (forallb labels_are_text p); [| exact H].
  apply import_shape_names_stable. exact H.
Qed.

Lemma fold_names_stable :
  forall batches g,
    AllEntities g ->
    stable_into (names g)
      (names (fold_left (fun g p => import_batch_db p g) batches g)).
Proof.
  intros batches g H x i Hx.
  destruct (fold_import_batch_shape batches g H) as [_ E].
  apply (f_equal fst) in E.
  change (names (fold_left (fun g p => import_batch_db p g) batches g)
          = fst (fold_left import_step batches (shape g))) in E.
  rewrite E.
  apply (fold_import_names_stable batches (shape g)). exact Hx.
Qed.

Lemma import_batch_db_programs :
  forall N p g,
    AllEntities g ->
    stable_into (names (import_batch_db p g)) N ->
    nodes (import_batch_db p g)
    = run_nodes (if forallb labels_are_text p then node_prog p else []) (nodes g)
    /\ relationships (import_batch_db p g)
       = run_rels (if forallb labels_are_text p
                   then rel_prog N (S (clock g)) p else [])
                  (relationships g).
Proof.
  intros N p g H. unfold import_batch_db, run_import.
  destruct (forallb labels_are_text p).
  - intros Hs.
    destruct (import_clauses_programs N p (tick g) H Hs) as (En & Er & _).
    auto.
  - intros _. auto.
Qed.

Lemma fold_programs :
  forall N batches g,
    AllEntities g ->
    stable_into (names (fold_left (fun g p => import_batch_db p g) batches g)) N ->
    nodes (fold_left (fun g p => import_batch_db p g) batches g)
    = run_nodes (node_progs batches) (nodes g)
    /\ relationships (fold_left (fun g p => import_batch_db p g) batches g)
       = run_rels (rel_progs N batches g) (relationships g).
Proof.
  intros N batches. induction batches as [|p batches IH]; intros g H Hs.
  - simpl. auto.
  - cbn [fold_left rel_progs] in *.
    destruct (import_batch_db_shape p g H) as [H1 _].
    destruct (IH (import_batch_db p g) H1 Hs) as [En Er].
    destruct (import_batch_db_programs N p g H) as [En1 Er1].
    { intros x i Hx. apply Hs.
      apply (fold_names_stable batches (import_batch_db p g) H1). exact Hx. }
    rewrite En, Er, En1, Er1.
    unfold node_progs. simpl flat_map.
    unfold run_nodes, run_rels.
    rewrite !(run_app _ _ _ _). auto.
Qed.

Lemma build_db_programs :
  forall N T g,
    AllEntities g ->
    stable_into (names (build_db T false g)) N ->
    nodes (build_db T false g) = run_nodes (node_progs (payloads T)) (nodes g)
    /\ relationships (build_db T false g)
       = run_rels (rel_progs N (payloads T) (create_constraints_db g))
                  (relationships g).
Proof.
  intros N T g H. unfold build_db.
  destruct (empty T) eqn:E.
  - rewrite (payloads_empty T E). simpl. auto.
  - intros Hs.
    apply (fold_programs N (payloads T) (create_constraints_db g) H Hs).
Qed.

(** C1: build a canonical table into the empty graph, then build the same
    table again without clearing.  Both runs return, and the second run
    leaves the number of nodes and the number of relationships as the
    first run left them; the node names, in creation order, and the
    (start, end, type) identities of the relationships are unchanged: no
    node and no relationship is duplicated.  Moreover every node keeps its
    type and its labels, and every relationship its confidence and its
    source; what a re-import writes anew is the creation time of the
    relationships. *)
Theorem build_graph_twice :
  forall (T : DataFrame string) (log0 : list LogRecord),
    let w0 := {| db := empty_graph; log := log0 |} in
    let w1 := snd (build_graph T false w0) in
    let w2 := snd (build_graph T false w1) in
    fst (build_graph T false w0) = Returns tt
    /\ fst (build_graph T false w1) = Returns tt
    /\ List.length (nodes (db w2)) = List.length (nodes (db w1))
    /\ List.length (relationships (db w2)) = List.length (relationships (db w1))
    /\ map n_name (nodes (db w2)) = map n_name (nodes (db w1))
    /\ map rel_key (relationships (db w2)) = map rel_key (relationships (db w1))
    /\ nodes (db w2) = nodes (db w1)
    /\ map rel_facts (relationships (db w2))
       = map rel_facts (relationships (db w1)).
Proof.
  intros T log0 w0 w1 w2.
  destruct (runs_build_graph T false w0) as [R1 D1].
  destruct (runs_build_graph T false w1) as [R2 D2].
  fold w1 in D1. fold w2 in D2.
  assert (H0 : AllEntities (db w0)) by constructor.
  destruct (build_db_shape T (db w0) H0) as [H1 S1].
  rewrite <- D1 in H1, S1.
  destruct (build_db_shape T (db w1) H1) as [H2 S2].
  rewrite <- D2 in S2.
  rewrite S1 in S2. rewrite fold_import_idempotent in S2. rewrite <- S1 in S2.
  unfold shape in S2. inversion S2 as [[Hn Hk]].
  unfold names in Hn. unfold rel_keys in Hk.
  destruct (build_db_programs (names (db w1)) T (db w0) H0) as [N1 L1].
  { rewrite <- D1. intros x i Hx. exact Hx. }
  destruct (build_db_programs (names (db w1)) T (db w1) H1) as [N2 L2].
  { rewrite <- D2. unfold names. rewrite Hn. intros x i Hx. exact Hx. }
  rewrite <- D1 in N1, L1. rewrite <- D2 in N2, L2.
  change (nodes (db w0)) with (@nil Node) in N1.
  change (relationships (db w0)) with (@nil Relationship) in L1.
  assert (Enodes : nodes (db w2) = nodes (db w1)).
  { rewrite N2, N1. apply run_nodes_again.
    rewrite <- N1, <- N2. exact Hn. }
  assert (Erels : map rel_facts (relationships (db w2))
                  = map rel_facts (relationships (db w1))).
  { rewrite L2, L1. apply run_rels_again.
    rewrite <- L1, <- L2. exact Hk. }
  split; [exact R1 |]. split; [exact R2 |].
  split; [rewrite Enodes; reflexivity |].
  split.
  { rewrite <- (length_map rel_key (relationships (db w2))), Hk.
    apply length_map. }
  split; [exact Hn |]. split; [exact Hk |]. split; [exact Enodes | exact Erels].
Qed.

(** On the sample table the second run rewrites the creation time of
    every relationship and nothing else *)
Example build_graph_twice_sample :
  let T := clean_triplets Samples.config
             [Samples.apple_darwin (Some 0.9%float);
              Samples.microsoft_openai (Some 0.8%float)] in
  let w1 := snd (build_graph T false {| db := empty_graph; log := [] |}) in
  let w2 := snd (build_graph T false w1) in
  nodes (db w2) = nodes (db w1)
  /\ map r_created (relationships (db w1)) = [Some 5; Some 5]
  /\ map r_created (relationships (db w2)) = [Some 10; Some 10].
Proof. vm_compute. repeat split. Qed.

End Idempotence.

(** * Further properties of the code *)

(** ** Characters and letter case *)

Module CaseFacts.
Import PyStr.
Local Open Scope string_scope.

(** A fact about one character, checked on each of the 256 *)
Ltac each_character c :=
  destruct c as [[] [] [] [] [] [] [] []]; vm_compute; reflexivity.

Ltac each_character_if c :=
  destruct c as [[] [] [] [] [] [] [] []]; vm_compute;
  intros; first [reflexivity | discriminate].

Lemma is_space_to_upper : forall c, is_space (to_upper c) = is_space c.
Proof. intros c. each_character c. Qed.

Lemma is_space_to_lower : forall c, is_space (to_lower c) = is_space c.
Proof. intros c. each_character c. Qed.

Lemma is_lower_to_upper : forall c, is_lower (to_upper c) = false.
Proof. intros c. each_character c. Qed.

Lemma is_upper_to_lower : forall c, is_upper (to_lower c) = false.
Proof. intros c. each_character c. Qed.

Lemma is_upper_to_upper : forall c, is_upper (to_upper c) = is_cased c.
Proof. intros c. each_character c. Qed.

Lemma is_lower_to_lower : forall c, is_lower (to_lower c) = is_cased c.
Proof. intros c. each_character c. Qed.

Lemma is_cased_to_upper : forall c, is_cased (to_upper c) = is_cased c.
Proof. intros c. each_character c. Qed.

Lemma is_cased_to_lower : forall c, is_cased (to_lower c) = is_cased c.
Proof. intros c. each_character c. Qed.

Lemma to_lower_to_upper : forall c, to_lower (to_upper c) = to_lower c.
Proof. intros c. each_character c. Qed.

Lemma to_upper_to_lower : forall c, to_upper (to_lower c) = to_upper c.
Proof. intros c. each_character c. Qed.

Lemma to_upper_to_upper : forall c, to_upper (to_upper c) = to_upper c.
Proof. intros c. each_character c. Qed.

Lemma to_lower_to_lower : forall c, to_lower (to_lower c) = to_lower c.
Proof. intros c. each_character c. Qed.

Lemma to_upper_not_lower : forall c, is_lower c = false -> to_upper c = c.
Proof. intros c. unfold to_upper. intros ->. reflexivity. Qed.

Lemma to_lower_not_upper : forall c, is_upper c = false -> to_lower c = c.
Proof. intros c. unfold to_lower. intros ->. reflexivity. Qed.

Lemma space_is_uncased : forall c, is_space c = true -> is_cased c = false.
Proof. intros c. each_character_if c. Qed.

Lemma smap_smap :
  forall f g s, smap f (smap g s) = smap (fun c => f (g c)) s.
Proof. induction s as [|c s IH]; simpl; [| rewrite IH]; reflexivity. Qed.

Lemma smap_ext :
  forall f g s, (forall c, f c = g c) -> smap f s = smap g s.
Proof.
  intros f g s H. induction s as [|c s IH]; simpl; [| rewrite IH, H]; reflexivity.
Qed.

Lemma sexists_smap :
  forall p f s, sexists p (smap f s) = sexists (fun c => p (f c)) s.
Proof. induction s as [|c s IH]; simpl; [| rewrite IH]; reflexivity. Qed.

Lemma sexists_ext :
  forall p q s, (forall c, p c = q c) -> sexists p s = sexists q s.
Proof.
  intros p q s H. induction s as [|c s IH]; simpl; [| rewrite IH, H]; reflexivity.
Qed.

Lemma sexists_never :
  forall p s, (forall c, p c = false) -> sexists p s = false.
Proof.
  intros p s H. induction s as [|c s IH]; simpl; [| rewrite IH, H]; reflexivity.
Qed.

Lemma sexists_is_cased :
  forall s, sexists is_cased s = sexists is_upper s || sexists is_lower s.
Proof.
  induction s as [|c s IH]; simpl; [reflexivity |]. rewrite IH.
  unfold is_cased.
  destruct (is_upper c), (is_lower c), (sexists is_upper s), (sexists is_lower s);
    reflexivity.
Qed.

Lemma upper_no_lower : forall s, sexists is_lower (upper s) = false.
Proof.
  intros s. unfold upper. rewrite sexists_smap.
  apply sexists_never. apply is_lower_to_upper.
Qed.

Lemma lower_no_upper : forall s, sexists is_upper (lower s) = false.
Proof.
  intros s. unfold lower. rewrite sexists_smap.
  apply sexists_never. apply is_upper_to_lower.
Qed.

Lemma upper_fixed : forall s, sexists is_lower s = false -> upper s = s.
Proof.
  induction s as [|c s IH]; simpl; intros H; [reflexivity |].
  apply orb_false_iff in H. destruct H as [Hc Hs].
  unfold upper in *. simpl. rewrite (IH Hs), (to_upper_not_lower c Hc). reflexivity.
Qed.

Lemma lower_fixed : forall s, sexists is_upper s = false -> lower s = s.
Proof.
  induction s as [|c s IH]; simpl; intros H; [reflexivity |].
  apply orb_false_iff in H. destruct H as [Hc Hs].
  unfold lower in *. simpl. rewrite (IH Hs), (to_lower_not_upper c Hc). reflexivity.
Qed.

Lemma lower_upper : forall s, lower (upper s) = lower s.
Proof.
  intros s. unfold lower, upper. rewrite smap_smap.
  apply smap_ext. apply to_lower_to_upper.
Qed.

Lemma upper_lower : forall s, upper (lower s) = upper s.
Proof.
  intros s. unfold lower, upper. rewrite smap_smap.
  apply smap_ext. apply to_upper_to_lower.
Qed.

Lemma lower_lower : forall s, lower (lower s) = lower s.
Proof.
  intros s. unfold lower. rewrite smap_smap.
  apply smap_ext. apply to_lower_to_lower.
Qed.

(** *** Stripping *)

Section Strip.

Variable p : ascii -> bool.

Lemma lstrip_by_stops : forall s, Spec.stops p (lstrip_by p s).
Proof.
  induction s as [|c s IH]; simpl; [exact I |].
  destruct (p c) eqn:E; [exact IH | exact E].
Qed.

Lemma lstrip_by_stopped : forall s, Spec.stops p s -> lstrip_by p s = s.
Proof. intros [|c s]; simpl; [reflexivity | intros ->; reflexivity]. Qed.

Lemma rstrip_by_stops : forall s, Spec.stops p s -> Spec.stops p (rstrip_by p s).
Proof.
  intros [|c s]; simpl; [exact (fun H => H) |]. intros H.
  destruct (rstrip_by p s); [rewrite H |]; exact H.
Qed.

Lemma rstrip_by_idempotent :
  forall s, rstrip_by p (rstrip_by p s) = rstrip_by p s.
Proof.
  induction s as [|c s IH]; simpl; [reflexivity |].
  destruct (rstrip_by p s) as [|d r] eqn:E.
  - destruct (p c) eqn:Hc; simpl; [reflexivity | rewrite Hc; reflexivity].
  - simpl in *. rewrite IH. reflexivity.
Qed.

Lemma strip_by_idempotent :
  forall s, strip_by p (strip_by p s) = strip_by p s.
Proof.
  intros s. unfold strip_by.
  rewrite (lstrip_by_stopped (rstrip_by p (lstrip_by p s))).
  - apply rstrip_by_idempotent.
  - apply rstrip_by_stops. apply lstrip_by_stops.
Qed.

Variable f : ascii -> ascii.
Hypothesis class_kept : forall c, p (f c) = p c.

Lemma lstrip_by_smap : forall s, lstrip_by p (smap f s) = smap f (lstrip_by p s).
Proof.
  induction s as [|c s IH]; simpl; [reflexivity |].
  rewrite class_kept. destruct (p c); [exact IH | reflexivity].
Qed.

Lemma rstrip_by_smap : forall s, rstrip_by p (smap f s) = smap f (rstrip_by p s).
Proof.
  induction s as [|c s IH]; simpl; [reflexivity |].
  rewrite IH, class_kept.
  destruct (rstrip_by p s); simpl; [destruct (p c) |]; reflexivity.
Qed.

Lemma strip_by_smap : forall s, strip_by p (smap f s) = smap f (strip_by p s).
Proof.
  intros s. unfold strip_by. rewrite lstrip_by_smap, rstrip_by_smap. reflexivity.
Qed.

End Strip.

Lemma strip_upper : forall s, strip (upper s) = upper (strip s).
Proof. intros s. apply strip_by_smap. apply is_space_to_upper. Qed.

Lemma strip_lower : forall s, strip (lower s) = lower (strip s).
Proof. intros s. apply strip_by_smap. apply is_space_to_lower. Qed.

Lemma strip_idempotent : forall s, strip (strip s) = strip s.
Proof. intros s. apply strip_by_idempotent. Qed.

(** *** Texts of one class of characters *)

Section Class.

Variable p : ascii -> bool.

Variable q : ascii -> bool.

Lemma sforall_lstrip :
  forall s, Spec.sforall q s = true -> Spec.sforall q (lstrip_by p s) = true.
Proof.
  induction s as [|c s IH]; intros H; [reflexivity |].
  cbn [lstrip_by]. destruct (p c); [| exact H].
  cbn [Spec.sforall] in H. apply andb_true_iff in H. apply IH. apply H.
Qed.

Lemma sforall_rstrip :
  forall s, Spec.sforall q s = true -> Spec.sforall q (rstrip_by p s) = true.
Proof.
  induction s as [|c s IH]; intros H; [reflexivity |].
  cbn [Spec.sforall] in H. apply andb_true_iff in H. destruct H as [H1 H2].
  cbn [rstrip_by]. specialize (IH H2).
  destruct (rstrip_by p s) as [|d r].
  - destruct (p c); [reflexivity |]. cbn [Spec.sforall]. rewrite H1. reflexivity.
  - cbn [Spec.sforall] in *. rewrite H1. exact IH.
Qed.

Lemma sforall_strip_by :
  forall s, Spec.sforall q s = true -> Spec.sforall q (strip_by p s) = true.
Proof.
  intros s H. unfold strip_by. apply sforall_rstrip. apply sforall_lstrip. exact H.
Qed.

Variable f : ascii -> ascii.
Hypothesis class_closed : forall c, q c = true -> q (f c) = true.

Lemma sforall_smap :
  forall s, Spec.sforall q s = true -> Spec.sforall q (smap f s) = true.
Proof.
  induction s as [|c s IH]; intros H; [reflexivity |].
  cbn [Spec.sforall smap] in *. apply andb_true_iff in H. destruct H as [H1 H2].
  rewrite (class_closed c H1), (IH H2). reflexivity.
Qed.

End Class.

End CaseFacts.

(** ** ASCII text *)

Module AsciiFacts.
Import PyStr Spec DataCleaner Output CaseFacts.
Local Open Scope string_scope.

Lemma is_ascii_to_lower : forall c, is_ascii c = true -> is_ascii (to_lower c) = true.
Proof. intros c. each_character_if c. Qed.

Lemma is_ascii_to_upper : forall c, is_ascii c = true -> is_ascii (to_upper c) = true.
Proof. intros c. each_character_if c. Qed.

Lemma ascii_text_lower : forall s, ascii_text s = true -> ascii_text (lower s) = true.
Proof. intros s. apply (sforall_smap is_ascii to_lower is_ascii_to_lower). Qed.

Lemma ascii_text_upper : forall s, ascii_text s = true -> ascii_text (upper s) = true.
Proof. intros s. apply (sforall_smap is_ascii to_upper is_ascii_to_upper). Qed.

Lemma ascii_text_strip_by :
  forall p s, ascii_text s = true -> ascii_text (strip_by p s) = true.
Proof. intros p s. apply sforall_strip_by. Qed.

Lemma ascii_text_collapse :
  forall s in_run,
    ascii_text s = true -> ascii_text (collapse_whitespace in_run s) = true.
Proof.
  induction s as [|c s IH]; intros in_run H; [reflexivity |].
  unfold ascii_text in *. cbn [sforall] in H.
  apply andb_true_iff in H. destruct H as [H1 H2].
  cbn [collapse_whitespace]. destruct (is_space c).
  - destruct in_run; [apply (IH true H2) |].
    cbn [sforall]. rewrite (IH true H2). reflexivity.
  - cbn [sforall]. rewrite H1. apply (IH false H2).
Qed.

Lemma ascii_text_title_from :
  forall s previous,
    ascii_text s = true -> ascii_text (title_from previous s) = true.
Proof.
  induction s as [|c s IH]; intros previous H; [reflexivity |].
  unfold ascii_text in *. cbn [sforall] in H.
  apply andb_true_iff in H. destruct H as [H1 H2].
  cbn [title_from sforall]. rewrite (IH _ H2), andb_true_r.
  destruct previous; [apply is_ascii_to_lower | apply is_ascii_to_upper]; exact H1.
Qed.

Lemma ascii_text_clean_entity_name :
  forall s, ascii_text s = true -> ascii_text (_clean_entity_name (Some s)) = true.
Proof.
  intros s H. unfold _clean_entity_name.
  assert (H' : ascii_text (strip_by is_quote
                             (collapse_whitespace false (strip s))) = true).
  { apply ascii_text_strip_by. apply ascii_text_collapse.
    apply ascii_text_strip_by. exact H. }
  destruct (isupper _ || islower _); [| exact H'].
  apply ascii_text_title_from. exact H'.
Qed.

End AsciiFacts.

(** ** Normalizer: the standard form of a relation *)

Module RelationNormalForm.
Import PyStr Spec DataCleaner Output CaseFacts AsciiFacts RelationFacts.
Local Open Scope string_scope.

Lemma first_contained_In :
  forall s d v, first_contained s d = Some v -> exists k, In (k, v) d.
Proof.
  induction d as [|[k' v'] d IH]; simpl; intros v H; [discriminate |].
  destruct (contains k' s).
  - inversion H; subst. exists k'. left. reflexivity.
  - destruct (IH v H) as (k & Hk). exists k. right. exact Hk.
Qed.

(** Every canonical name of the dictionary is its own standard form and
    has no lower-case letter *)
Lemma canonical_names :
  forall k v, In (k, v) relation_standardization ->
    _standardize_relation (Some v) = v /\ sexists is_lower v = false.
Proof.
  intros k v H. unfold relation_standardization in H. simpl in H.
  repeat (destruct H as [H | H];
          [inversion H; subst; split; vm_compute; reflexivity |]).
  contradiction.
Qed.

(** The text the lookups work on does not change when the upper-cased
    fallback is standardized again *)
Lemma relation_str_again :
  forall relation,
    lower (strip (upper (lower (strip relation)))) = lower (strip relation).
Proof.
  intros relation.
  rewrite strip_upper, strip_lower, strip_idempotent.
  rewrite lower_upper, lower_lower. reflexivity.
Qed.

(** The three ways a relation gets its standard form *)
Lemma standardize_relation_cases :
  forall relation,
    (exists k, In (k, _standardize_relation (Some relation)) relation_standardization)
    \/ (dict_get (lower (strip relation)) relation_standardization = None
        /\ first_contained (lower (strip relation)) relation_standardization = None
        /\ _standardize_relation (Some relation) = upper (lower (strip relation))).
Proof.
  intros relation. unfold _standardize_relation.
  destruct (dict_get (lower (strip relation)) relation_standardization) as [v|] eqn:E.
  - left. exists (lower (strip relation)). apply dict_get_In. exact E.
  - destruct (first_contained (lower (strip relation)) relation_standardization)
      as [v|] eqn:F.
    + left. apply (first_contained_In _ _ _ F).
    + right. auto.
Qed.

Lemma canonical_names_ascii :
  forall k v, In (k, v) relation_standardization -> ascii_text v = true.
Proof.
  intros k v H. unfold relation_standardization in H. simpl in H.
  repeat (destruct H as [H | H];
          [inversion H; subst; vm_compute; reflexivity |]).
  contradiction.
Qed.

(** Standardizing a relation that is already in standard form changes
    nothing: a canonical name stays, an unknown relation in upper case
    stays, and the marker of a missing relation stays.  This is stated
    for a relation written in ASCII characters, on which the letter cases
    of [str.lower] and [str.upper] are the ones of this development; the
    standard form of such a relation is again written in ASCII characters,
    so it can be standardized any number of times. *)
Theorem standardize_relation_idempotent :
  forall relation,
    ascii_cell relation = true ->
    _standardize_relation (Some (_standardize_relation relation))
    = _standardize_relation relation
    /\ ascii_text (_standardize_relation relation) = true.
Proof.
  intros [relation|] Hascii; [| split; vm_compute; reflexivity].
  cbn [ascii_cell] in Hascii.
  destruct (standardize_relation_cases relation) as [(k & Hk) | (E & F & U)].
  - split; [exact (proj1 (canonical_names _ _ Hk)) |].
    exact (canonical_names_ascii _ _ Hk).
  - rewrite U. split.
    + unfold _standardize_relation.
      rewrite relation_str_again, E, F. reflexivity.
    + apply ascii_text_upper. apply ascii_text_lower.
      apply ascii_text_strip_by. exact Hascii.
Qed.

Lemma standardize_relation_idempotent_witness :
  ascii_cell (Some " Bought by ") = true
  /\ _standardize_relation (Some (_standardize_relation (Some " Bought by ")))
     = _standardize_relation (Some " Bought by ")
  /\ ascii_text (_standardize_relation (Some " Bought by ")) = true.
Proof.
  split; [reflexivity |].
  exact (standardize_relation_idempotent (Some " Bought by ") eq_refl).
Defined.

(** The standard form of a relation never has a lower-case letter, and it
    is never empty unless the relation is blank: it is a canonical name of
    the dictionary, the marker UNKNOWN, or the trimmed text in upper case. *)
Theorem standardize_relation_upper_case :
  forall relation,
    sexists is_lower (_standardize_relation relation) = false
    /\ (_standardize_relation relation = EmptyString ->
        exists text, relation = Some text /\ strip text = EmptyString).
Proof.
  intros [relation|]; [| split; [reflexivity | discriminate]].
  destruct (standardize_relation_cases relation) as [(k & Hk) | (E & F & U)].
  - split; [exact (proj2 (canonical_names _ _ Hk)) |].
    intros H. rewrite H in Hk. exfalso.
    unfold relation_standardization in Hk. simpl in Hk.
    repeat (destruct Hk as [Hk | Hk]; [discriminate Hk |]). exact Hk.
  - rewrite U. split; [apply upper_no_lower |].
    intros H. exists relation. split; [reflexivity |].
    destruct (strip relation); [reflexivity | discriminate H].
Qed.

End RelationNormalForm.

(** ** Normalizer: the clean form of an entity name *)

Module EntityNameFacts.
Import PyStr Spec DataCleaner Output CaseFacts AsciiFacts.
Local Open Scope string_scope.

Lemma is_quote_to_upper : forall c, is_quote (to_upper c) = is_quote c.
Proof. intros c. each_character c. Qed.

Lemma is_quote_to_lower : forall c, is_quote (to_lower c) = is_quote c.
Proof. intros c. each_character c. Qed.

Lemma quote_is_uncased : forall c, is_quote c = true -> is_cased c = false.
Proof. intros c. each_character_if c. Qed.

Lemma space_to_upper : forall c, is_space c = true -> to_upper c = c.
Proof. intros c. each_character_if c. Qed.

Lemma space_to_lower : forall c, is_space c = true -> to_lower c = c.
Proof. intros c. each_character_if c. Qed.

Lemma clean_entity_name_trimmed :
  forall entity,
    _clean_entity_name (Some entity)
    = if isupper (trimmed entity) || islower (trimmed entity)
      then title (trimmed entity) else trimmed entity.
Proof. reflexivity. Qed.

Section LetterCase.

(** A change of letter case, [to_upper] or [to_lower] *)
Variable f : ascii -> ascii.
Hypothesis space_kept : forall c, is_space (f c) = is_space c.
Hypothesis quote_kept : forall c, is_quote (f c) = is_quote c.
Hypothesis cased_kept : forall c, is_cased (f c) = is_cased c.
Hypothesis f_space : f SPACE = SPACE.
Hypothesis upper_f : forall c, to_upper (f c) = to_upper c.
Hypothesis lower_f : forall c, to_lower (f c) = to_lower c.

Lemma collapse_whitespace_smap :
  forall s in_run,
    collapse_whitespace in_run (smap f s) = smap f (collapse_whitespace in_run s).
Proof.
  induction s as [|c s IH]; intros in_run; simpl; [reflexivity |].
  rewrite space_kept. destruct (is_space c).
  - destruct in_run; [apply IH |]. simpl. rewrite IH, f_space. reflexivity.
  - simpl. rewrite IH. reflexivity.
Qed.

Lemma trimmed_smap : forall s, trimmed (smap f s) = smap f (trimmed s).
Proof.
  intros s. unfold trimmed, strip.
  rewrite (strip_by_smap is_space f space_kept).
  rewrite collapse_whitespace_smap.
  apply (strip_by_smap is_quote f quote_kept).
Qed.

Lemma title_from_smap :
  forall s b, title_from b (smap f s) = title_from b s.
Proof.
  induction s as [|c s IH]; intros b; simpl; [reflexivity |].
  rewrite IH, cased_kept, upper_f, lower_f. reflexivity.
Qed.

End LetterCase.

Lemma trimmed_upper : forall s, trimmed (upper s) = upper (trimmed s).
Proof.
  intros s. apply trimmed_smap;
    [apply is_space_to_upper | apply is_quote_to_upper | reflexivity].
Qed.

Lemma trimmed_lower : forall s, trimmed (lower s) = lower (trimmed s).
Proof.
  intros s. apply trimmed_smap;
    [apply is_space_to_lower | apply is_quote_to_lower | reflexivity].
Qed.

Lemma title_upper : forall s, title (upper s) = title s.
Proof.
  intros s. apply title_from_smap;
    [apply is_cased_to_upper | apply to_upper_to_upper | apply to_lower_to_upper].
Qed.

Lemma title_lower : forall s, title (lower s) = title s.
Proof.
  intros s. apply title_from_smap;
    [apply is_cased_to_lower | apply to_upper_to_lower | apply to_lower_to_lower].
Qed.

(** A text without letters is its own title *)
Lemma title_from_uncased :
  forall s b, sexists is_cased s = false -> title_from b s = s.
Proof.
  induction s as [|c s IH]; intros b H; simpl in *; [reflexivity |].
  apply orb_false_iff in H. destruct H as [Hc Hs].
  rewrite Hc, (IH _ Hs).
  unfold is_cased in Hc. apply orb_false_iff in Hc. destruct Hc as [Hu Hl].
  rewrite (to_lower_not_upper c Hu), (to_upper_not_lower c Hl).
  destruct b; reflexivity.
Qed.

Lemma isupper_upper : forall s, isupper (upper s) = sexists is_cased s.
Proof.
  intros s. unfold isupper. rewrite upper_no_lower, andb_true_r.
  unfold upper. rewrite sexists_smap.
  apply sexists_ext. apply is_upper_to_upper.
Qed.

Lemma islower_lower : forall s, islower (lower s) = sexists is_cased s.
Proof.
  intros s. unfold islower. rewrite lower_no_upper, andb_true_r.
  unfold lower. rewrite sexists_smap.
  apply sexists_ext. apply is_lower_to_lower.
Qed.

Lemma islower_upper : forall s, islower (upper s) = false.
Proof. intros s. unfold islower. rewrite upper_no_lower. reflexivity. Qed.

Lemma isupper_lower : forall s, isupper (lower s) = false.
Proof. intros s. unfold isupper. rewrite lower_no_upper. reflexivity. Qed.

(** The clean form of a name written in upper case only *)
Lemma clean_entity_name_upper :
  forall s, _clean_entity_name (Some (upper s)) = title (trimmed s).
Proof.
  intros s. rewrite clean_entity_name_trimmed, trimmed_upper.
  rewrite isupper_upper, islower_upper, orb_false_r.
  destruct (sexists is_cased (trimmed s)) eqn:E.
  - apply title_upper.
  - rewrite upper_fixed.
    + symmetry. apply title_from_uncased. exact E.
    + rewrite sexists_is_cased in E. apply orb_false_iff in E. apply E.
Qed.

Lemma clean_entity_name_lower :
  forall s, _clean_entity_name (Some (lower s)) = title (trimmed s).
Proof.
  intros s. rewrite clean_entity_name_trimmed, trimmed_lower.
  rewrite islower_lower, isupper_lower, orb_false_l.
  destruct (sexists is_cased (trimmed s)) eqn:E.
  - apply title_lower.
  - rewrite lower_fixed.
    + symmetry. apply title_from_uncased. exact E.
    + rewrite sexists_is_cased in E. apply orb_false_iff in E. apply E.
Qed.

Lemma title_trimmed_lower :
  forall s, title (trimmed (lower s)) = title (trimmed s).
Proof. intros s. rewrite trimmed_lower. apply title_lower. Qed.

Lemma one_case_clean :
  forall s, one_case s = true ->
    _clean_entity_name (Some s) = title (trimmed (lower s)).
Proof.
  intros s H. unfold one_case in H. apply negb_true_iff in H.
  rewrite title_trimmed_lower.
  apply andb_false_iff in H. destruct H as [H | H].
  - rewrite <- (lower_fixed s H) at 1. apply clean_entity_name_lower.
  - rewrite <- (upper_fixed s H) at 1. apply clean_entity_name_upper.
Qed.

(** Two names that differ in letter case only, each written in one case
    (all capitals, all small letters, or no letter at all), have the same
    clean form: the title-cased trimmed text.  A name in mixed case is not
    covered: its letters are left as they are.  This is stated for names
    written in ASCII characters, on which the letter cases of [str.lower],
    [str.isupper], [str.islower] and [str.title] are the ones of this
    development; the clean form is again written in ASCII characters. *)
Theorem clean_entity_name_one_case :
  forall a b,
    ascii_text a = true -> ascii_text b = true ->
    lower a = lower b -> one_case a = true -> one_case b = true ->
    _clean_entity_name (Some a) = _clean_entity_name (Some b)
    /\ _clean_entity_name (Some a) = title (trimmed (lower a))
    /\ ascii_text (_clean_entity_name (Some a)) = true.
Proof.
  intros a b Aa Ab E Ha Hb.
  split; [| split].
  - rewrite (one_case_clean a Ha), (one_case_clean b Hb), E. reflexivity.
  - apply (one_case_clean a Ha).
  - apply ascii_text_clean_entity_name. exact Aa.
Qed.

Lemma clean_entity_name_one_case_witness :
  ascii_text "APPLE  INC" = true /\ ascii_text "apple  inc" = true
  /\ lower "APPLE  INC" = lower "apple  inc"
  /\ one_case "APPLE  INC" = true /\ one_case "apple  inc" = true
  /\ _clean_entity_name (Some "APPLE  INC") = _clean_entity_name (Some "apple  inc")
  /\ _clean_entity_name (Some "APPLE  INC") = "Apple Inc"
  /\ ascii_text (_clean_entity_name (Some "APPLE  INC")) = true.
Proof.
  split; [reflexivity |]. split; [reflexivity |].
  split; [reflexivity |]. split; [reflexivity |]. split; [reflexivity |].
  exact (clean_entity_name_one_case "APPLE  INC" "apple  inc"
           eq_refl eq_refl eq_refl eq_refl eq_refl).
Defined.

(** *** Whitespace and quotes in a clean name *)

Lemma single_spaced_weaken :
  forall s, single_spaced true s = true -> single_spaced false s = true.
Proof.
  intros [|c s]; simpl; [reflexivity |].
  destruct (is_space c); [| exact (fun H => H)].
  rewrite andb_false_r. discriminate.
Qed.

Lemma single_spaced_any :
  forall s b, single_spaced b s = true -> single_spaced false s = true.
Proof. intros s [] H; [apply single_spaced_weaken |]; exact H. Qed.

Lemma single_spaced_collapse :
  forall s in_run, single_spaced in_run (collapse_whitespace in_run s) = true.
Proof.
  induction s as [|c s IH]; intros in_run; simpl; [reflexivity |].
  destruct (is_space c) eqn:E.
  - destruct in_run; [apply IH |]. simpl.
    change (is_space SPACE) with true. cbv iota.
    rewrite (IH true). reflexivity.
  - simpl. rewrite E. apply IH.
Qed.

Lemma single_spaced_lstrip :
  forall p s b, single_spaced b s = true -> single_spaced false (lstrip_by p s) = true.
Proof.
  induction s as [|c s IH]; intros b H; simpl; [reflexivity |].
  destruct (p c).
  - simpl in H. destruct (is_space c).
    + apply andb_true_iff in H. apply (IH true). apply H.
    + apply (IH false). exact H.
  - apply (single_spaced_any _ b). exact H.
Qed.

Lemma single_spaced_rstrip :
  forall p s b, single_spaced b s = true -> single_spaced b (rstrip_by p s) = true.
Proof.
  induction s as [|c s IH]; intros b H; simpl; [reflexivity |].
  simpl in H.
  destruct (rstrip_by p s) as [|d r] eqn:E.
  - destruct (p c); [reflexivity |]. simpl.
    destruct (is_space c); [| reflexivity].
    apply andb_true_iff in H. destruct H as [H _]. rewrite H. reflexivity.
  - change (single_spaced b (String c (String d r)) = true).
    cbn [single_spaced] in *.
    destruct (is_space c).
    + apply andb_true_iff in H. destruct H as [H1 H2].
      rewrite H1. apply (IH true H2).
    + apply (IH false H).
Qed.

Lemma single_spaced_title_from :
  forall s b p, single_spaced b (title_from p s) = single_spaced b s.
Proof.
  induction s as [|c s IH]; intros b p; simpl; [reflexivity |].
  destruct (is_space c) eqn:E.
  - assert (Ec : (if p then to_lower c else to_upper c) = c)
      by (destruct p; [apply space_to_lower | apply space_to_upper]; exact E).
    rewrite Ec, E, IH. reflexivity.
  - assert (Ec : is_space (if p then to_lower c else to_upper c) = false)
      by (destruct p; [rewrite is_space_to_lower | rewrite is_space_to_upper];
          exact E).
    rewrite Ec. apply IH.
Qed.

Lemma single_spaced_trimmed : forall s, single_spaced false (trimmed s) = true.
Proof.
  intros s. unfold trimmed, strip_by.
  apply single_spaced_rstrip. apply (single_spaced_lstrip _ _ false).
  apply single_spaced_collapse.
Qed.

Lemma lstrip_quote_title_from :
  forall s, lstrip_by is_quote (title_from false s)
            = title_from false (lstrip_by is_quote s).
Proof.
  induction s as [|c s IH]; simpl; [reflexivity |].
  rewrite is_quote_to_upper.
  destruct (is_quote c) eqn:E; [| reflexivity].
  rewrite (quote_is_uncased c E). exact IH.
Qed.

Lemma rstrip_quote_title_from :
  forall s b, rstrip_by is_quote (title_from b s)
              = title_from b (rstrip_by is_quote s).
Proof.
  induction s as [|c s IH]; intros b; simpl; [reflexivity |].
  rewrite IH.
  assert (Eq : is_quote (if b then to_lower c else to_upper c) = is_quote c)
    by (destruct b; [apply is_quote_to_lower | apply is_quote_to_upper]).
  destruct (rstrip_by is_quote s) as [|d r]; simpl.
  - rewrite Eq. destruct (is_quote c); reflexivity.
  - reflexivity.
Qed.

Lemma strip_quote_title :
  forall s, strip_by is_quote (title s) = title (strip_by is_quote s).
Proof.
  intros s. unfold strip_by, title.
  rewrite lstrip_quote_title_from, rstrip_quote_title_from. reflexivity.
Qed.

Lemma strip_quote_trimmed :
  forall s, strip_by is_quote (trimmed s) = trimmed s.
Proof. intros s. unfold trimmed. apply strip_by_idempotent. Qed.

(** In a clean name every whitespace character is a single space between
    two other characters or at an end (runs of whitespace, tabs and line
    feeds are gone), and the name neither begins nor ends with a quote:
    stripping quotes again changes nothing. *)
Theorem clean_entity_name_normal_form :
  forall entity,
    single_spaced false (_clean_entity_name entity) = true
    /\ strip_by is_quote (_clean_entity_name entity) = _clean_entity_name entity.
Proof.
  intros [entity|]; [| split; reflexivity].
  rewrite clean_entity_name_trimmed.
  destruct (isupper (trimmed entity) || islower (trimmed entity)).
  - split.
    + unfold title. rewrite single_spaced_title_from. apply single_spaced_trimmed.
    + rewrite strip_quote_title, strip_quote_trimmed. reflexivity.
  - split; [apply single_spaced_trimmed | apply strip_quote_trimmed].
Qed.

End EntityNameFacts.

(** ** Floating-point comparisons *)

Module FloatOrderFacts.
Import FloatOrder.

Ltac order_cases :=
  repeat match goal with
         | |- context [Z.compare ?a ?b] => destruct (Z.compare_spec a b)
         | |- context [Pos.compare_cont Eq ?a ?b] =>
             change (Pos.compare_cont Eq a b) with (Pos.compare a b);
             destruct (Pos.compare_spec a b)
         end.

Ltac by_rank a b Ha Hb :=
  destruct a as [[]|[]| |[] ? ?], b as [[]|[]| |[] ? ?];
  try (exfalso; apply Ha; reflexivity); try (exfalso; apply Hb; reflexivity);
  simpl; order_cases; simpl;
  let G := fresh in
  split; intros G; first [reflexivity | discriminate | lia].

Lemma SFleb_rank :
  forall a b, number a -> number b ->
    (SFleb a b = true <-> lex_le (rank a) (rank b)).
Proof. intros a b Ha Hb. unfold SFleb, lex_le. by_rank a b Ha Hb. Qed.

Lemma SFltb_rank :
  forall a b, number a -> number b ->
    (SFltb a b = false <-> lex_le (rank b) (rank a)).
Proof. intros a b Ha Hb. unfold SFltb, lex_le. by_rank a b Ha Hb. Qed.

Lemma lex_le_trans : forall a b c, lex_le a b -> lex_le b c -> lex_le a c.
Proof.
  intros [[a1 a2] a3] [[b1 b2] b3] [[c1 c2] c3]. unfold lex_le. simpl. lia.
Qed.

Lemma leb_number :
  forall x y : float, PrimFloat.leb x y = true ->
    number (Prim2SF x) /\ number (Prim2SF y).
Proof.
  intros x y H. rewrite leb_spec in H. unfold SFleb, SFcompare in H.
  split; intros E; rewrite E in H.
  - discriminate.
  - destruct (Prim2SF x); discriminate.
Qed.

Lemma leb_trans :
  forall x y z : float,
    PrimFloat.leb x y = true -> PrimFloat.leb y z = true ->
    PrimFloat.leb x z = true.
Proof.
  intros x y z Hxy Hyz.
  destruct (leb_number x y Hxy) as [Nx Ny].
  destruct (leb_number y z Hyz) as [_ Nz].
  rewrite leb_spec in *.
  apply (SFleb_rank _ _ Nx Nz).
  apply (lex_le_trans _ (rank (Prim2SF y))).
  - apply (SFleb_rank _ _ Nx Ny). exact Hxy.
  - apply (SFleb_rank _ _ Ny Nz). exact Hyz.
Qed.

Lemma ltb_leb :
  forall x y : float, PrimFloat.ltb x y = true -> PrimFloat.leb x y = true.
Proof.
  intros x y. rewrite ltb_spec, leb_spec. unfold SFltb, SFleb.
  destruct (SFcompare (Prim2SF x) (Prim2SF y)) as [[| |]|];
    intros H; first [reflexivity | discriminate].
Qed.

Lemma not_ltb_leb :
  forall x y : float,
    number (Prim2SF x) -> number (Prim2SF y) ->
    PrimFloat.ltb x y = false -> PrimFloat.leb y x = true.
Proof.
  intros x y Nx Ny. rewrite ltb_spec, leb_spec. intros H.
  apply (SFleb_rank _ _ Ny Nx). apply (SFltb_rank _ _ Nx Ny). exact H.
Qed.

End FloatOrderFacts.

(** ** Normalizer: the output of the cleaning pipeline *)

Module OutputFacts.
Import PyStr Spec DataCleaner Output CleanerFacts FloatOrder FloatOrderFacts.
Local Open Scope string_scope.
Local Open Scope list_scope.

Lemma columns_DataFrame_of :
  forall batch,
    in_columns "confidence" (DataFrame_of batch) = has_confidence batch
    /\ in_columns "head_type" (DataFrame_of batch) = has_head_type batch
    /\ in_columns "tail_type" (DataFrame_of batch) = has_tail_type batch.
Proof.
  intros batch. unfold in_columns, DataFrame_of, has_confidence, has_head_type,
    has_tail_type. simpl.
  destruct (existsb (fun t => is_some (confidence t)) batch),
           (existsb (fun t => is_some (head_type t)) batch),
           (existsb (fun t => is_some (tail_type t)) batch); repeat split.
Qed.

Lemma in_columns_add_head_type :
  forall name df,
    String.eqb name "head_type" = false ->
    in_columns name (add_head_type df) = in_columns name df.
Proof.
  intros name df H. unfold add_head_type.
  destruct (in_columns "head_type" df); [reflexivity |].
  unfold in_columns. simpl. rewrite existsb_app. simpl.
  rewrite H. rewrite !orb_false_r. reflexivity.
Qed.

Lemma in_columns_add_tail_type :
  forall name df,
    String.eqb name "tail_type" = false ->
    in_columns name (add_tail_type df) = in_columns name df.
Proof.
  intros name df H. unfold add_tail_type.
  destruct (in_columns "tail_type" df); [reflexivity |].
  unfold in_columns. simpl. rewrite existsb_app. simpl.
  rewrite H. rewrite !orb_false_r. reflexivity.
Qed.

Lemma rows_add_head_type :
  forall df,
    rows (add_head_type df)
    = map (fun r => if in_columns "head_type" df then r else set_head_type r)
          (rows df).
Proof.
  intros df. unfold add_head_type.
  destruct (in_columns "head_type" df); simpl; [| reflexivity].
  symmetry. apply map_id.
Qed.

Lemma rows_add_tail_type :
  forall df,
    rows (add_tail_type df)
    = map (fun r => if in_columns "tail_type" df then r else set_tail_type r)
          (rows df).
Proof.
  intros df. unfold add_tail_type.
  destruct (in_columns "tail_type" df); simpl; [| reflexivity].
  symmetry. apply map_id.
Qed.

Lemma filter_all : forall A (l : list A), filter (fun _ => true) l = l.
Proof. induction l as [|x l IH]; simpl; [| rewrite IH]; reflexivity. Qed.

Lemma rows_filter_confidence :
  forall cfg batch,
    rows (filter_confidence cfg (drop_duplicates (DataFrame_of batch)))
    = filter (fun t => negb (has_confidence batch)
                       || confidence_ge (confidence_threshold cfg) (confidence t))
             (drop_duplicates_from [] batch).
Proof.
  intros cfg batch. unfold filter_confidence.
  change (in_columns "confidence" (drop_duplicates (DataFrame_of batch)))
    with (in_columns "confidence" (DataFrame_of batch)).
  rewrite (proj1 (columns_DataFrame_of batch)).
  destruct (has_confidence batch); simpl; [reflexivity |].
  symmetry. apply filter_all.
Qed.

(** Steps 3 to 7 on a list of records, as one selection and one map *)
Lemma steps_3_to_7 :
  forall cfg batch l,
    map (fun r => if has_tail_type batch then r else set_tail_type r)
      (map (fun r => if has_head_type batch then r else set_head_type r)
         (filter (fun t => negb (String.eqb (head t) (tail t)))
            (filter (fun t => existsb (String.eqb (relation t)) (relation_types cfg))
               (map standardize_row
                  (filter (fun t => negb (has_confidence batch)
                                    || confidence_ge (confidence_threshold cfg)
                                                     (confidence t))
                          l)))))
    = map (cleaned batch) (filter (passes cfg batch) l).
Proof.
  intros cfg batch. induction l as [|t l IH]; [reflexivity |].
  unfold passes at 1. cbn [filter].
  destruct (negb (has_confidence batch)
            || confidence_ge (confidence_threshold cfg) (confidence t));
    cbn [andb map filter]; [| exact IH].
  cbn [standardize_row relation head tail].
  destruct (existsb (String.eqb (_standardize_relation (relation t)))
                    (relation_types cfg));
    cbn [andb map filter]; [| exact IH].
  cbn [standardize_row relation head tail].
  destruct (negb (String.eqb (_clean_entity_name (head t))
                             (_clean_entity_name (tail t))));
    cbn [andb map filter]; [| exact IH].
  rewrite IH. f_equal.
  unfold cleaned, set_head_type, set_tail_type, standardize_row.
  destruct (has_head_type batch), (has_tail_type batch); reflexivity.
Qed.

(** The rows of the output: the survivors, sorted when the batch has a
    confidence column *)
Lemma rows_clean_triplets :
  forall cfg batch,
    rows (clean_triplets cfg batch)
    = if has_confidence batch
      then fold_right insert_descending [] (survivors cfg batch)
      else survivors cfg batch.
Proof.
  intros cfg batch. destruct batch as [|t0 batch]; [reflexivity |].
  unfold clean_triplets. cbv beta iota.
  change (empty (DataFrame_of (t0 :: batch))) with false. cbv beta iota zeta.
  set (b := t0 :: batch).
  set (df5 := filter_self_references
                (filter_valid_relations cfg
                   (standardize (filter_confidence cfg
                                   (drop_duplicates (DataFrame_of b)))))).
  assert (Ecols : forall name, in_columns name df5 = in_columns name (DataFrame_of b)).
  { intros name. unfold in_columns. f_equal.
    unfold df5, filter_self_references, filter_valid_relations, select,
      standardize, filter_confidence.
    destruct (in_columns "confidence" (drop_duplicates (DataFrame_of b)));
      reflexivity. }
  destruct (columns_DataFrame_of b) as (Ec & Eh & Et).
  assert (Erows : rows (add_tail_type (add_head_type df5)) = survivors cfg b).
  { rewrite rows_add_tail_type, rows_add_head_type.
    rewrite in_columns_add_head_type by reflexivity.
    rewrite !Ecols, Eh, Et.
    unfold df5, filter_self_references, filter_valid_relations, select, standardize.
    cbn [rows]. rewrite rows_filter_confidence.
    apply steps_3_to_7. }
  unfold sort_by_confidence.
  rewrite in_columns_add_tail_type, in_columns_add_head_type by reflexivity.
  rewrite Ecols, Ec.
  destruct (has_confidence b); cbn [rows]; rewrite Erows; reflexivity.
Qed.

Lemma insert_descending_permutation :
  forall T (t : Triplet T) l, Permutation (insert_descending t l) (t :: l).
Proof.
  intros T t. induction l as [|u l IH]; simpl; [apply Permutation_refl |].
  destruct (sorts_before (confidence u) (confidence t)).
  - apply (perm_trans (perm_skip u IH)). apply perm_swap.
  - apply Permutation_refl.
Qed.

Lemma sort_permutation :
  forall T (l : list (Triplet T)),
    Permutation (fold_right insert_descending [] l) l.
Proof.
  induction l as [|t l IH]; simpl; [apply perm_nil |].
  apply (perm_trans (insert_descending_permutation T t _)).
  apply perm_skip. exact IH.
Qed.

Lemma clean_triplets_permutation :
  forall cfg batch,
    Permutation (rows (clean_triplets cfg batch)) (survivors cfg batch).
Proof.
  intros cfg batch. rewrite rows_clean_triplets.
  destruct (has_confidence batch); [apply sort_permutation | apply Permutation_refl].
Qed.

Lemma has_confidence_false :
  forall batch,
    has_confidence batch = false <-> (forall u, In u batch -> confidence u = None).
Proof.
  intros batch. unfold has_confidence. split.
  - intros H u Hu. destruct (confidence u) as [c|] eqn:E; [| reflexivity].
    assert (X : existsb (fun t => is_some (confidence t)) batch = true).
    { apply existsb_exists. exists u. rewrite E. auto. }
    rewrite H in X. discriminate.
  - intros H. destruct (existsb _ batch) eqn:E; [| reflexivity].
    apply existsb_exists in E. destruct E as (u & Hu & Hs).
    rewrite (H u Hu) in Hs. discriminate.
Qed.

Lemma passes_iff :
  forall cfg batch t,
    passes cfg batch t = true
    <-> ((forall u, In u batch -> confidence u = None)
         \/ (exists c, confidence t = Some c
                       /\ PrimFloat.leb (confidence_threshold cfg) c = true))
        /\ In (_standardize_relation (relation t)) (relation_types cfg)
        /\ _clean_entity_name (head t) <> _clean_entity_name (tail t).
Proof.
  intros cfg batch t. unfold passes.
  rewrite !andb_true_iff, orb_true_iff, negb_true_iff, negb_true_iff.
  rewrite has_confidence_false, String.eqb_neq.
  assert (Hc : confidence_ge (confidence_threshold cfg) (confidence t) = true
               <-> exists c, confidence t = Some c
                     /\ PrimFloat.leb (confidence_threshold cfg) c = true).
  { unfold confidence_ge. destruct (confidence t) as [c|].
    - split; [intros H; exists c; auto | intros (c' & E & H); inversion E; subst; exact H].
    - split; [discriminate | intros (c' & E & _); discriminate]. }
  assert (Hv : existsb (String.eqb (_standardize_relation (relation t)))
                       (relation_types cfg) = true
               <-> In (_standardize_relation (relation t)) (relation_types cfg)).
  { rewrite existsb_exists. split.
    - intros (x & Hx & E). apply String.eqb_eq in E. rewrite E. exact Hx.
    - intros H. exists (_standardize_relation (relation t)).
      split; [exact H | apply String.eqb_refl]. }
  rewrite Hc, Hv. tauto.
Qed.

Lemma In_survivors :
  forall cfg batch r,
    In r (survivors cfg batch)
    <-> exists t, FirstOccurrence batch t /\ passes cfg batch t = true
                  /\ r = cleaned batch t.
Proof.
  intros cfg batch r. unfold survivors. rewrite in_map_iff. split.
  - intros (t & <- & H). apply filter_In in H. destruct H as [H P].
    exists t. split; [| auto].
    apply In_drop_duplicates. exact H.
  - intros (t & F & P & ->). exists t. split; [reflexivity |].
    apply filter_In. split; [| exact P].
    apply (proj2 (In_drop_duplicates batch t)). exact F.
Qed.

(** The Normalizer's output, record by record: a record is in the output
    exactly when it is the output form of a record [t] of the batch that is
    the first of its (head, relation, tail) key, whose confidence is at
    least the threshold (or no record of the batch has a confidence),
    whose standardized relation is one of the configured relation types,
    and whose cleaned head differs from its cleaned tail.  The output form
    has the cleaned names, the standardized relation, the confidence of
    [t], and the types of [t] or, when the batch has no type column, the
    types inferred from the cleaned names. *)
Theorem clean_triplets_rows :
  forall cfg batch r,
    In r (rows (clean_triplets cfg batch))
    <-> exists t,
          FirstOccurrence batch t
          /\ ((forall u, In u batch -> confidence u = None)
              \/ (exists c, confidence t = Some c
                            /\ PrimFloat.leb (confidence_threshold cfg) c = true))
          /\ In (_standardize_relation (relation t)) (relation_types cfg)
          /\ _clean_entity_name (head t) <> _clean_entity_name (tail t)
          /\ r = cleaned batch t.
Proof.
  intros cfg batch r. split.
  - intros H.
    apply (Permutation_in _ (clean_triplets_permutation cfg batch)) in H.
    apply In_survivors in H. destruct H as (t & F & P & E).
    apply passes_iff in P. exists t. tauto.
  - intros (t & F & C & V & L & E).
    apply (Permutation_in _ (Permutation_sym (clean_triplets_permutation cfg batch))).
    apply In_survivors. exists t. split; [exact F |]. split; [| exact E].
    apply passes_iff. tauto.
Qed.

(** What every record of the output is known to satisfy: its relation is
    one of the configured relation types; when some record of the batch
    carries a confidence, its confidence is a number at least the
    threshold, and when none does, it has none; and when no record of the
    batch carries a type, both its types are present, inferred from its
    own names. *)
Theorem clean_triplets_guarantees :
  forall cfg batch r,
    In r (rows (clean_triplets cfg batch)) ->
    In (relation r) (relation_types cfg)
    /\ (has_confidence batch = true ->
        exists c, confidence r = Some c
                  /\ PrimFloat.leb (confidence_threshold cfg) c = true)
    /\ (has_confidence batch = false -> confidence r = None)
    /\ (has_head_type batch = false ->
        head_type r = Some (_infer_entity_type (Some (head r))))
    /\ (has_tail_type batch = false ->
        tail_type r = Some (_infer_entity_type (Some (tail r)))).
Proof.
  intros cfg batch r H.
  apply (Permutation_in _ (clean_triplets_permutation cfg batch)) in H.
  apply In_survivors in H. destruct H as (t & F & P & ->).
  apply passes_iff in P. destruct P as (C & V & _).
  split; [exact V |]. cbn [cleaned confidence head_type tail_type head tail].
  split; [| split; [| split]].
  - intros Hc. destruct C as [C | C]; [| exact C].
    apply has_confidence_false in C. rewrite C in Hc. discriminate.
  - intros Hc. apply has_confidence_false with (u := t) in Hc; [exact Hc |].
    destruct F as (before & after & -> & _).
    apply in_or_app. right. left. reflexivity.
  - intros ->. reflexivity.
  - intros ->. reflexivity.
Qed.

Lemma clean_triplets_guarantees_witness :
  In {| head := "Apple"; relation := "ACQUIRED"; tail := "DarwinAI";
        confidence := Some 0.95%float;
        head_type := Some "ENTITY"; tail_type := Some "ENTITY" |}
     (rows (clean_triplets Samples.config test_triplets))
  /\ In "ACQUIRED" (relation_types Samples.config).
Proof.
  assert (H : In {| head := "Apple"; relation := "ACQUIRED"; tail := "DarwinAI";
                    confidence := Some 0.95%float;
                    head_type := Some "ENTITY"; tail_type := Some "ENTITY" |}
                 (rows (clean_triplets Samples.config test_triplets))).
  { vm_compute. left. reflexivity. }
  split; [exact H |].
  exact (proj1 (clean_triplets_guarantees Samples.config test_triplets _ H)).
Defined.

(** *** Records that clean to the same triple *)

Lemma map_collision :
  forall A B (f : A -> B) l a b,
    NoDup (map f l) -> In a l -> In b l -> f a = f b -> a = b.
Proof.
  intros A B f. induction l as [|x l IH]; intros a b Hnd Ha Hb E; [contradiction |].
  simpl in Hnd. inversion Hnd as [|? ? Hx Hl]; subst.
  destruct Ha as [-> | Ha], Hb as [-> | Hb].
  - reflexivity.
  - exfalso. apply Hx. rewrite E. apply in_map. exact Hb.
  - exfalso. apply Hx. rewrite <- E. apply in_map. exact Ha.
  - apply (IH a b Hl Ha Hb E).
Qed.

(** Duplicates are removed before the names are cleaned and the relation
    standardized, and not again after: two records of the batch with
    different keys, both first of their key and both passing the filters,
    whose output forms have the same (head, relation, tail), are both in the
    output, which then holds that triple more than once. *)
Theorem cleaned_duplicates_are_kept :
  forall cfg batch t1 t2,
    FirstOccurrence batch t1 -> FirstOccurrence batch t2 ->
    passes cfg batch t1 = true -> passes cfg batch t2 = true ->
    key t1 <> key t2 ->
    triple (cleaned batch t1) = triple (cleaned batch t2) ->
    In (cleaned batch t1) (rows (clean_triplets cfg batch))
    /\ In (cleaned batch t2) (rows (clean_triplets cfg batch))
    /\ ~ NoDup (map triple (rows (clean_triplets cfg batch))).
Proof.
  intros cfg batch t1 t2 F1 F2 P1 P2 Hk Ht.
  pose proof (clean_triplets_permutation cfg batch) as Hp.
  assert (I1 : In t1 (filter (passes cfg batch) (drop_duplicates_from [] batch))).
  { apply filter_In. split; [| exact P1].
    apply (proj2 (In_drop_duplicates batch t1)). exact F1. }
  assert (I2 : In t2 (filter (passes cfg batch) (drop_duplicates_from [] batch))).
  { apply filter_In. split; [| exact P2].
    apply (proj2 (In_drop_duplicates batch t2)). exact F2. }
  split; [| split].
  - apply (Permutation_in _ (Permutation_sym Hp)). apply in_map. exact I1.
  - apply (Permutation_in _ (Permutation_sym Hp)). apply in_map. exact I2.
  - intros Hnd.
    apply (Permutation_NoDup (Permutation_map triple Hp)) in Hnd.
    unfold survivors in Hnd. rewrite map_map in Hnd.
    apply Hk. f_equal.
    apply (map_collision _ _ (fun t => triple (cleaned batch t)) _ t1 t2 Hnd I1 I2 Ht).
Qed.

Lemma cleaned_duplicates_are_kept_witness :
  FirstOccurrence test_triplets
    (Samples.extracted "Apple" "acquired" "DarwinAI" (Some 0.95%float))
  /\ FirstOccurrence test_triplets
       (Samples.extracted "Apple" "bought" "DarwinAI" (Some 0.85%float))
  /\ ~ NoDup (map triple (rows (clean_triplets Samples.config test_triplets))).
Proof.
  assert (F1 : FirstOccurrence test_triplets
                 (Samples.extracted "Apple" "acquired" "DarwinAI" (Some 0.95%float))).
  { exists [], (tl test_triplets). split; [reflexivity |]. intros u []. }
  assert (F2 : FirstOccurrence test_triplets
                 (Samples.extracted "Apple" "bought" "DarwinAI" (Some 0.85%float))).
  { exists [Samples.extracted "Apple" "acquired" "DarwinAI" (Some 0.95%float)],
           (tl (tl test_triplets)).
    split; [reflexivity |]. intros u [<- | []]. discriminate. }
  split; [exact F1 |]. split; [exact F2 |].
  apply (cleaned_duplicates_are_kept Samples.config test_triplets _ _ F1 F2).
  - reflexivity.
  - reflexivity.
  - discriminate.
  - reflexivity.
Defined.

(** *** The order of the output *)

Lemma not_below_cases :
  forall t u,
    numeric t -> numeric u ->
    if sorts_before (confidence u) (confidence t)
    then not_below u t else not_below t u.
Proof.
  intros t u (x & Ex & Nx) (y & Ey & Ny). rewrite Ex, Ey. simpl.
  destruct (PrimFloat.ltb x y) eqn:E.
  - exists y, x. split; [exact Ey | split; [exact Ex |]]. apply ltb_leb. exact E.
  - exists x, y. split; [exact Ex | split; [exact Ey |]].
    apply not_ltb_leb; assumption.
Qed.

Lemma not_below_trans :
  forall a b c, not_below a b -> not_below b c -> not_below a c.
Proof.
  intros a b c (x & y & Ex & Ey & Hyx) (y' & z & Ey' & Ez & Hzy).
  rewrite Ey in Ey'. inversion Ey'; subst y'.
  exists x, z. split; [exact Ex | split; [exact Ez |]].
  apply (leb_trans z y x Hzy Hyx).
Qed.

Lemma insert_descending_sorted :
  forall t l,
    numeric t -> Forall numeric l ->
    StronglySorted not_below l ->
    StronglySorted not_below (insert_descending t l).
Proof.
  intros t l Nt. induction l as [|u l IH]; intros Nl Hs; simpl.
  - constructor; constructor.
  - inversion Nl as [|? ? Nu Nl']; subst.
    inversion Hs as [|? ? Hs' Hu]; subst.
    pose proof (not_below_cases t u Nt Nu) as C.
    destruct (sorts_before (confidence u) (confidence t)).
    + constructor; [apply (IH Nl' Hs') |].
      apply Forall_forall. intros r Hr.
      apply In_insert_descending in Hr. destruct Hr as [-> | Hr]; [exact C |].
      apply (proj1 (Forall_forall _ _) Hu r Hr).
    + constructor; [exact Hs |].
      constructor; [exact C |].
      apply Forall_forall. intros r Hr.
      apply (not_below_trans t u r C).
      apply (proj1 (Forall_forall _ _) Hu r Hr).
Qed.

Lemma sort_sorted :
  forall l : list (Triplet string),
    Forall numeric l ->
    StronglySorted not_below (fold_right insert_descending [] l).
Proof.
  induction l as [|t l IH]; intros Nl; simpl; [constructor |].
  inversion Nl as [|? ? Nt Nl']; subst.
  apply insert_descending_sorted; [exact Nt | | apply IH; exact Nl'].
  apply Forall_forall. intros r Hr.
  apply (Permutation_in _ (sort_permutation _ l)) in Hr.
  apply (proj1 (Forall_forall _ _) Nl' r Hr).
Qed.

Lemma survivors_numeric :
  forall cfg batch,
    has_confidence batch = true -> Forall numeric (survivors cfg batch).
Proof.
  intros cfg batch Hc. apply Forall_forall. intros r Hr.
  apply In_survivors in Hr. destruct Hr as (t & _ & P & ->).
  unfold passes in P. rewrite Hc in P. simpl in P.
  apply andb_true_iff in P. destruct P as [P _].
  apply andb_true_iff in P. destruct P as [P _].
  unfold confidence_ge in P. unfold numeric. simpl.
  destruct (confidence t) as [c|]; [| discriminate].
  exists c. split; [reflexivity |]. apply (leb_number _ _ P).
Qed.

(** When some record of the batch carries a confidence, the output is
    sorted by falling confidence: every record carries a number, and of
    two records the later one never has the larger number.  When no
    record carries one, the output keeps the order of the batch. *)
Theorem clean_triplets_sorted :
  forall cfg batch,
    (has_confidence batch = true ->
     StronglySorted not_below (rows (clean_triplets cfg batch)))
    /\ (has_confidence batch = false ->
        rows (clean_triplets cfg batch) = survivors cfg batch).
Proof.
  intros cfg batch. rewrite rows_clean_triplets. split; intros H; rewrite H.
  - apply sort_sorted. apply survivors_numeric. exact H.
  - reflexivity.
Qed.

End OutputFacts.

(** ** GraphStore: what a build leaves in the graph *)

Module BuildMore.
Import DataCleaner Neo4j Py Neo4jGraphBuilder Shape Keyed Programs GraphSpec.
Import MergeFacts GraphFacts BuildFacts KeyedFacts RefineFacts ProgramFacts
       Idempotence.
Local Open Scope string_scope.
Local Open Scope list_scope.


Lemma build_db_fold :
  forall df clear_existing g,
    empty df = false ->
    build_db df clear_existing g
    = fold_left (fun g p => import_batch_db p g) (payloads df)
        (create_constraints_db (if clear_existing then run_clear g else g)).
Proof. intros df c g H. unfold build_db. rewrite H. reflexivity. Qed.












(** *** Nothing is lost *)

Lemma grows_refl : forall g, grows g g.
Proof.
  intros g. split.
  - intros i n H. exists n. split; [exact H | split; [reflexivity |]].
    intros x Hx. exact Hx.
  - intros j r H. exists r. auto.
Qed.

Lemma grows_trans : forall g1 g2 g3, grows g1 g2 -> grows g2 g3 -> grows g1 g3.
Proof.
  intros g1 g2 g3 [N12 R12] [N23 R23]. split.
  - intros i n H. destruct (N12 i n H) as (n2 & H2 & E2 & L2).
    destruct (N23 i n2 H2) as (n3 & H3 & E3 & L3).
    exists n3. split; [exact H3 | split; [congruence |]].
    intros x Hx. apply L3. apply L2. exact Hx.
  - intros j r H. destruct (R12 j r H) as (r2 & H2 & E2).
    destruct (R23 j r2 H2) as (r3 & H3 & E3).
    exists r3. split; [exact H3 | congruence].
Qed.

(** Two graphs with the same nodes and relationships *)
Lemma grows_same :
  forall g g',
    nodes g' = nodes g -> relationships g' = relationships g -> grows g g'.
Proof.
  intros g g' En Er. unfold grows. rewrite En, Er. apply grows_refl.
Qed.

Lemma nth_error_update_at :
  forall A (f : A -> A) i (l : list A) j a,
    nth_error l j = Some a ->
    nth_error (update_at i f l) j = Some (if Nat.eqb i j then f a else a).
Proof.
  intros A f i l. revert i.
  induction l as [|x l IH]; intros i j a H; [destruct j; discriminate |].
  destruct i as [|i], j as [|j]; simpl in *; try exact H.
  - inversion H; subst. reflexivity.
  - apply IH. exact H.
Qed.

Lemma grows_update_node :
  forall f i g,
    (forall n, n_name (f n) = n_name n /\ incl (n_labels n) (n_labels (f n))) ->
    grows g (with_nodes (update_at i f (nodes g)) g).
Proof.
  intros f i g Hf. split; simpl.
  - intros j n H. rewrite (nth_error_update_at _ f i _ j n H).
    destruct (Nat.eqb i j).
    + exists (f n). destruct (Hf n). auto.
    + exists n. split; [reflexivity | split; [reflexivity |]]. intros x Hx. exact Hx.
  - intros j r H. exists r. auto.
Qed.

Lemma grows_update_relationship :
  forall f i g,
    (forall r, rel_key (f r) = rel_key r) ->
    grows g (with_relationships (update_at i f (relationships g)) g).
Proof.
  intros f i g Hf. split; simpl.
  - intros j n H. exists n. split; [exact H | split; [reflexivity |]].
    intros x Hx. exact Hx.
  - intros j r H. rewrite (nth_error_update_at _ f i _ j r H).
    destruct (Nat.eqb i j); [exists (f r) | exists r]; auto.
Qed.

Lemma nth_error_app_l :
  forall A (l l' : list A) j a,
    nth_error l j = Some a -> nth_error (l ++ l') j = Some a.
Proof.
  intros A l l' j a H. rewrite nth_error_app1; [exact H |].
  apply nth_error_Some. rewrite H. discriminate.
Qed.

Lemma grows_merge_entity :
  forall nm g, grows g (snd (merge_entity nm g)).
Proof.
  intros nm g. unfold merge_entity.
  destruct (find_entity nm g); simpl; [apply grows_refl |].
  split; simpl.
  - intros j n H. exists n. split; [apply nth_error_app_l; exact H |].
    split; [reflexivity |]. intros x Hx. exact Hx.
  - intros j r H. exists r. auto.
Qed.

Lemma grows_merge_entities :
  forall xs g, grows g (snd (merge_entities xs g)).
Proof.
  induction xs as [|x xs IH]; intros g; simpl; [apply grows_refl |].
  pose proof (grows_merge_entity x g) as H1.
  destruct (merge_entity x g) as [i g1]. simpl in H1.
  specialize (IH g1).
  destruct (merge_entities xs g1) as [ids g2]. simpl in *.
  apply (grows_trans _ _ _ H1 IH).
Qed.

Lemma grows_set_types :
  forall bound g, grows g (set_types bound g).
Proof.
  induction bound as [|[i ty] bound IH]; intros g; simpl; [apply grows_refl |].
  eapply grows_trans; [| apply IH].
  apply grows_update_node. intros n. split; [reflexivity |].
  intros x Hx. exact Hx.
Qed.

Lemma add_type_label_keeps :
  forall n,
    n_name (add_type_label n) = n_name n
    /\ incl (n_labels n) (n_labels (add_type_label n)).
Proof.
  intros n. unfold add_type_label.
  destruct (n_type n) as [ty|]; [| split; [reflexivity | intros x Hx; exact Hx]].
  destruct (has_label ty n); simpl; [split; [reflexivity | intros x Hx; exact Hx] |].
  split; [reflexivity |]. intros x Hx. apply in_or_app. left. exact Hx.
Qed.

Lemma grows_add_type_labels :
  forall bound g, grows g (add_type_labels bound g).
Proof.
  induction bound as [|i bound IH]; intros g; simpl; [apply grows_refl |].
  eapply grows_trans; [| apply IH].
  apply grows_update_node. apply add_type_label_keeps.
Qed.

Lemma grows_merge_relation :
  forall h t rel g, grows g (snd (merge_relation h t rel g)).
Proof.
  intros h t rel g. unfold merge_relation.
  destruct (find_relation h t rel g); simpl; [apply grows_refl |].
  split; simpl.
  - intros j n H. exists n. split; [exact H | split; [reflexivity |]].
    intros x Hx. exact Hx.
  - intros j r H. exists r. split; [apply nth_error_app_l; exact H | reflexivity].
Qed.

Lemma grows_merge_relations :
  forall bound g, grows g (snd (merge_relations bound g)).
Proof.
  induction bound as [|[[h t] rel] bound IH]; intros g; simpl; [apply grows_refl |].
  pose proof (grows_merge_relation h t rel g) as H1.
  destruct (merge_relation h t rel g) as [i g1]. simpl in H1.
  specialize (IH g1).
  destruct (merge_relations bound g1) as [ids g2]. simpl in *.
  apply (grows_trans _ _ _ H1 IH).
Qed.

Lemma grows_set_relation_properties :
  forall bound g, grows g (set_relation_properties bound g).
Proof.
  induction bound as [|[i c] bound IH]; intros g; simpl; [apply grows_refl |].
  eapply grows_trans; [| apply IH].
  apply grows_update_relationship. reflexivity.
Qed.

Lemma grows_import_clauses :
  forall p g, grows g (import_clauses p g).
Proof.
  intros p g. unfold import_clauses.
  pose proof (grows_merge_entities (map head p) g) as H1.
  destruct (merge_entities (map head p) g) as [hs g1]. simpl in H1.
  pose proof (grows_set_types (combine hs (map head_type p)) g1) as H2.
  set (g2 := set_types (combine hs (map head_type p)) g1) in *.
  pose proof (grows_merge_entities (map tail p) g2) as H3.
  destruct (merge_entities (map tail p) g2) as [ts g3]. simpl in H3.
  pose proof (grows_set_types (combine ts (map tail_type p)) g3) as H4.
  set (g4 := set_types (combine ts (map tail_type p)) g3) in *.
  pose proof (grows_add_type_labels hs g4) as H5.
  set (g5 := add_type_labels hs g4) in *.
  pose proof (grows_add_type_labels ts g5) as H6.
  set (g6 := add_type_labels ts g5) in *.
  pose proof (grows_merge_relations
                (combine (combine hs ts) (map relation p)) g6) as H7.
  destruct (merge_relations (combine (combine hs ts) (map relation p)) g6)
    as [rs g7]. simpl in H7.
  pose proof (grows_set_relation_properties (combine rs (map confidence p)) g7)
    as H8.
  repeat (eapply grows_trans; [eassumption |]). apply grows_refl.
Qed.

Lemma grows_import_batch :
  forall p g, grows g (import_batch_db p g).
Proof.
  intros p g. unfold import_batch_db, run_import.
  destruct (forallb labels_are_text p).
  - apply (grows_trans _ (tick g)); [apply grows_same; reflexivity |].
    apply grows_import_clauses.
  - apply grows_same; reflexivity.
Qed.

Lemma grows_fold :
  forall batches g,
    grows g (fold_left (fun g p => import_batch_db p g) batches g).
Proof.
  induction batches as [|p batches IH]; intros g; simpl; [apply grows_refl |].
  apply (grows_trans _ _ _ (grows_import_batch p g) (IH _)).
Qed.

(** Without clearing, [build_graph] removes nothing: every node that was
    in the graph is still at its place with its name and all the labels
    it had, and every relationship is still at its place between the same
    nodes with the same type property, whatever the table holds and
    whether or not a batch is rejected.  So neither count can fall. *)
Theorem build_graph_keeps_graph :
  forall df w,
    grows (db w) (db (snd (build_graph df false w)))
    /\ List.length (nodes (db w))
       <= List.length (nodes (db (snd (build_graph df false w))))
    /\ List.length (relationships (db w))
       <= List.length (relationships (db (snd (build_graph df false w)))).
Proof.
  intros df w.
  destruct (runs_build_graph df false w) as [_ E]. rewrite E.
  assert (G : grows (db w) (build_db df false (db w))).
  { unfold build_db. destruct (empty df); [apply grows_refl |].
    apply (grows_trans _ (create_constraints_db (db w)));
      [apply grows_same; reflexivity | apply grows_fold]. }
  split; [exact G |]. destruct G as [Gn Gr]. split.
  - destruct (nodes (db w)) as [|n0 l0] eqn:En; [apply Nat.le_0_l |].
    rewrite <- En in *.
    destruct (nth_error (nodes (db w)) (List.length (nodes (db w)) - 1))
      as [n|] eqn:Hn.
    + destruct (Gn _ n Hn) as (n' & Hn' & _).
      assert (L : List.length (nodes (db w)) - 1
                  < List.length (nodes (build_db df false (db w))))
        by (apply nth_error_Some; rewrite Hn'; discriminate).
      rewrite En in *. simpl in *. lia.
    + apply nth_error_None in Hn. rewrite En in Hn. simpl in Hn. lia.
  - destruct (relationships (db w)) as [|r0 l0] eqn:En; [apply Nat.le_0_l |].
    rewrite <- En in *.
    destruct (nth_error (relationships (db w))
                (List.length (relationships (db w)) - 1)) as [r|] eqn:Hr.
    + destruct (Gr _ r Hr) as (r' & Hr' & _).
      assert (L : List.length (relationships (db w)) - 1
                  < List.length (relationships (build_db df false (db w))))
        by (apply nth_error_Some; rewrite Hr'; discriminate).
      rewrite En in *. simpl in *. lia.
    + apply nth_error_None in Hr. rewrite En in Hr. simpl in Hr. lia.
Qed.

Lemma fold_unique :
  forall batches g,
    unique g ->
    unique (fold_left (fun g p => import_batch_db p g) batches g).
Proof.
  intros batches g (H & Hn & Hr).
  set (gF := fold_left (fun g p => import_batch_db p g) batches g).
  destruct (fold_import_batch_shape batches g H) as [HF _]. fold gF in HF.
  destruct (fold_programs (names gF) batches g H) as [En Er].
  { intros x i Hx. exact Hx. }
  fold gF in En, Er.
  split; [exact HF | split].
  - unfold names. rewrite En. unfold run_nodes.
    apply NoDup_keys_run;
      [apply String.eqb_eq | reflexivity | apply n_name_interp | exact Hn].
  - unfold rel_keys. rewrite Er. unfold run_rels.
    apply NoDup_keys_run;
      [apply key_eqb_eq | intros [[h t] r]; reflexivity | apply rel_key_interp
       | exact Hr].
Qed.

(** [build_graph] keeps the graph free of duplicates without the help of
    the uniqueness constraint: when every node is an [Entity], no two nodes
    share a name and no two relationships share end points and type
    property, the same holds after the build, with or without clearing, and
    whatever the table holds (rows that repeat a name or a triple
    included). *)
Theorem build_graph_keeps_uniqueness :
  forall df clear_existing w,
    unique (db w) -> unique (db (snd (build_graph df clear_existing w))).
Proof.
  intros df clear_existing w U.
  destruct (runs_build_graph df clear_existing w) as [_ E]. rewrite E.
  unfold build_db. destruct (empty df); [exact U |].
  apply fold_unique.
  destruct clear_existing.
  - split; [constructor | split; constructor].
  - exact U.
Qed.

Lemma build_graph_keeps_uniqueness_witness :
  unique empty_graph
  /\ unique (db (snd (build_graph
                        (clean_triplets Samples.config Output.test_triplets) false
                        {| db := empty_graph; log := [] |}))).
Proof.
  assert (U : unique empty_graph) by (split; [constructor | split; constructor]).
  split; [exact U |].
  exact (build_graph_keeps_uniqueness
           (clean_triplets Samples.config Output.test_triplets) false
           {| db := empty_graph; log := [] |} U).
Defined.

(** *** Clearing first *)

Lemma fold_from_nothing :
  forall batches g g',
    nodes g = [] -> relationships g = [] ->
    nodes g' = [] -> relationships g' = [] ->
    nodes (fold_left (fun g p => import_batch_db p g) batches g)
    = nodes (fold_left (fun g p => import_batch_db p g) batches g')
    /\ map rel_facts (relationships (fold_left (fun g p => import_batch_db p g) batches g))
       = map rel_facts
           (relationships (fold_left (fun g p => import_batch_db p g) batches g')).
Proof.
  intros batches g g' Hn Hr Hn' Hr'.
  set (gF := fold_left (fun g p => import_batch_db p g) batches g).
  set (gF' := fold_left (fun g p => import_batch_db p g) batches g').
  assert (H : AllEntities g) by (unfold AllEntities; rewrite Hn; constructor).
  assert (H' : AllEntities g') by (unfold AllEntities; rewrite Hn'; constructor).
  destruct (fold_import_batch_shape batches g H) as [_ S]. fold gF in S.
  destruct (fold_import_batch_shape batches g' H') as [_ S']. fold gF' in S'.
  assert (Es : shape g = shape g').
  { unfold shape, names, rel_keys. rewrite Hn, Hr, Hn', Hr'. reflexivity. }
  rewrite Es in S. rewrite <- S' in S.
  unfold shape in S. injection S as Enames Ekeys.
  destruct (fold_programs (names gF) batches g H) as [En Er].
  { intros x i Hx. exact Hx. }
  destruct (fold_programs (names gF) batches g' H') as [En' Er'].
  { fold gF'. rewrite Enames. intros x i Hx. exact Hx. }
  fold gF in En, Er. fold gF' in En', Er'.
  split; [rewrite En, En', Hn, Hn'; reflexivity |].
  set (N := names gF) in *.
  assert (Hnd : NoDup (map rel_key (relationships gF))).
  { rewrite Er, Hr. unfold run_rels.
    apply NoDup_keys_run;
      [apply key_eqb_eq | intros [[h t] r]; reflexivity | apply rel_key_interp
       | constructor]. }
  apply (store_ext rel_key key_eqb key_eqb_eq _ rel_facts).
  - exact Ekeys.
  - exact Hnd.
  - intros k. rewrite Er, Er', Hr, Hr'. unfold run_rels.
    rewrite !(item_run rel_key key_eqb fresh_rel rel_interp key_eqb_eq
                (fun k => match k with (_, _, _) => eq_refl end) rel_key_interp).
    simpl item.
    rewrite (effects_merge_first key_eqb fresh_rel rel_interp k _ None
               (rel_progs_merge_first N k batches g)).
    rewrite (effects_merge_first key_eqb fresh_rel rel_interp k _ None
               (rel_progs_merge_first N k batches g')).
    rewrite (rel_progs_touches N k batches g' g).
    destruct (touches key_eqb k (rel_progs N batches g)) eqn:Ht; [| reflexivity].
    simpl.
    assert (H1 : ops_of key_eqb k (rel_progs N batches g) <> [])
      by (apply rel_progs_written; exact Ht).
    assert (H2 : ops_of key_eqb k (rel_progs N batches g') <> []).
    { apply rel_progs_written.
      rewrite (rel_progs_touches N k batches g' g). exact Ht. }
    rewrite (rel_facts_run_ops _ _ H1), (rel_facts_run_ops _ _ H2).
    rewrite (rel_progs_ops N k batches g' g). reflexivity.
Qed.

(** With [clear_existing] a build of a table that has rows leaves the
    graph that the same build leaves in an empty store: the same nodes,
    with their types and labels, and the same relationships with their
    confidence and source (creation times apart), whatever the store
    held before. *)
Theorem build_graph_clear_existing :
  forall df w log0,
    empty df = false ->
    nodes (db (snd (build_graph df true w)))
    = nodes (db (snd (build_graph df false {| db := empty_graph; log := log0 |})))
    /\ map rel_facts (relationships (db (snd (build_graph df true w))))
       = map rel_facts
           (relationships
              (db (snd (build_graph df false
                          {| db := empty_graph; log := log0 |})))).
Proof.
  intros df w log0 Hrows.
  destruct (runs_build_graph df true w) as [_ E]. rewrite E.
  destruct (runs_build_graph df false {| db := empty_graph; log := log0 |})
    as [_ E0]. rewrite E0.
  rewrite !(build_db_fold _ _ _ Hrows).
  apply fold_from_nothing; reflexivity.
Qed.

Lemma build_graph_clear_existing_witness :
  empty (clean_triplets Samples.config Output.test_triplets) = false
  /\ nodes (db (snd (build_graph
                       (clean_triplets Samples.config Output.test_triplets) true
                       {| db := Samples.apple_graph; log := [] |})))
     = nodes (db (snd (build_graph
                         (clean_triplets Samples.config Output.test_triplets) false
                         {| db := empty_graph; log := [] |}))).
Proof.
  split; [reflexivity |].
  exact (proj1 (build_graph_clear_existing
                  (clean_triplets Samples.config Output.test_triplets)
                  {| db := Samples.apple_graph; log := [] |} [] eq_refl)).
Defined.

End BuildMore.

(** ** Batches *)

Module BatchFacts.
Import DataCleaner Py Neo4jGraphBuilder.
Local Open Scope string_scope.
Local Open Scope list_scope.

Section Chunks.

Context {A : Type}.

Lemma firstn_add :
  forall n m (l : list A), firstn (n + m) l = firstn n l ++ firstn m (skipn n l).
Proof.
  induction n as [|n IH]; intros m l; simpl; [reflexivity |].
  destruct l as [|x l]; simpl.
  - destruct m; reflexivity.
  - rewrite IH. reflexivity.
Qed.

Lemma chunks_from :
  forall s k a (l : list A),
    List.concat (map (fun j => firstn s (skipn (j * s) l)) (seq a k))
    = firstn (k * s) (skipn (a * s) l).
Proof.
  intros s. induction k as [|k IH]; intros a l; simpl; [reflexivity |].
  rewrite IH, firstn_add. f_equal.
  rewrite skipn_skipn. reflexivity.
Qed.

Lemma enough_chunks :
  forall n s, 0 < s -> n <= (n + s - 1) / s * s.
Proof.
  intros n s Hs.
  pose proof (Nat.div_mod_eq (n + s - 1) s) as E.
  pose proof (Nat.mod_upper_bound (n + s - 1) s) as B.
  nia.
Qed.

(** The slices [l[i:i+s]] for [i] in [range(0, len(l), s)] are the list
    [l] cut into pieces *)
Lemma chunks_concat :
  forall s (l : list A),
    0 < s ->
    List.concat (map (fun i => firstn s (skipn i l))
                     (range_step (List.length l) s))
    = l.
Proof.
  intros s l Hs. unfold range_step. rewrite map_map.
  rewrite (chunks_from s _ 0 l). simpl.
  apply firstn_all2. apply enough_chunks. exact Hs.
Qed.

Lemma range_step_bound :
  forall n s i, 0 < s -> In i (range_step n s) -> i < n /\ i mod s = 0.
Proof.
  intros n s i Hs H. unfold range_step in H.
  apply in_map_iff in H. destruct H as (j & <- & Hj).
  apply in_seq in Hj. split.
  - pose proof (Nat.div_mod_eq (n + s - 1) s) as E.
    pose proof (Nat.mod_upper_bound (n + s - 1) s) as B.
    nia.
  - apply Nat.Div0.mod_mul.
Qed.

Lemma chunk_length :
  forall s (l : list A) i,
    0 < s -> In i (range_step (List.length l) s) ->
    1 <= List.length (firstn s (skipn i l)) <= s.
Proof.
  intros s l i Hs H. destruct (range_step_bound _ _ _ Hs H) as [Hi _].
  rewrite length_firstn, length_skipn. lia.
Qed.

End Chunks.

Lemma iloc_rows :
  forall i df, rows (iloc i (i + 100) df) = firstn 100 (skipn i (rows df)).
Proof.
  intros i df. unfold iloc. cbn [rows].
  replace (i + 100 - i) with 100 by lia. reflexivity.
Qed.

(** The slices [df.iloc[i:i + 100]] for [i] in [range(0, len(df), 100)] *)
Lemma iloc_batches :
  forall df,
    List.concat (map (fun i => rows (iloc i (i + 100) df))
                     (range_step (List.length (rows df)) 100))
    = rows df
    /\ Forall (fun i => 1 <= List.length (rows (iloc i (i + 100) df)) <= 100)
              (range_step (List.length (rows df)) 100)
    /\ List.length (range_step (List.length (rows df)) 100)
       = (List.length (rows df) + 99) / 100.
Proof.
  intros df. split; [| split].
  - rewrite (map_ext _ (fun i => firstn 100 (skipn i (rows df))) (fun i => iloc_rows i df)).
    apply chunks_concat. lia.
  - apply Forall_forall. intros i Hi. rewrite iloc_rows.
    apply chunk_length; [lia | exact Hi].
  - unfold range_step. rewrite length_map, length_seq.
    f_equal. lia.
Qed.

(** *** The loop of [build_graph], batch by batch *)

Lemma bind_congr :
  forall {A B} (m : Py A) (k k' : A -> Py B) w,
    (forall a w', k a w' = k' a w') -> bind m k w = bind m k' w.
Proof.
  intros A B m k k' w H. unfold bind.
  destruct (m w) as [[a | e] w']; [apply H | reflexivity].
Qed.

Lemma bind_congr_first :
  forall {A B} (m m' : Py A) (k : A -> Py B) w,
    m w = m' w -> bind m k w = bind m' k w.
Proof. intros A B m m' k w H. unfold bind. rewrite H. reflexivity. Qed.

Lemma for_each_map :
  forall {A B} (f : A -> B) xs body w,
    for_each (map f xs) body w = for_each xs (fun x => body (f x)) w.
Proof.
  intros A B f xs body. induction xs as [|x xs IH]; intros w; [reflexivity |].
  cbn [map for_each]. apply bind_congr. intros _ w'. apply IH.
Qed.

Lemma for_each_ext_in :
  forall {A} (xs : list A) body body',
    (forall x, In x xs -> forall w, body x w = body' x w) ->
    forall w, for_each xs body w = for_each xs body' w.
Proof.
  intros A xs body body'. induction xs as [|x xs IH]; intros H w; [reflexivity |].
  cbn [for_each].
  rewrite (bind_congr_first (body x) (body' x) _ w (H x (or_introl eq_refl) w)).
  apply bind_congr. intros _ w'. apply IH.
  intros y Hy. apply H. right. exact Hy.
Qed.

(** [enumerate(l, 1)] for a list given place by place *)
Lemma combine_seq_map :
  forall {B} (g : nat -> B) count start,
    combine (seq (S start) count) (map g (seq start count))
    = map (fun k => (S k, g k)) (seq start count).
Proof.
  intros B g count. induction count as [|count IH]; intros start; [reflexivity |].
  cbn [seq map combine]. rewrite IH. reflexivity.
Qed.

(** What [build_graph] does with a table that has rows, batch by batch:
    after the opening message, the clearing when it is asked for and the
    constraints, it imports a sequence of batches one after the other,
    logging after each its number (from 1), the total it announces and
    its row count, and then logs the end.  The batches have the columns of
    the table; their rows put end to end are the rows of the table, in
    order, each row once; every batch has between 1 and 100 rows; there
    are as many batches as the row count divided by 100, rounded up.  The
    total in the messages is the row count divided by 100, rounded down,
    plus one. *)
Theorem build_graph_batches :
  forall df clear_existing w,
    empty df = false ->
    exists batches,
      build_graph df clear_existing w
      = (logger_info ("Building graph from " ++ str (List.length (rows df))
                      ++ " triplets") ;;
         (if clear_existing then clear_database else ret tt) ;;
         _create_constraints ;;
         for_each (combine (seq 1 (List.length batches)) batches)
           (fun numbered =>
              _import_batch (snd numbered) ;;
              logger_info ("Imported batch " ++ str (fst numbered) ++ "/"
                           ++ str (List.length (rows df) / 100 + 1)
                           ++ " (" ++ str (List.length (rows (snd numbered)))
                           ++ " triplets)")) ;;
         logger_info "Graph construction complete")%py w
      /\ List.concat (map rows batches) = rows df
      /\ Forall (fun b => columns b = columns df
                          /\ 1 <= List.length (rows b) <= 100) batches
      /\ List.length batches = (List.length (rows df) + 99) / 100.
Proof.
  intros df clear_existing w Hrows.
  destruct (iloc_batches df) as (Hconcat & Hsizes & Hcount).
  exists (map (fun i => iloc i (i + 100) df) (range_step (List.length (rows df)) 100)).
  split; [| split; [| split]].
  - unfold build_graph. rewrite Hrows. cbv zeta.
    apply bind_congr. intros _ w1.
    apply bind_congr. intros _ w2.
    apply bind_congr. intros _ w3.
    apply bind_congr_first.
    unfold range_step. rewrite !length_map, length_seq, map_map, combine_seq_map.
    rewrite !for_each_map.
    apply for_each_ext_in. intros k _ w4.
    cbn [fst snd]. rewrite Nat.div_mul by discriminate.
    rewrite Nat.add_1_r. reflexivity.
  - rewrite map_map. exact Hconcat.
  - apply Forall_forall. intros b Hb. apply in_map_iff in Hb.
    destruct Hb as (i & <- & Hi). split; [reflexivity |].
    apply (proj1 (Forall_forall _ _) Hsizes i Hi).
  - rewrite length_map. exact Hcount.
Qed.

Lemma build_graph_batches_witness :
  empty (clean_triplets Samples.config Output.test_triplets) = false
  /\ exists batches,
       build_graph (clean_triplets Samples.config Output.test_triplets) false
                   {| db := Neo4j.empty_graph; log := [] |}
       = (logger_info ("Building graph from "
                       ++ str (List.length
                                 (rows (clean_triplets Samples.config
                                                       Output.test_triplets)))
                       ++ " triplets") ;;
          (if false then clear_database else ret tt) ;;
          _create_constraints ;;
          for_each (combine (seq 1 (List.length batches)) batches)
            (fun numbered =>
               _import_batch (snd numbered) ;;
               logger_info ("Imported batch " ++ str (fst numbered) ++ "/"
                            ++ str (List.length
                                      (rows (clean_triplets Samples.config
                                                            Output.test_triplets))
                                    / 100 + 1)
                            ++ " (" ++ str (List.length (rows (snd numbered)))
                            ++ " triplets)")) ;;
          logger_info "Graph construction complete")%py
           {| db := Neo4j.empty_graph; log := [] |}
       /\ List.concat (map rows batches)
          = rows (clean_triplets Samples.config Output.test_triplets)
       /\ Forall (fun b => columns b
                           = columns (clean_triplets Samples.config
                                                     Output.test_triplets)
                           /\ 1 <= List.length (rows b) <= 100) batches
       /\ List.length batches
          = (List.length (rows (clean_triplets Samples.config Output.test_triplets))
             + 99) / 100.
Proof.
  assert (Hrows : empty (clean_triplets Samples.config Output.test_triplets) = false)
    by (vm_compute; reflexivity).
  split; [exact Hrows |].
  exact (build_graph_batches
           (clean_triplets Samples.config Output.test_triplets) false
           {| db := Neo4j.empty_graph; log := [] |} Hrows).
Defined.

End BatchFacts.

(** ** QueryTranslator: the rules and the fallbacks *)

Module RuleFacts.
Import PyStr Spec PyStrFacts Neo4j Py NaturalLanguageQuery.
Local Open Scope list_scope.
Local Open Scope string_scope.

Lemma drop_app : forall p s, drop (String.length p) (p ++ s) = s.
Proof. induction p as [|c p IH]; intros s; simpl; [reflexivity | apply IH]. Qed.

Lemma length_append :
  forall a b, String.length (a ++ b) = String.length a + String.length b.
Proof. induction a as [|c a IH]; intros b; simpl; [| rewrite IH]; reflexivity. Qed.

Lemma startswith_contains :
  forall p before s, startswith p s = true -> contains p (before ++ s) = true.
Proof.
  intros p before s H. apply contains_Substring.
  destruct (startswith_inv p s H) as (r & ->).
  exists before, r. reflexivity.
Qed.

(** A prefix of a text long enough to hold [p] begins with [p] when the
    text does *)
Lemma startswith_cut :
  forall p x y,
    startswith p (x ++ y) = true -> String.length p <= String.length x ->
    startswith p x = true.
Proof.
  induction p as [|a p IH]; intros x y H L; [reflexivity |].
  destruct x as [|b x]; simpl in L; [lia |].
  simpl in *. apply andb_true_iff in H. destruct H as [H1 H2].
  rewrite H1. apply (IH x y H2). lia.
Qed.

Lemma search_group_none :
  forall prefix suffix s,
    contains prefix s = false -> Re.search_group prefix suffix s = None.
Proof.
  intros prefix suffix. induction s as [|c s IH]; intros H;
    rewrite contains_unfold in H; apply orb_false_iff in H; destruct H as [H1 H2];
    simpl; rewrite H1; [reflexivity | apply IH; exact H2].
Qed.

Lemma search_group_unfold :
  forall prefix suffix s,
    Re.search_group prefix suffix s
    = match (if startswith prefix s
             then Re.lazy_group suffix (drop (String.length prefix) s)
             else None) with
      | Some g => Some g
      | None =>
          match s with
          | EmptyString => None
          | String _ r => Re.search_group prefix suffix r
          end
      end.
Proof. intros prefix suffix [|c r]; reflexivity. Qed.

Lemma search_group_at_start :
  forall prefix suffix s group1,
    Re.lazy_group suffix s = Some group1 ->
    Re.search_group prefix suffix (prefix ++ s) = Some group1.
Proof.
  intros prefix suffix s group1 H.
  rewrite search_group_unfold, startswith_app, drop_app, H. reflexivity.
Qed.

(** A group [(.+?)] that ends the pattern takes one character *)
Lemma lazy_group_at_end :
  forall s group1,
    Re.lazy_group EmptyString s = Some group1 ->
    exists c, group1 = String c EmptyString /\ c <> LF
              /\ exists rest, s = String c rest.
Proof.
  intros [|c s] group1 H; simpl in H; [discriminate |].
  destruct (Ascii.eqb c LF) eqn:E; [discriminate |].
  inversion H; subst. exists c. split; [reflexivity |].
  split; [apply Ascii.eqb_neq; exact E | exists s; reflexivity].
Qed.

Lemma search_group_at_end :
  forall prefix s group1,
    Re.search_group prefix EmptyString s = Some group1 ->
    exists c, group1 = String c EmptyString /\ c <> LF
              /\ Substring (prefix ++ String c EmptyString) s.
Proof.
  intros prefix. induction s as [|a s IH]; intros group1 H;
    rewrite search_group_unfold in H.
  - destruct (startswith prefix EmptyString); [| discriminate].
    destruct (String.length prefix); discriminate.
  - destruct (startswith prefix (String a s)) eqn:Hp.
    + destruct (Re.lazy_group EmptyString (drop (String.length prefix) (String a s)))
        as [g|] eqn:Hg.
      * inversion H; subst g.
        destruct (lazy_group_at_end _ _ Hg) as (c & -> & Hc & rest & Hrest).
        exists c. split; [reflexivity | split; [exact Hc |]].
        destruct (startswith_inv _ _ Hp) as (r & Hr).
        rewrite Hr, drop_app in Hrest. subst r.
        exists EmptyString, rest. rewrite Hr. simpl.
        clear. induction prefix as [|x p IHp]; simpl; [reflexivity |].
        f_equal. exact IHp.
      * destruct (IH _ H) as (c & -> & Hc & before & after & ->).
        exists c. split; [reflexivity | split; [exact Hc |]].
        exists (String a before), after. reflexivity.
    + destruct (IH _ H) as (c & -> & Hc & before & after & ->).
      exists c. split; [reflexivity | split; [exact Hc |]].
      exists (String a before), after. reflexivity.
Qed.

(** The rules whose pattern ends with the group [(.+?)] (who invested in,
    who is the ceo of, what companies partnered with) take one character
    for the entity: whenever such a pattern matches, the group is a single
    character other than a line feed, the one that follows the phrase.  So
    a question that begins with "who invested in", whatever follows, is
    translated to the query for the company named by the first character
    after the phrase, stripped and in title case; "Who invested in
    OpenAI?" asks for the company 'O'. *)
Theorem trailing_group_is_one_character :
  (forall prefix text group1,
      Re.search_group prefix EmptyString text = Some group1 ->
      exists c, group1 = String c EmptyString /\ c <> LF
                /\ Substring (prefix ++ String c EmptyString) text)
  /\ (forall question c rest,
         lower question = "who invested in " ++ String c rest ->
         c <> LF ->
         contains "what companies did " (lower question) = false ->
         _rule_based_conversion question
         = Some ("MATCH (investor)-[:INVESTED_IN]->(c:Company {name: "
                 ++ quote (title (strip (String c EmptyString)))
                 ++ "}) RETURN investor.name"))
  /\ _rule_based_conversion "Who invested in OpenAI?"
     = Some "MATCH (investor)-[:INVESTED_IN]->(c:Company {name: 'O'}) RETURN investor.name".
Proof.
  split; [exact search_group_at_end |]. split; [| reflexivity].
  intros question c rest E Hc Hnot.
  unfold _rule_based_conversion, patterns. cbn [first_rule].
  rewrite (search_group_none _ _ _ Hnot).
  rewrite E.
  rewrite (search_group_at_start "who invested in " EmptyString (String c rest)
             (String c EmptyString)).
  - reflexivity.
  - simpl. apply Ascii.eqb_neq in Hc. rewrite Hc. reflexivity.
Qed.

(** *** A rule with text after the group *)

Lemma lazy_group_name :
  forall suffix name rest,
    name <> EmptyString ->
    contains (String LF EmptyString) name = false ->
    (forall before after,
        name = before ++ after -> before <> EmptyString -> after <> EmptyString ->
        startswith suffix (after ++ suffix ++ rest) = false) ->
    Re.lazy_group suffix (name ++ suffix ++ rest) = Some name.
Proof.
  intros suffix name rest. induction name as [|c name IH]; intros Hne Hlf Hno;
    [contradiction Hne; reflexivity |].
  rewrite contains_unfold in Hlf. apply orb_false_iff in Hlf.
  destruct Hlf as [Hc Hlf]. cbn [startswith] in Hc.
  rewrite andb_true_r in Hc.
  cbn [append Re.lazy_group]. rewrite Ascii.eqb_sym, Hc.
  destruct name as [|d name].
  - cbn [append]. rewrite startswith_app. reflexivity.
  - rewrite (Hno (String c EmptyString) (String d name) eq_refl)
      by discriminate.
    rewrite IH; [reflexivity | discriminate | exact Hlf |].
    intros before after E Hb Ha.
    apply (Hno (String c before) after); [rewrite E; reflexivity | discriminate | exact Ha].
Qed.

(** The rule "what companies did (.+?) acquire": a question that begins
    with the phrase, followed by a name and by " acquire", is translated
    to the acquisitions query for that name, stripped and in title case and
    put between quotes as it is.  The name is any non-empty text on one
    line in which " acquire" does not begin before its end. *)
Theorem rule_captures_name :
  forall question name rest,
    lower question = "what companies did " ++ name ++ " acquire" ++ rest ->
    name <> EmptyString ->
    contains (String LF EmptyString) name = false ->
    contains " acquire" (name ++ " acquir") = false ->
    _rule_based_conversion question
    = Some ("MATCH (c:Company {name: " ++ quote (title (strip name))
            ++ "})-[:ACQUIRED]->(target) RETURN target.name").
Proof.
  intros question name rest E Hne Hlf Hno.
  unfold _rule_based_conversion, patterns. cbn [first_rule].
  rewrite E.
  rewrite (search_group_at_start "what companies did " " acquire"
             (name ++ " acquire" ++ rest) name).
  - reflexivity.
  - apply lazy_group_name; [exact Hne | exact Hlf |].
    intros before after En Hb Ha.
    destruct (startswith " acquire" (after ++ " acquire" ++ rest)) eqn:S;
      [| reflexivity].
    exfalso.
    assert (S' : startswith " acquire" (after ++ " acquir") = true).
    { apply (startswith_cut _ _ ("e" ++ rest)).
      - rewrite EntityTypeFacts.append_assoc. exact S.
      - destruct after as [|a after]; [contradiction Ha; reflexivity |].
        rewrite length_append. simpl. lia. }
    rewrite En, EntityTypeFacts.append_assoc in Hno.
    rewrite (startswith_contains _ before _ S') in Hno. discriminate.
Qed.

Lemma rule_captures_name_witness :
  lower "What companies did Apple acquire?"
  = "what companies did " ++ "apple" ++ " acquire" ++ "?"
  /\ _rule_based_conversion "What companies did Apple acquire?"
     = Some "MATCH (c:Company {name: 'Apple'})-[:ACQUIRED]->(target) RETURN target.name".
Proof.
  split; [reflexivity |].
  exact (rule_captures_name "What companies did Apple acquire?" "apple" "?"
           eq_refl (fun E => match E with end) eq_refl eq_refl).
Defined.

(** *** Questions always get a query *)

Lemma replace_head :
  forall old new c r,
    startswith old (String c r) = false ->
    replace old new (String c r) = String c (replace old new r).
Proof.
  intros old new c r H. unfold replace. cbn [replace_from]. rewrite H. reflexivity.
Qed.

Lemma first_rule_In :
  forall ql rules query,
    first_rule ql rules = Some query ->
    exists before after template entity,
      In (before, after, template) rules
      /\ query = replace "$company" (quote (title entity)) template.
Proof.
  intros ql. induction rules as [|[[before after] template] rules IH];
    intros query H; simpl in H; [discriminate |].
  destruct (Re.search_group before after ql) as [g|].
  - inversion H; subst. exists before, after, template, (strip g).
    split; [left; reflexivity | reflexivity].
  - destruct (IH query H) as (b & a & t & e & Hin & E).
    exists b, a, t, e. split; [right; exact Hin | exact E].
Qed.

Lemma rule_queries_not_empty :
  forall before after template name,
    In (before, after, template) patterns ->
    replace "$company" name template <> EmptyString.
Proof.
  intros before after template name H. unfold patterns in H. simpl in H.
  repeat (destruct H as [H | H];
          [inversion H; subst; rewrite replace_head by reflexivity; discriminate |]).
  contradiction.
Qed.

Lemma rule_based_conversion_not_empty :
  forall question,
    exists query, _rule_based_conversion question = Some query
                  /\ query <> EmptyString.
Proof.
  intros question. unfold _rule_based_conversion.
  destruct (first_rule (lower question) patterns) as [q|] eqn:E.
  - exists q. split; [reflexivity |].
    destruct (first_rule_In _ _ _ E) as (b & a & t & e & Hin & ->).
    apply (rule_queries_not_empty b a t _ Hin).
  - exists default_query. split; [reflexivity |].
    destruct QueryFacts.default_query_not_empty as (c & rest & ->). discriminate.
Qed.

Lemma first_template_In :
  forall ql templates phrase template,
    first_template ql templates = Some (phrase, template) ->
    In (phrase, template) templates.
Proof.
  intros ql. induction templates as [|[p t] templates IH]; intros phrase template H;
    simpl in H; [discriminate |].
  destruct (contains p ql).
  - inversion H; subst. left. reflexivity.
  - right. apply IH. exact H.
Qed.

Lemma templates_not_empty :
  forall phrase template,
    In (phrase, template) query_templates -> template <> EmptyString.
Proof.
  intros phrase template H. unfold query_templates in H. simpl in H.
  repeat (destruct H as [H | H]; [inversion H; subst; discriminate |]).
  contradiction.
Qed.

(** Without the language model a question is always translated: to a
    template, to the query of a rule, or to the default query *)
Lemma query_to_cypher_without_llm :
  forall cfg question w,
    exists query infos,
      query <> EmptyString
      /\ Forall (fun r => exists msg, r = INFO msg) infos
      /\ forall chat,
           query_to_cypher chat cfg question false w
           = (Returns (Some query), {| db := db w; log := (log w ++ infos)%list |}).
Proof.
  intros cfg question w. unfold query_to_cypher, query_to_cypher_with.
  destruct (first_template (strip (lower question)) query_templates)
    as [[phrase template]|] eqn:E.
  - exists template, [INFO ("Using predefined template for: " ++ phrase)].
    split; [apply (templates_not_empty phrase); apply (first_template_In _ _ _ _ E) |].
    split; [constructor; [eexists; reflexivity | constructor] |].
    intros chat. reflexivity.
  - destruct (rule_based_conversion_not_empty question) as (q & Eq & Hq).
    exists q, []. split; [exact Hq |]. split; [constructor |].
    intros chat. cbn [andb]. rewrite Eq. unfold ret.
    rewrite app_nil_r. destruct w. reflexivity.
Qed.

Lemma execute_query_returns :
  forall cypher query params w,
    exists rows w' record,
      execute_query cypher query params w = (Returns rows, w')
      /\ log w' = (log w ++ [record])%list
      /\ forall msg, record <> WARNING msg.
Proof.
  intros cypher query params w.
  unfold execute_query, try_except, bind, session_run.
  destruct (cypher query (match params with None => [] | Some p => p end) (db w))
    as [e | [result g]].
  - eexists. eexists. eexists. split; [reflexivity |].
    split; [reflexivity | discriminate].
  - eexists. eexists. eexists. split; [reflexivity |].
    split; [reflexivity | discriminate].
Qed.

(** [ask_question] always runs a query.  Whatever the question, the
    configuration and the store, [query_to_cypher], called without
    [use_llm] after the question is logged, returns a non-empty query and
    logs informations only; [ask_question] logs that query and returns
    what [execute_query] returns for it, with no parameters, in the world
    reached so far: its rows and its world.  So it never raises and never
    takes the branch that warns that the question could not be converted.
    The answer and the log are the same for every chat service: the
    language model is not consulted even when the configuration enables
    it. *)
Theorem ask_question_always_executes :
  forall cypher cfg question w,
    exists query infos rows w',
      query <> EmptyString
      /\ Forall (fun r => exists msg, r = INFO msg) infos
      /\ (forall chat,
            query_to_cypher chat cfg question false
              {| db := db w;
                 log := (log w ++ [INFO ("Processing question: " ++ question)])%list |}
            = (Returns (Some query),
               {| db := db w;
                  log := ((log w ++ [INFO ("Processing question: " ++ question)])
                          ++ infos)%list |}))
      /\ execute_query cypher query None
           {| db := db w;
              log := (((log w ++ [INFO ("Processing question: " ++ question)])
                       ++ infos)
                      ++ [INFO ("Generated Cypher: " ++ query)])%list |}
         = (Returns rows, w')
      /\ (forall chat, ask_question chat cypher cfg question w = (Returns rows, w'))
      /\ In (INFO ("Generated Cypher: " ++ query)) (log w')
      /\ (forall msg, In (WARNING msg) (log w') -> In (WARNING msg) (log w)).
Proof.
  intros cypher cfg question w.
  set (w1 := {| db := db w;
                log := (log w ++ [INFO ("Processing question: " ++ question)])%list |}).
  destruct (query_to_cypher_without_llm cfg question w1)
    as (query & infos & Hq & Hinfos & Htr).
  set (w2 := {| db := db w1; log := (log w1 ++ infos)%list |}) in *.
  set (w3 := {| db := db w2;
                log := (log w2 ++ [INFO ("Generated Cypher: " ++ query)])%list |}).
  destruct (execute_query_returns cypher query None w3)
    as (rows & w4 & record & Hex & Hlog & Hrec).
  exists query, infos, rows, w4.
  split; [exact Hq |]. split; [exact Hinfos |].
  split; [exact Htr |]. split; [exact Hex |]. split; [| split].
  - intros chat. unfold ask_question.
    unfold bind at 1. unfold logger_info at 1, emit. fold w1.
    unfold bind at 1. rewrite (Htr chat).
    destruct query as [|c r]; [contradiction Hq; reflexivity |].
    unfold bind at 1. unfold logger_info at 1, emit. fold w2. fold w3.
    unfold bind. rewrite Hex. reflexivity.
  - rewrite Hlog. apply in_or_app. left. apply in_or_app. right. left. reflexivity.
  - intros msg Hmsg. rewrite Hlog in Hmsg.
    apply in_app_or in Hmsg. destruct Hmsg as [Hmsg | [Hmsg | []]];
      [| exfalso; apply (Hrec msg); exact Hmsg].
    cbn [log w3] in Hmsg.
    apply in_app_or in Hmsg. destruct Hmsg as [Hmsg | [Hmsg | []]];
      [| discriminate Hmsg].
    cbn [log w2] in Hmsg.
    apply in_app_or in Hmsg. destruct Hmsg as [Hmsg | Hmsg].
    + cbn [log w1] in Hmsg.
      apply in_app_or in Hmsg. destruct Hmsg as [Hmsg | [Hmsg | []]];
        [exact Hmsg | discriminate Hmsg].
    + exfalso. destruct (proj1 (Forall_forall _ _) Hinfos _ Hmsg) as (m & Em).
      discriminate Em.
Qed.

(** *** With the language model *)

(** What [query_to_cypher] does with [use_llm] set, for a question that
    contains no template phrase.  When the configured mode is "api" the
    language model alone decides: its reply, trimmed and without code
    fences, is the query; and when the call fails the error is logged and
    there is no query at all, although the rule-based conversion always
    has one.  In any other mode the flag is ignored and the rule-based
    conversion answers. *)
Theorem query_to_cypher_with_llm :
  forall chat cfg question w,
    (forall p t, In (p, t) query_templates ->
                 ~ Substring p (strip (lower question))) ->
    (llm_mode cfg = "api" ->
     forall e, chat question = inl e ->
       query_to_cypher chat cfg question true w
       = (Returns None,
          {| db := db w;
             log := (log w ++ [ERROR ("LLM query conversion failed: "
                                      ++ exc_message e)])%list |}))
    /\ (llm_mode cfg = "api" ->
        forall content, chat question = inr content ->
          query_to_cypher chat cfg question true w
          = (Returns (Some (strip (replace "```" EmptyString
                                     (replace "```cypher" EmptyString
                                        (strip content))))),
             {| db := db w;
                log := (log w
                        ++ [INFO ("LLM generated Cypher: "
                                  ++ strip (replace "```" EmptyString
                                              (replace "```cypher" EmptyString
                                                 (strip content))))])%list |}))
    /\ (llm_mode cfg <> "api" ->
        query_to_cypher chat cfg question true w
        = (Returns (_rule_based_conversion question), w))
    /\ _rule_based_conversion question <> None.
Proof.
  intros chat cfg question w Hnone.
  unfold query_to_cypher, query_to_cypher_with.
  rewrite (QueryFacts.first_template_none _ _ Hnone). cbn [andb].
  split; [| split; [| split]].
  - intros Hmode e He. rewrite Hmode. cbn [String.eqb Ascii.eqb Bool.eqb].
    unfold _llm_to_cypher, try_except. rewrite He. reflexivity.
  - intros Hmode content Hc. rewrite Hmode. cbn [String.eqb Ascii.eqb Bool.eqb].
    unfold _llm_to_cypher, try_except. rewrite Hc. reflexivity.
  - intros Hmode. apply String.eqb_neq in Hmode. rewrite Hmode. reflexivity.
  - destruct (rule_based_conversion_not_empty question) as (q & -> & _).
    discriminate.
Qed.

Lemma query_to_cypher_with_llm_witness :
  (forall p t, In (p, t) query_templates -> ~ Substring p (strip (lower "Apple")))
  /\ query_to_cypher Samples.no_chat
       {| llm_mode := "api"; llm_api_model := "gpt-4" |} "Apple" true
       {| db := empty_graph; log := [] |}
     = (Returns None,
        {| db := empty_graph;
           log := [ERROR "LLM query conversion failed: Connection error."] |}).
Proof.
  assert (Hnone : forall p t, In (p, t) query_templates ->
                              ~ Substring p (strip (lower "Apple"))).
  { intros p t H. apply contains_false_iff.
    unfold query_templates in H. simpl in H.
    repeat (destruct H as [H | H]; [inversion H; subst; reflexivity |]).
    contradiction. }
  split; [exact Hnone |].
  exact (proj1 (query_to_cypher_with_llm Samples.no_chat
                  {| llm_mode := "api"; llm_api_model := "gpt-4" |} "Apple"
                  {| db := empty_graph; log := [] |} Hnone)
           eq_refl _ eq_refl).
Defined.

End RuleFacts.

(** ** QueryTranslator: the reply of the language model *)

Module ReplyFacts.
Import PyStr Spec PyStrFacts CaseFacts Neo4j Py NaturalLanguageQuery.
Local Open Scope list_scope.
Local Open Scope string_scope.

Lemma lstrip_by_suffix :
  forall p s, exists before, s = before ++ lstrip_by p s.
Proof.
  intros p. induction s as [|c s IH]; [exists EmptyString; reflexivity |].
  simpl. destruct (p c); [| exists EmptyString; reflexivity].
  destruct IH as (before & E). exists (String c before). simpl. f_equal. exact E.
Qed.

Lemma rstrip_by_prefix :
  forall p s, exists after, s = rstrip_by p s ++ after.
Proof.
  intros p. induction s as [|c s IH]; [exists EmptyString; reflexivity |].
  simpl. destruct IH as (after & E).
  destruct (rstrip_by p s) as [|d r].
  - destruct (p c).
    + exists (String c s). reflexivity.
    + exists after. simpl. f_equal. exact E.
  - exists after. simpl. f_equal. exact E.
Qed.

Lemma Substring_strip_by :
  forall p needle s, Substring needle (strip_by p s) -> Substring needle s.
Proof.
  intros p needle s (before & after & E). unfold strip_by in E.
  destruct (lstrip_by_suffix p s) as (pre & Es).
  destruct (rstrip_by_prefix p (lstrip_by p s)) as (post & Er).
  rewrite E in Er. rewrite Er in Es.
  exists (pre ++ before), (after ++ post).
  rewrite Es. rewrite !EntityTypeFacts.append_assoc. reflexivity.
Qed.

(** *** Removing the fences

    [s.replace('```', '')] read from the left: three back quotes in a row
    are dropped, any other character is kept. *)

Lemma no_quote_start :
  forall s,
    startswith "`" s = false ->
    startswith "`" (replace "```" EmptyString s) = false.
Proof.
  intros [|c s] H; [reflexivity |].
  cbn [startswith] in H. rewrite andb_true_r in H.
  rewrite RuleFacts.replace_head.
  - cbn [startswith]. rewrite H. reflexivity.
  - cbn [startswith]. rewrite H. reflexivity.
Qed.

Lemma no_two_quotes_start :
  forall s,
    startswith "``" s = false ->
    startswith "``" (replace "```" EmptyString s) = false.
Proof.
  intros [|c s] H; [reflexivity |].
  assert (F : startswith "```" (String c s) = false).
  { cbn [startswith] in *. destruct (Ascii.eqb "`" c); [| reflexivity].
    destruct s as [|d s]; [reflexivity |].
    cbn [andb] in *. destruct (Ascii.eqb "`" d); [| reflexivity].
    discriminate H. }
  rewrite (RuleFacts.replace_head _ _ _ _ F).
  change (startswith "``" (String c (replace "```" EmptyString s)))
    with (Ascii.eqb "`" c && startswith "`" (replace "```" EmptyString s)).
  change (startswith "``" (String c s))
    with (Ascii.eqb "`" c && startswith "`" s) in H.
  destruct (Ascii.eqb "`" c); [| reflexivity].
  cbn [andb] in *. apply no_quote_start. exact H.
Qed.

Lemma no_fence_start :
  forall c s,
    startswith "```" (String c s) = false ->
    startswith "```" (String c (replace "```" EmptyString s)) = false.
Proof.
  intros c s H.
  change (startswith "```" (String c (replace "```" EmptyString s)))
    with (Ascii.eqb "`" c && startswith "``" (replace "```" EmptyString s)).
  change (startswith "```" (String c s))
    with (Ascii.eqb "`" c && startswith "``" s) in H.
  destruct (Ascii.eqb "`" c); [| reflexivity].
  cbn [andb] in *. apply no_two_quotes_start. exact H.
Qed.

Lemma no_fence_left :
  forall s skip,
    contains "```" (replace_from skip "```" EmptyString s) = false.
Proof.
  induction s as [|c s IH]; intros skip; [reflexivity |].
  destruct skip as [|k]; cbn [replace_from]; [| apply IH].
  destruct (startswith "```" (String c s)) eqn:F.
  - cbn [append]. apply IH.
  - rewrite contains_unfold.
    fold (replace "```" EmptyString s).
    rewrite (no_fence_start c s F).
    apply (IH 0).
Qed.

(** [_llm_to_cypher] never raises.  When the chat service fails, the
    error is logged and the result is [None]; when it replies, the result
    is a query in which no code fence (three back quotes in a row) is
    left, at the ends or inside, and which has no whitespace at its ends. *)
Theorem llm_to_cypher_reply :
  forall chat question w,
    exists result,
      fst (_llm_to_cypher chat question w) = Returns result
      /\ (forall query, result = Some query ->
            contains "```" query = false /\ strip query = query)
      /\ (result = None <-> exists e, chat question = inl e).
Proof.
  intros chat question w. unfold _llm_to_cypher, try_except.
  destruct (chat question) as [e | content].
  - exists None. split; [reflexivity |].
    split; [discriminate |]. split; [exists e; reflexivity | reflexivity].
  - eexists. split; [reflexivity |]. split.
    + intros query E. inversion E; subst query. split.
      * apply contains_false_iff. intros H.
        apply Substring_strip_by in H.
        apply contains_Substring in H.
        unfold replace in H at 1. rewrite no_fence_left in H. discriminate.
      * apply strip_idempotent.
    + split; [discriminate | intros (e & E); discriminate].
Qed.

End ReplyFacts.

(** ** GraphStore: the statistics *)

Module StatsFacts.
Import Neo4j Py NaturalLanguageQuery GraphStats TextSpec.
Local Open Scope string_scope.
Local Open Scope list_scope.

Lemma lookup_dict_set :
  forall key value stats k,
    lookup k (dict_set key value stats)
    = if String.eqb key k then Some value else lookup k stats.
Proof.
  intros key value stats k. unfold lookup.
  induction stats as [|[k' v'] stats IH]; simpl.
  - destruct (String.eqb key k); reflexivity.
  - destruct (String.eqb_spec k' key) as [-> | Hne]; simpl.
    + destruct (String.eqb key k); reflexivity.
    + destruct (String.eqb_spec k' k) as [-> | Hk].
      * apply String.eqb_neq in Hne. rewrite String.eqb_sym in Hne.
        rewrite Hne. reflexivity.
      * exact IH.
Qed.

Lemma keys_dict_set :
  forall key value stats,
    NoDup (map fst stats) -> NoDup (map fst (dict_set key value stats)).
Proof.
  intros key value. induction stats as [|[k v] stats IH]; intros H; simpl.
  - constructor; [intros [] | constructor].
  - inversion H as [|? ? Hk Hs]; subst.
    destruct (String.eqb_spec k key) as [-> | Hne]; simpl.
    + constructor; assumption.
    + constructor; [| apply IH; exact Hs].
      intros Hin. apply Hk. clear - Hin Hne.
      induction stats as [|[k' v'] stats IH]; simpl in *.
      * destruct Hin as [E | []]. symmetry in E. contradiction.
      * destruct (String.eqb k' key); simpl in Hin; [exact Hin |].
        destruct Hin as [E | Hin]; [left; exact E | right; apply IH; exact Hin].
Qed.

Lemma lookup_update :
  forall record stats k,
    lookup k (update stats record) = bound_last k record (lookup k stats).
Proof.
  unfold update, bound_last.
  induction record as [|[key value] record IH]; intros stats k; simpl;
    [reflexivity |].
  rewrite IH, lookup_dict_set. reflexivity.
Qed.

Lemma keys_update :
  forall record stats,
    NoDup (map fst stats) -> NoDup (map fst (update stats record)).
Proof.
  unfold update. induction record as [|[key value] record IH]; intros stats H;
    simpl; [exact H |].
  apply IH. apply keys_dict_set. exact H.
Qed.

Lemma lookup_fold_update :
  forall rows stats k,
    lookup k (fold_left update rows stats)
    = bound_last k (List.concat rows) (lookup k stats).
Proof.
  induction rows as [|record rows IH]; intros stats k; simpl; [reflexivity |].
  rewrite IH, lookup_update. unfold bound_last. rewrite fold_left_app. reflexivity.
Qed.

Lemma keys_fold_update :
  forall rows stats,
    NoDup (map fst stats) -> NoDup (map fst (fold_left update rows stats)).
Proof.
  induction rows as [|record rows IH]; intros stats H; simpl; [exact H |].
  apply IH. apply keys_update. exact H.
Qed.

(** [get_graph_stats] has no handler: when the store raises, the
    exception reaches the caller and nothing is logged.  When the store
    answers, the rows are merged into one dictionary with every key once:
    a key has the value it has in the last row that carries it, so a
    later row overwrites an earlier one key by key. *)
Theorem get_graph_stats_merges_rows :
  forall cypher w,
    (forall e,
        cypher stats_query [] (db w) = inl e ->
        get_graph_stats cypher w = (Raises e, w))
    /\ (forall rows g,
           cypher stats_query [] (db w) = inr (rows, g) ->
           exists stats,
             get_graph_stats cypher w
             = (Returns stats, {| db := g; log := log w |})
             /\ (forall key,
                   lookup key stats = bound_last key (List.concat rows) None)
             /\ NoDup (map fst stats)).
Proof.
  intros cypher w. unfold get_graph_stats, bind, session_run. split.
  - intros e E. rewrite E. reflexivity.
  - intros rows g E. rewrite E.
    exists (fold_left update rows []). split; [reflexivity |]. split.
    + intros key. apply lookup_fold_update.
    + apply keys_fold_update. constructor.
Qed.

Lemma get_graph_stats_merges_rows_witness :
  exists stats,
    get_graph_stats
      (fun _ _ g => inr ([[("total_nodes", Number 2%float);
                           ("unique_labels", Number 1%float)];
                          [("total_relationships", Number 1%float);
                           ("total_nodes", Number 5%float)]], g))
      {| db := empty_graph; log := [] |}
    = (Returns stats, {| db := empty_graph; log := [] |})
    /\ (forall key,
          lookup key stats
          = bound_last key
              (List.concat [[("total_nodes", Number 2%float);
                             ("unique_labels", Number 1%float)];
                            [("total_relationships", Number 1%float);
                             ("total_nodes", Number 5%float)]])
              None)
    /\ NoDup (map fst stats).
Proof.
  exact (proj2 (get_graph_stats_merges_rows
                  (fun _ _ g => inr ([[("total_nodes", Number 2%float);
                                       ("unique_labels", Number 1%float)];
                                      [("total_relationships", Number 1%float);
                                       ("total_nodes", Number 5%float)]], g))
                  {| db := empty_graph; log := [] |})
               _ _ eq_refl).
Defined.

End StatsFacts.

(** ** Preprocessing: batches of sentences *)

Module SentenceBatches.
Import Neo4j TextPreprocessor BatchFacts.
Local Open Scope string_scope.
Local Open Scope list_scope.

(** [batch_sentences] with a positive batch size cuts the sentences into
    consecutive batches: put end to end they are the sentences, in order,
    each once, and every batch has at least one sentence and at most the
    batch size.  A batch size of zero raises a [ValueError], and with a
    negative batch size there is no batch at all, whatever the
    sentences.  The batch size is the one given, or the configured one. *)
Theorem batch_sentences_partition :
  forall cfg sentences size,
    ((0 < match size with None => batch_size cfg | Some n => n end)%Z ->
     exists batches,
       batch_sentences cfg sentences size = inr batches
       /\ List.concat batches = sentences
       /\ Forall (fun b => 1 <= List.length b
                           /\ (Z.of_nat (List.length b)
                               <= match size with
                                  | None => batch_size cfg
                                  | Some n => n
                                  end)%Z)
                 batches)
    /\ (match size with None => batch_size cfg | Some n => n end = 0%Z ->
        exists e, batch_sentences cfg sentences size = inl e
                  /\ exc_type e = "ValueError")
    /\ ((match size with None => batch_size cfg | Some n => n end < 0)%Z ->
        batch_sentences cfg sentences size = inr []).
Proof.
  intros cfg sentences size. unfold batch_sentences.
  set (n := match size with None => batch_size cfg | Some n => n end).
  split; [| split].
  - intros Hn.
    destruct (Z.eqb_spec n 0) as [E | _]; [lia |].
    destruct (Z.ltb_spec n 0) as [L | _]; [lia |].
    eexists. split; [reflexivity |]. split.
    + apply chunks_concat. lia.
    + apply Forall_forall. intros b Hb. apply in_map_iff in Hb.
      destruct Hb as (i & <- & Hi).
      pose proof (chunk_length (Z.to_nat n) sentences i ltac:(lia) Hi) as [L1 L2].
      split; [exact L1 | lia].
  - intros Hn. rewrite Hn. simpl. eexists. split; reflexivity.
  - intros Hn.
    destruct (Z.eqb_spec n 0) as [E | _]; [lia |].
    destruct (Z.ltb_spec n 0) as [_ | L]; [reflexivity | lia].
Qed.

Lemma batch_sentences_partition_witness :
  exists batches,
    batch_sentences {| max_sentences := 50; batch_size := 2 |}
                    ["one"; "two"; "three"] None
    = inr batches
    /\ List.concat batches = ["one"; "two"; "three"]
    /\ Forall (fun b => 1 <= List.length b /\ (Z.of_nat (List.length b) <= 2)%Z)
              batches.
Proof.
  exact (proj1 (batch_sentences_partition
                  {| max_sentences := 50; batch_size := 2 |}
                  ["one"; "two"; "three"] None)
               eq_refl).
Defined.

End SentenceBatches.

(** ** Preprocessing: the cleaned text *)

Module TextFacts.
Import PyStr Spec PyStrFacts CaseFacts DataCleaner Output EntityNameFacts.
Import TextPreprocessor TextSpec.
Local Open Scope list_scope.
Local Open Scope string_scope.

(** *** Where a web address begins *)

Lemma url_start_iff :
  forall s,
    url_start s = true
    <-> exists x rest,
          is_space x = false
          /\ (s = "http" ++ String x rest \/ s = "www" ++ String x rest).
Proof.
  intros s. unfold url_start, nonspace_at. split.
  - intros H. apply orb_true_iff in H.
    destruct H as [H | H]; apply andb_true_iff in H; destruct H as [Hp Hx];
      destruct (startswith_inv _ _ Hp) as (r & ->).
    + change (drop 4 ("http" ++ r)) with r in Hx.
      destruct r as [|x rest]; [discriminate |].
      exists x, rest. split; [apply negb_true_iff; exact Hx | left; reflexivity].
    + change (drop 3 ("www" ++ r)) with r in Hx.
      destruct r as [|x rest]; [discriminate |].
      exists x, rest. split; [apply negb_true_iff; exact Hx | right; reflexivity].
  - intros (x & rest & Hx & [-> | ->]).
    + change (drop 4 ("http" ++ String x rest)) with (String x rest).
      rewrite startswith_app, Hx. reflexivity.
    + change (drop 3 ("www" ++ String x rest)) with (String x rest).
      rewrite startswith_app, Hx. apply orb_true_r.
Qed.

Lemma url_start_space :
  forall c r, is_space c = true -> url_start (String c r) = false.
Proof.
  intros c r H. destruct (url_start (String c r)) eqn:E; [| reflexivity].
  apply url_start_iff in E.
  destruct E as (x & rest & _ & [E | E]); inversion E; subst; discriminate H.
Qed.

Lemma url_start_app :
  forall s after, url_start s = true -> url_start (s ++ after) = true.
Proof.
  intros s after H. apply url_start_iff in H. apply url_start_iff.
  destruct H as (x & rest & Hx & [-> | ->]); exists x, (rest ++ after);
    (split; [exact Hx |]); [left | right]; reflexivity.
Qed.

Section Transformation.

(** A transformation that leaves a character other than whitespace at
    the start of its result only when the text starts with it, and goes
    on in the same way after it *)
Variable T : string -> string.
Hypothesis first_kept :
  forall s d o, T s = String d o -> is_space d = false ->
    exists s', s = String d s' /\ o = T s'.

Lemma word_kept :
  forall w s rest,
    Spec.sforall (fun c => negb (is_space c)) w = true ->
    T s = w ++ rest -> exists s', s = w ++ s' /\ rest = T s'.
Proof.
  induction w as [|c w IH]; intros s rest Hw E.
  - exists s. split; [reflexivity | symmetry; exact E].
  - simpl in Hw. apply andb_true_iff in Hw. destruct Hw as [Hc Hw].
    apply negb_true_iff in Hc.
    destruct (first_kept s c (w ++ rest) E Hc) as (s1 & -> & E1).
    destruct (IH s1 rest Hw (eq_sym E1)) as (s' & -> & E').
    exists s'. split; [reflexivity | exact E'].
Qed.

Lemma url_start_T : forall s, url_start (T s) = true -> url_start s = true.
Proof.
  intros s H. apply url_start_iff in H. apply url_start_iff.
  destruct H as (x & rest & Hx & [E | E]).
  - destruct (word_kept ("http" ++ String x EmptyString) s rest) as (s' & -> & _).
    + simpl. rewrite Hx. reflexivity.
    + exact E.
    + exists x, s'. split; [exact Hx | left; reflexivity].
  - destruct (word_kept ("www" ++ String x EmptyString) s rest) as (s' & -> & _).
    + simpl. rewrite Hx. reflexivity.
    + exact E.
    + exists x, s'. split; [exact Hx | right; reflexivity].
Qed.

End Transformation.

(** *** The four steps *)

Lemma remove_urls_inside :
  forall s d o, remove_urls true s = String d o -> is_space d = true.
Proof.
  induction s as [|c s IH]; intros d o H; simpl in H; [discriminate |].
  destruct (is_space c) eqn:E.
  - inversion H; subst. exact E.
  - apply (IH d o H).
Qed.

Lemma remove_urls_first :
  forall s d o,
    remove_urls false s = String d o -> is_space d = false ->
    exists s', s = String d s' /\ o = remove_urls false s'.
Proof.
  intros [|c s] d o H Hd; [discriminate |].
  cbn [remove_urls] in H. destruct (url_start (String c s)).
  - rewrite (remove_urls_inside _ _ _ H) in Hd. discriminate.
  - inversion H; subst. exists s. auto.
Qed.

Lemma url_free_remove_urls :
  forall s in_url, url_free (remove_urls in_url s) = true.
Proof.
  induction s as [|c s IH]; intros in_url; [destruct in_url; reflexivity |].
  cbn [remove_urls]. destruct in_url.
  - destruct (is_space c) eqn:E; [| apply IH].
    cbn [url_free]. rewrite (url_start_space c _ E). apply IH.
  - destruct (url_start (String c s)) eqn:E; [apply IH |].
    cbn [url_free]. rewrite (IH false), andb_true_r.
    apply negb_true_iff.
    destruct (url_start (String c (remove_urls false s))) eqn:U; [| reflexivity].
    assert (U' : url_start (remove_urls false (String c s)) = true)
      by (cbn [remove_urls]; rewrite E; exact U).
    rewrite (url_start_T _ remove_urls_first _ U') in E. discriminate.
Qed.

Lemma remove_urls_fixed :
  forall s, url_free s = true -> remove_urls false s = s.
Proof.
  induction s as [|c s IH]; intros H; [reflexivity |].
  cbn [url_free] in H. apply andb_true_iff in H. destruct H as [H1 H2].
  apply negb_true_iff in H1. cbn [remove_urls]. rewrite H1, (IH H2). reflexivity.
Qed.

Lemma is_space_kept : forall c, is_space c = true -> is_kept c = true.
Proof.
  intros c H. unfold is_kept. rewrite H. rewrite orb_true_r. reflexivity.
Qed.

Lemma blank_special_first :
  forall s d o,
    blank_special s = String d o -> is_space d = false ->
    exists s', s = String d s' /\ o = blank_special s'.
Proof.
  intros [|c s] d o H Hd; [discriminate |].
  unfold blank_special in H. simpl in H. inversion H as [[Hc Ho]].
  exists s. split; [| reflexivity]. f_equal.
  destruct (is_kept c); [reflexivity |].
  rewrite <- Hc in Hd. discriminate Hd.
Qed.

Lemma url_free_blank_special :
  forall s, url_free s = true -> url_free (blank_special s) = true.
Proof.
  induction s as [|c s IH]; intros H; [reflexivity |].
  cbn [url_free] in H. apply andb_true_iff in H. destruct H as [H1 H2].
  change (blank_special (String c s))
    with (String (if is_kept c then c else SPACE) (blank_special s)).
  cbn [url_free]. rewrite (IH H2), andb_true_r.
  apply negb_true_iff. apply negb_true_iff in H1.
  destruct (url_start (String (if is_kept c then c else SPACE) (blank_special s)))
    eqn:U; [| reflexivity].
  rewrite (url_start_T _ blank_special_first (String c s) U) in H1. discriminate.
Qed.

Lemma sforall_blank_special :
  forall s, Spec.sforall is_kept (blank_special s) = true.
Proof.
  induction s as [|c s IH]; [reflexivity |].
  change (blank_special (String c s))
    with (String (if is_kept c then c else SPACE) (blank_special s)).
  cbn [Spec.sforall]. rewrite IH, andb_true_r.
  destruct (is_kept c) eqn:E; [exact E | reflexivity].
Qed.

Lemma blank_special_fixed :
  forall s, Spec.sforall is_kept s = true -> blank_special s = s.
Proof.
  induction s as [|c s IH]; intros H; [reflexivity |].
  cbn [Spec.sforall] in H. apply andb_true_iff in H. destruct H as [H1 H2].
  change (blank_special (String c s))
    with (String (if is_kept c then c else SPACE) (blank_special s)).
  rewrite H1, (IH H2). reflexivity.
Qed.

Lemma collapse_first :
  forall s d o,
    collapse_whitespace false s = String d o -> is_space d = false ->
    exists s', s = String d s' /\ o = collapse_whitespace false s'.
Proof.
  intros [|c s] d o H Hd; [discriminate |].
  cbn [collapse_whitespace] in H. destruct (is_space c) eqn:E.
  - inversion H; subst. discriminate Hd.
  - inversion H; subst. exists s. auto.
Qed.

Lemma url_free_collapse :
  forall s in_run,
    url_free s = true -> url_free (collapse_whitespace in_run s) = true.
Proof.
  induction s as [|c s IH]; intros in_run H; [reflexivity |].
  cbn [url_free] in H. apply andb_true_iff in H. destruct H as [H1 H2].
  cbn [collapse_whitespace]. destruct (is_space c) eqn:E.
  - destruct in_run; [apply (IH true H2) |].
    cbn [url_free]. rewrite (url_start_space SPACE _ eq_refl). apply (IH true H2).
  - cbn [url_free]. rewrite (IH false H2), andb_true_r.
    apply negb_true_iff. apply negb_true_iff in H1.
    destruct (url_start (String c (collapse_whitespace false s))) eqn:U;
      [| reflexivity].
    assert (U' : url_start (collapse_whitespace false (String c s)) = true)
      by (cbn [collapse_whitespace]; rewrite E; exact U).
    rewrite (url_start_T _ collapse_first _ U') in H1. discriminate.
Qed.

Lemma sforall_collapse :
  forall s in_run,
    Spec.sforall is_kept s = true ->
    Spec.sforall is_clean (collapse_whitespace in_run s) = true.
Proof.
  induction s as [|c s IH]; intros in_run H; [reflexivity |].
  cbn [Spec.sforall] in H. apply andb_true_iff in H. destruct H as [H1 H2].
  cbn [collapse_whitespace]. destruct (is_space c) eqn:E.
  - destruct in_run; [apply (IH true H2) |].
    cbn [Spec.sforall]. rewrite (IH true H2). reflexivity.
  - cbn [Spec.sforall]. rewrite (IH false H2), andb_true_r.
    unfold is_clean. rewrite H1, E. reflexivity.
Qed.

Lemma collapse_fixed :
  forall s in_run,
    single_spaced in_run s = true -> collapse_whitespace in_run s = s.
Proof.
  induction s as [|c s IH]; intros in_run H; [reflexivity |].
  cbn [single_spaced collapse_whitespace] in *.
  destruct (is_space c).
  - apply andb_true_iff in H. destruct H as [H H3].
    apply andb_true_iff in H. destruct H as [H1 H2].
    apply negb_true_iff in H2. subst in_run.
    apply Ascii.eqb_eq in H1. subst c. rewrite (IH true H3). reflexivity.
  - rewrite (IH false H). reflexivity.
Qed.

Section Stripping.

Variable p : ascii -> bool.

Lemma url_free_lstrip :
  forall s, url_free s = true -> url_free (lstrip_by p s) = true.
Proof.
  induction s as [|c s IH]; intros H; [reflexivity |].
  cbn [lstrip_by]. destruct (p c); [| exact H].
  cbn [url_free] in H. apply andb_true_iff in H. apply IH. apply H.
Qed.

Lemma url_free_rstrip :
  forall s, url_free s = true -> url_free (rstrip_by p s) = true.
Proof.
  induction s as [|c s IH]; intros H; [reflexivity |].
  cbn [url_free] in H. apply andb_true_iff in H. destruct H as [H1 H2].
  apply negb_true_iff in H1.
  assert (U : url_free (String c (rstrip_by p s)) = true).
  { cbn [url_free]. rewrite (IH H2), andb_true_r. apply negb_true_iff.
    destruct (url_start (String c (rstrip_by p s))) eqn:U; [| reflexivity].
    destruct (ReplyFacts.rstrip_by_prefix p s) as (after & E).
    apply (url_start_app _ after) in U. cbn [append] in U.
    rewrite <- E in U. rewrite U in H1. discriminate. }
  cbn [rstrip_by]. destruct (rstrip_by p s) as [|d r] eqn:E; [| exact U].
  destruct (p c); [reflexivity | exact U].
Qed.

End Stripping.

Lemma is_clean_kept : forall c, is_clean c = true -> is_kept c = true.
Proof.
  intros c H. unfold is_clean in H. apply orb_true_iff in H.
  destruct H as [H | H].
  - apply andb_true_iff in H. apply H.
  - apply Ascii.eqb_eq in H. subst c. reflexivity.
Qed.

Lemma sforall_weaken :
  forall (p q : ascii -> bool) s,
    (forall c, p c = true -> q c = true) ->
    Spec.sforall p s = true -> Spec.sforall q s = true.
Proof.
  intros p q s Hpq. induction s as [|c s IH]; intros H; [reflexivity |].
  cbn [Spec.sforall] in *. apply andb_true_iff in H. destruct H as [H1 H2].
  rewrite (Hpq c H1), (IH H2). reflexivity.
Qed.

(** The text that [_clean_text] returns is in a normal form: it is made
    of word characters, the signs [.,!?-] and spaces only; every space is
    a single one between two other characters; no web address (http or
    www followed by a character other than whitespace) begins in it; and
    cleaning it again changes nothing. *)
Theorem clean_text_normal_form :
  forall text,
    Spec.sforall is_clean (_clean_text text) = true
    /\ single_spaced false (_clean_text text) = true
    /\ strip (_clean_text text) = _clean_text text
    /\ url_free (_clean_text text) = true
    /\ _clean_text (_clean_text text) = _clean_text text.
Proof.
  intros text.
  assert (Hclean : Spec.sforall is_clean (_clean_text text) = true).
  { unfold _clean_text, strip, strip_by.
    apply sforall_rstrip. apply sforall_lstrip.
    apply sforall_collapse. apply sforall_blank_special. }
  assert (Hspaced : single_spaced false (_clean_text text) = true).
  { unfold _clean_text, strip, strip_by.
    apply single_spaced_rstrip. apply (single_spaced_lstrip _ _ false).
    apply single_spaced_collapse. }
  assert (Hstrip : strip (_clean_text text) = _clean_text text).
  { unfold _clean_text. apply strip_idempotent. }
  assert (Hfree : url_free (_clean_text text) = true).
  { unfold _clean_text, strip, strip_by.
    apply url_free_rstrip. apply url_free_lstrip.
    apply url_free_collapse. apply url_free_blank_special.
    apply url_free_remove_urls. }
  repeat (split; [assumption |]).
  unfold _clean_text at 1.
  rewrite (remove_urls_fixed _ Hfree).
  rewrite (blank_special_fixed _ (sforall_weaken _ _ _ is_clean_kept Hclean)).
  rewrite (collapse_fixed _ _ Hspaced).
  exact Hstrip.
Qed.

End TextFacts.

(** ** Preprocessing: from a file to sentences *)

Module PreprocessFacts.
Import PyStr Neo4j Py CaseFacts TextPreprocessor.
Local Open Scope list_scope.
Local Open Scope string_scope.

Lemma Forall_slice_to :
  forall {A} (P : A -> Prop) n l, Forall P l -> Forall P (slice_to n l).
Proof.
  intros A P n l H. unfold slice_to.
  assert (F : forall k, Forall P (firstn k l)).
  { intros k. rewrite <- (firstn_skipn k l) in H.
    apply Forall_app in H. apply H. }
  destruct (n <? 0)%Z; apply F.
Qed.

Lemma length_slice_to :
  forall {A} n (l : list A),
    (n < 0 \/ Z.of_nat (List.length (slice_to n l)) <= n)%Z.
Proof.
  intros A n l. unfold slice_to. destruct (n <? 0)%Z eqn:E.
  - left. apply Z.ltb_lt. exact E.
  - right. apply Z.ltb_ge in E.
    pose proof (firstn_le_length (Z.to_nat n) l) as H. lia.
Qed.

Lemma kept_sentences :
  forall sentences,
    Forall (fun s => strip s = s /\ (20 < String.length s)%nat)
           (map strip (filter (fun s => (20 <? String.length (strip s))%nat)
                              sentences)).
Proof.
  induction sentences as [|s sentences IH]; [constructor |].
  cbn [filter]. destruct (20 <? String.length (strip s))%nat eqn:E; [| exact IH].
  cbn [map]. constructor; [| exact IH].
  split; [apply strip_idempotent | apply Nat.ltb_lt; exact E].
Qed.

Section Tokenizer.

Variable sent_tokenize : string -> Exception + list string.
Variable read_file : string -> Exception + string.

(** [preprocess_file] never raises and never touches the database. Every
    sentence it returns has no outer whitespace and more than 20
    characters, and there are at most [max_sentences] of them when that is
    not negative. When the file cannot be read, or when the tokenizer
    fails, the result is the empty list and the failure is logged as an
    error of reading the file; otherwise the log gets the two
    informations and no error. *)
Theorem preprocess_file_never_raises :
  forall cfg file_path w,
    exists sentences l,
      preprocess_file sent_tokenize read_file cfg file_path w
        = (Returns sentences, {| db := db w; log := log w ++ l |})
      /\ Forall (fun s => strip s = s /\ (20 < String.length s)%nat) sentences
      /\ (max_sentences cfg < 0
          \/ Z.of_nat (List.length sentences) <= max_sentences cfg)%Z
      /\ match read_file file_path with
         | inl e =>
             sentences = []
             /\ l = [ERROR ("Error reading file " ++ file_path ++ ": "
                            ++ exc_message e)]
         | inr text =>
             let loaded :=
               INFO ("Loaded text from " ++ file_path ++ ", length: "
                     ++ str (String.length text) ++ " chars") in
             match sent_tokenize (_clean_text text) with
             | inl e =>
                 sentences = []
                 /\ l = [loaded;
                         ERROR ("Error reading file " ++ file_path ++ ": "
                                ++ exc_message e)]
             | inr _ =>
                 l = [loaded;
                      INFO ("Preprocessed text into "
                            ++ str (List.length sentences) ++ " sentences")]
             end
         end.
Proof.
  intros cfg file_path w.
  unfold preprocess_file, try_except.
  destruct (read_file file_path) as [e | text].
  - exists [], [ERROR ("Error reading file " ++ file_path ++ ": " ++ exc_message e)].
    split; [reflexivity |]. split; [constructor |].
    split; [cbn [List.length]; lia | split; reflexivity].
  - unfold preprocess_text.
    destruct (sent_tokenize (_clean_text text)) as [e | sentences].
    + exists [], [INFO ("Loaded text from " ++ file_path ++ ", length: "
                        ++ str (String.length text) ++ " chars");
                  ERROR ("Error reading file " ++ file_path ++ ": " ++ exc_message e)].
      split.
      * unfold bind, logger_info, logger_error, emit, raise, ret.
        cbn [db log fst snd]. rewrite <- app_assoc. reflexivity.
      * split; [constructor |].
        split; [cbn [List.length]; lia | split; reflexivity].
    + set (kept := slice_to (max_sentences cfg)
                     (map strip (filter (fun s => (20 <? String.length (strip s))%nat)
                                        sentences))).
      exists kept,
             [INFO ("Loaded text from " ++ file_path ++ ", length: "
                    ++ str (String.length text) ++ " chars");
              INFO ("Preprocessed text into " ++ str (List.length kept)
                    ++ " sentences")].
      split.
      * unfold bind, logger_info, emit, ret.
        cbn [db log fst snd]. rewrite <- app_assoc. reflexivity.
      * split; [apply Forall_slice_to; apply kept_sentences |].
        split; [apply length_slice_to | reflexivity].
Qed.

End Tokenizer.

End PreprocessFacts.
